(** * openxml-edit.js / eval.js: the flatten-locate-splice engine

    A shallow embedding of the run indexer ([indexRuns]), the literal
    locator ([findAll], [hasTokenBoundary]), the style classifier
    ([isBoldRed], [isRed], [overlayExact], [overlayBrown]), the splicer
    ([applyStyleToRange]) and the per-detection loop of
    [annotateDocxWithDetections].

    Two revisions of openxml-edit.js are embedded side by side.  They share
    most functions; what differs between them (the classifier, the join
    test of the flattener, the guards of the loops) is gathered in a
    [Revision] that the shared definitions take as an argument.

    The second part embeds more of the code: the verdicts of eval.js's
    [evaluateDetections] and its [levenshtein], the edit distance of the
    image masker, the masker's locator, [mergeRanges] and
    [maskTextRanges], and [partitionTextToRuns] of the reviewed
    document. *)

From Stdlib Require Import ZArith Lia String Ascii.
From stdpp Require Import base list option numbers gmap.

Local Open Scope Z_scope.

(** ** JavaScript strings

    A JavaScript string is a sequence of UTF-16 code units; [s.length],
    [s[i]], [slice] and [indexOf] all count code units. *)

Abbreviation jstring := (list N) (only parsing).

(** [u "abc"] is the JavaScript string of an ASCII literal. *)
Definition u (s : string) : jstring :=
  List.map N_of_ascii (list_ascii_of_string s).

Definition len (s : jstring) : Z := Z.of_nat (length s).

(** [a.length] of an array. *)
Definition len_ {A} (a : list A) : Z := Z.of_nat (length a).

(** [a[i]] for an array or string: [undefined] (here [None]) when [i] is
    negative or past the end. *)
Definition at_ {A} (l : list A) (i : Z) : option A :=
  if i <? 0 then None else l !! Z.to_nat i.

(** [s.slice(a, b)]: negative indices count from the end, both ends are
    clamped to the string, and an empty string results when they cross. *)
Definition sliceIndex (n i : Z) : Z :=
  if i <? 0 then Z.max (n + i) 0 else Z.min i n.

Definition slice (s : jstring) (a b : Z) : jstring :=
  let from := sliceIndex (len s) a in
  let to := sliceIndex (len s) b in
  take (Z.to_nat (to - from)) (drop (Z.to_nat from) s).

(** [s.slice(a)] *)
Definition sliceFrom (s : jstring) (a : Z) : jstring := slice s a (len s).

(** ** Character classes of the regular expressions in the source *)

Definition inRange (lo hi c : N) : bool := ((lo <=? c) && (c <=? hi))%N.

(** [/\s/]: ECMAScript WhiteSpace and LineTerminator code points. *)
Definition isSpace (c : N) : bool :=
  inRange 9 13 c || (c =? 32)%N || (c =? 160)%N || (c =? 5760)%N
  || inRange 8192 8202 c || (c =? 8232)%N || (c =? 8233)%N
  || (c =? 8239)%N || (c =? 8287)%N || (c =? 12288)%N || (c =? 65279)%N.

(** [/[a-zA-Z0-9]/] *)
Definition isAlnum (c : N) : bool :=
  inRange 97 122 c || inRange 65 90 c || inRange 48 57 c.

(** The characters of the punctuation class of the source: the seventeen
    ASCII marks below and the double quote (code unit 34). *)
Definition punctChars : jstring := u ".,;:!?()[]{}<>$'-" ++ [34%N].

(** The test of one character against that class. *)
Definition isPunct (c : N) : bool := bool_decide (c ∈ punctChars).

(** ** Locator: eval.js [findAllOccurrences], openxml-edit.js [findAll] *)

Fixpoint startsWith (text value : jstring) : bool :=
  match value, text with
  | [], _ => true
  | v :: value', c :: text' => (v =? c)%N && startsWith text' value'
  | _ :: _, [] => false
  end.

(** [search rest value k]: the first index, counted from [k] at the head of
    [rest], at which [value] starts; [None] stands for [-1]. *)
Fixpoint search (rest value : jstring) (k : nat) : option nat :=
  if startsWith rest value then Some k
  else match rest with
       | [] => None
       | _ :: rest' => search rest' value (S k)
       end.

(** [text.indexOf(value, i)]: the start position is clamped to the string. *)
Definition indexOf (text value : jstring) (i : nat) : option nat :=
  let pos := Nat.min i (length text) in
  search (drop pos text) value pos.

(** The [while (i < text.length)] loop.  Every round moves [i] forward by at
    least [value.length], so [text.length - i] rounds are always enough;
    [findAll_fuel_enough] below shows that more rounds change nothing. *)
Fixpoint findAll_loop (fuel : nat) (text value : jstring) (i : nat)
  : list (nat * nat) :=
  match fuel with
  | O => []
  | S fuel' =>
      if (i <? length text)%nat then
        match indexOf text value i with
        | None => []
        | Some j =>
            (j, (j + length value)%nat)
              :: findAll_loop fuel' text value (j + length value)%nat
        end
      else []
  end.

Definition findAll (text value : jstring) : list (nat * nat) :=
  match value with
  | [] => []
  | _ => findAll_loop (length text) text value 0
  end.

(** eval.js has the same function under another name. *)
Definition findAllOccurrences := findAll.

(** ** eval.js [hasTokenBoundary] *)

(** [String(undefined)] *)
Definition str_undefined : jstring := u "undefined".

(** [isBoundary(c)] tests [c] against the alternation of [\s], the
    punctuation class and [^$].  The pattern is not anchored, so it
    succeeds when any code unit of [c] is in one of the two classes, or
    when [c] is empty. *)
Definition isBoundaryStr (c : jstring) : bool :=
  existsb (fun x => isSpace x || isPunct x) c
  || bool_decide (c = []).

(** The argument of [isBoundary] is [full[k]]: a string of one code unit,
    or [undefined], which [test] turns into the string [str_undefined]. *)
Definition charAt (full : jstring) (k : Z) : jstring :=
  match at_ full k with
  | Some c => [c]
  | None => str_undefined
  end.

Definition hasTokenBoundary (full : jstring) (start end_ : Z) : bool :=
  let left := if start <=? 0 then u " " else charAt full (start - 1) in
  let right := if end_ >=? len full then u " " else charAt full end_ in
  isBoundaryStr left && isBoundaryStr right.

(** ** Parsed XML values

    What [XMLParser.parse] and [JSON.parse] build: strings, booleans,
    [null], arrays and objects.  An object keeps its own keys in insertion
    order.  [undefined] is not a value of this type: a missing property is
    [None]. *)

#[warnings="-register-all"] Inductive JVal : Type :=
| JNull
| JBool (b : bool)
| JStr (s : jstring)
| JArr (items : list JVal)
| JObj (fields : list (string * JVal)).

(** A JavaScript object: the ordered list of its own properties. *)
Abbreviation Obj := (list (string * JVal)) (only parsing).

(** [o[k]] on an object. *)
Fixpoint field (o : Obj) (k : string) : option JVal :=
  match o with
  | [] => None
  | (k', v) :: o' => if String.eqb k' k then Some v else field o' k
  end.

(** [o[k] = v]: an existing key keeps its place, a new key goes last. *)
Fixpoint setField (o : Obj) (k : string) (v : JVal) : Obj :=
  match o with
  | [] => [(k, v)]
  | (k', v') :: o' =>
      if String.eqb k' k then (k', v) :: o' else (k', v') :: setField o' k v
  end.

(** [v[k]] for a value [v] that is neither [null] nor [undefined], and a
    key [k] that is an XML name: only objects hold such keys (strings and
    arrays only have indices and [length]). *)
Definition prop (v : JVal) (k : string) : option JVal :=
  match v with
  | JObj o => field o k
  | _ => None
  end.

(** [v?.[k]] *)
Definition optProp (v : option JVal) (k : string) : option JVal :=
  match v with
  | None | Some JNull => None
  | Some v => prop v k
  end.

(** Truthiness: [!!v]. *)
Definition truthy (v : option JVal) : bool :=
  match v with
  | None | Some JNull => false
  | Some (JBool b) => b
  | Some (JStr s) => negb (bool_decide (s = []))
  | Some (JArr _) | Some (JObj _) => true
  end.

(** [String(v)], as [RegExp.prototype.test] applies it to its argument:
    an array is its items joined by commas, with [null] items empty. *)
Fixpoint toStr (v : JVal) : jstring :=
  match v with
  | JNull => u "null"
  | JBool true => u "true"
  | JBool false => u "false"
  | JStr s => s
  | JArr items =>
      (fix join (l : list JVal) : jstring :=
         match l with
         | [] => []
         | [x] => match x with JNull => [] | _ => toStr x end
         | x :: rest =>
             match x with JNull => [] | _ => toStr x end
               ++ u "," ++ join rest
         end) items
  | JObj _ => u "[object Object]"
  end.

(** [JSON.parse(JSON.stringify(v))] rebuilds every value of [JVal] as it
    is; as values carry no identity here, the copy is the value. *)
Definition clone {A} (v : A) : A := v.

(** ** Exceptions

    A property read on [null] or [undefined] throws a [TypeError]; a
    computation that may do so returns a [Res]. *)

Inductive Res (A : Type) : Type :=
| Ok (a : A)
| TypeError.
Arguments Ok {A} a.
Arguments TypeError {A}.

Global Instance Res_ret : MRet Res := fun A a => Ok a.
Global Instance Res_bind : MBind Res := fun A B f m =>
  match m with
  | Ok a => f a
  | TypeError => TypeError
  end.

(** [v[k]], for any [v]. *)
Definition readProp (v : option JVal) (k : string) : Res (option JVal) :=
  match v with
  | None | Some JNull => TypeError
  | Some v => Ok (prop v k)
  end.

(** ** Style classifier *)

Definition W_P := "w:p"%string.
Definition W_R := "w:r"%string.
Definition W_T := "w:t"%string.
Definition W_RPR := "w:rPr"%string.
Definition W_COLOR := "w:color"%string.
Definition W_B := "w:b"%string.
Definition W_I := "w:i"%string.
Definition W_U := "w:u"%string.
Definition W_VAL := "w:val"%string.

(** Upper case of one code unit under the [i] flag, as far as the letters
    of the pattern below go: only [a]-[z] fold onto [A]-[Z]. *)
Definition upper (c : N) : N := if inRange 97 122 c then (c - 32)%N else c.

(** [/^(FF0000|C00000|E00000)$/i.test(s)] *)
Definition redPattern (s : jstring) : bool :=
  let s' := List.map upper s in
  bool_decide (s' = u "FF0000") || bool_decide (s' = u "C00000")
  || bool_decide (s' = u "E00000").

(** [color && /^(FF0000|C00000|E00000)$/i.test(color)], then [!!]. *)
Definition redish (color : option JVal) : bool :=
  match color with
  | Some c => truthy color && redPattern (toStr c)
  | None => false
  end.

(** [isBoldRed(rPr)], of the revision that tests bold and red. *)
Definition isBoldRed (rPr : option JVal) : Res bool :=
  if negb (truthy rPr) then Ok false
  else
    b ← readProp rPr W_B;
    let hasBold := truthy b in
    c ← readProp rPr W_COLOR;
    let color := optProp c W_VAL in
    Ok (hasBold && redish color).

(** [isRed(rPr)], which stands in its place in the other revision. *)
Definition isRed (rPr : option JVal) : Res bool :=
  if negb (truthy rPr) then Ok false
  else
    c ← readProp rPr W_COLOR;
    let color := optProp c W_VAL in
    Ok (redish color).

(** ** Overlays

    [overlayExact] and [overlayBrown] write into the object they are given
    and return it; they make a new object only when given none.  The store
    maps object references to objects. *)

Abbreviation ref := nat (only parsing).
Abbreviation Store := (gmap nat Obj) (only parsing).

(** [{}]: a reference that the store does not hold yet. *)
Definition alloc (h : Store) : Store * ref :=
  let l := fresh (dom h) in (<[l := []]> h, l).

(** [out[k] = v] *)
Definition write (h : Store) (out : ref) (k : string) (v : JVal) : Store :=
  alter (fun o => setField o k v) out h.

(** [const out = rPr || {}] *)
Definition orEmpty (h : Store) (rPr : option ref) : Store * ref :=
  match rPr with
  | Some l => (h, l)
  | None => alloc h
  end.

Definition single : JVal := JObj [(W_VAL, JStr (u "single"))].
Definition red : JVal := JObj [(W_VAL, JStr (u "FF0000"))].
Definition brown : JVal := JObj [(W_VAL, JStr (u "7B3F00"))].

Definition overlayExact (h : Store) (rPr : option ref) (wasBoldRed : bool)
  : Store * ref :=
  let '(h0, out) := orEmpty h rPr in
  let h1 := write h0 out W_I (JObj []) in
  let h2 := write h1 out W_U single in
  let h3 := write h2 out W_COLOR red in
  (h3, out).

Definition overlayBrown (h : Store) (rPr : option ref) : Store * ref :=
  let '(h0, out) := orEmpty h rPr in
  let h1 := write h0 out W_U single in
  let h2 := write h1 out W_COLOR brown in
  (h2, out).

(** What the two overlays leave in the object they were given.  The splicer
    always hands them a fresh [clone], so there the object they return is
    this function of the clone's contents ([overlayExact_contents] and
    [overlayBrown_contents] below). *)
Definition exactKeys (o : Obj) : Obj :=
  setField (setField (setField o W_I (JObj [])) W_U single) W_COLOR red.

Definition brownKeys (o : Obj) : Obj :=
  setField (setField o W_U single) W_COLOR brown.

(** ** Document model

    A run is an object with an optional [w:rPr] (its properties), an
    optional [w:t] (its text node) and any other children ([w:tab],
    [w:br], drawings, ...), kept in [others] in key order.

    The text node is what the parser made of [w:t].  It is a string; or,
    for a [w:t] with attributes, an object whose [#text] is a string or
    is missing; or such an object whose [#text] is a number or a boolean,
    which is what the parser makes of a text of digits only and of the
    texts true and false ([TObjAtom], with the [String] of the value); or
    a value that is no string and has no [#text] ([TBare]: a number or a
    boolean for such a text in a [w:t] without attributes, an array for a
    run with more than one [w:t]). *)

Inductive TNode : Type :=
| TStr (s : jstring)
| TObj (text : option jstring) (attrs : Obj)
| TObjAtom (shown : jstring) (attrs : Obj)
| TBare.

Record Run : Type := mkRunNode {
  rPr : option Obj;
  t : option TNode;
  others : Obj
}.

(** The code takes as text the node itself when it is a string, else its
    [#text], else the empty string.  [textOf] gives the characters of that
    text, the [text[i]] for [i < text.length]: a number or a boolean has
    no [length], and so no characters. *)
Definition textOf (tNode : TNode) : jstring :=
  match tNode with
  | TStr s => s
  | TObj (Some s) _ => s
  | TObj None _ | TObjAtom _ _ | TBare => []
  end.

(** [String(text)]: what [full += text] appends. *)
Definition shownText (tNode : TNode) : jstring :=
  match tNode with
  | TObjAtom shown _ => shown
  | _ => textOf tNode
  end.

(** The text is a number or a boolean: it has no [slice]. *)
Definition isAtomText (tNode : TNode) : bool :=
  match tNode with
  | TObjAtom _ _ => true
  | _ => false
  end.

(** One entry of the position map, [{ p, r, o }]; [o] is [-1] for the
    space that stands for a tab or break, [-2] for a join space. *)
Record Pos : Type := mkPos {
  pos_p : nat;
  pos_r : nat;
  pos_o : Z
}.

Global Instance Pos_eq_dec : EqDecision Pos.
Proof. solve_decision. Defined.

(** The part of the value returned by [indexRuns] that the splicer and the
    orchestrator read: [plist], [map] and [full]. *)
Record Struct : Type := mkStruct {
  s_plist : list (list Run);
  s_map : list Pos;
  s_full : jstring
}.

(** ** Flattener: [indexRuns] *)

(** [Array.isArray(v) ? v.length : (v ? 1 : 0)] *)
Definition markerCount (v : option JVal) : nat :=
  match v with
  | Some (JArr items) => length items
  | _ => if truthy v then 1%nat else 0%nat
  end.

Definition wsCount (r : Run) : nat :=
  (markerCount (field (others r) "w:tab")
   + markerCount (field (others r) "w:br"))%nat.

(** The join test of the revision that joins selectively. *)
Definition shouldAddSpace (lastChar firstChar : N) : bool :=
  negb (isSpace lastChar) && negb (isSpace firstChar)
  && ((isAlnum lastChar && isAlnum firstChar)
      || (isAlnum lastChar && negb (isPunct firstChar))).

(** The other revision always joins. *)
Definition alwaysAddSpace (lastChar firstChar : N) : bool := true.

Section Flattener.
Variable join : N -> N -> bool.

(** Whether a join space goes between [full] and [text]: both are not
    empty, and the join test accepts the last character of the one and
    the first of the other. *)
Definition joins (full text : jstring) : bool :=
  if (0 <? len full) && (0 <? len text) then
    match last full, head text with
    | Some lastChar, Some firstChar => join lastChar firstChar
    | _, _ => false
    end
  else false.

(** The body of [runs.forEach((r, rIdx) => ...)], on the accumulated
    [map] and [full]. *)
Definition indexRun (pIdx rIdx : nat) (r : Run) (acc : list Pos * jstring)
  : list Pos * jstring :=
  let '(map, full) := acc in
  let map := map ++ replicate (wsCount r) (mkPos pIdx rIdx (-1)) in
  let full := full ++ replicate (wsCount r) 32%N in
  match t r with
  | None => (map, full)
  | Some tNode =>
      let text := textOf tNode in
      let joined := joins full text in
      let map := if joined then map ++ [mkPos pIdx rIdx (-2)] else map in
      let full := if joined then full ++ [32%N] else full in
      (map ++ List.map (fun i => mkPos pIdx rIdx (Z.of_nat i))
                       (seq 0 (length text)),
       full ++ shownText tNode)
  end.

Fixpoint indexRunsOf (pIdx rIdx : nat) (runs : list Run)
  (acc : list Pos * jstring) : list Pos * jstring :=
  match runs with
  | [] => acc
  | r :: runs' => indexRunsOf pIdx (S rIdx) runs' (indexRun pIdx rIdx r acc)
  end.

Fixpoint indexParagraphs (pIdx : nat) (paragraphs : list (list Run))
  (acc : list Pos * jstring) : list Pos * jstring :=
  match paragraphs with
  | [] => acc
  | runs :: paragraphs' =>
      indexParagraphs (S pIdx) paragraphs' (indexRunsOf pIdx 0 runs acc)
  end.

(** [indexRuns], from the paragraphs' run arrays on. *)
Definition indexRuns (paragraphs : list (list Run)) : Struct :=
  let '(map, full) := indexParagraphs 0 paragraphs ([], []) in
  mkStruct paragraphs map full.
End Flattener.

(** ** Splicer: [applyStyleToRange] *)

(** What differs between the two revisions: the classifier handed to the
    styler, the join test of the flattener, and whether the loops skip a
    position whose map entry, paragraph or run is missing ([guarded]) or
    read through it and throw. *)
Record Revision : Type := mkRevision {
  classify : option JVal -> Res bool;
  joinTest : N -> N -> bool;
  guarded : bool
}.

Definition revBoldRed : Revision := mkRevision isBoldRed shouldAddSpace false.
Definition revRed : Revision := mkRevision isRed alwaysAddSpace true.

(** How a call ends: it returns, it throws a [TypeError], or the model
    runs out of rounds.  Each carries the structure as mutated so far. *)
Inductive Outcome : Type :=
| Returned (s : Struct)
| Threw (s : Struct)
| OutOfFuel (s : Struct).

(** [copyNonTextChildren(origRun)]: every own key but [w:rPr] and [w:t],
    written into a new object one by one. *)
Definition copyNonTextChildren (origRun : Run) : Obj :=
  fold_left
    (fun keep kv =>
       if String.eqb (fst kv) W_RPR || String.eqb (fst kv) W_T then keep
       else setField keep (fst kv) (clone (snd kv)))
    (others origRun) [].

(** [Object.assign(target, extras)] on the other children of [target]. *)
Definition assignOthers (target : Run) (extras : Obj) : Run :=
  mkRunNode (rPr target) (t target)
    (fold_left (fun o kv => setField o (fst kv) (snd kv)) extras
               (others target)).

Definition preserve : Obj := [("xml:space"%string, JStr (u "preserve"))].

(** [mkRun(text, pr)]: the properties are set only when [pr] has keys. *)
Definition mkRun (text : jstring) (pr : option Obj) : Run :=
  mkRunNode
    (match pr with
     | Some o => if (0 <? length o)%nat then Some o else None
     | None => None
     end)
    (Some (TObj (Some text) preserve))
    [].

(** A string in a condition: true unless empty. *)
Definition nonEmpty (s : jstring) : bool := negb (bool_decide (s = [])).

(** The replacement runs for [rNode], whose text is [txt], when [take]
    characters from offset [o] are styled; a [TypeError] if the classifier
    throws. *)
Definition splitRun (classifier : option JVal -> Res bool)
  (styler : Obj -> bool -> Obj) (rNode : Run) (txt : jstring) (o take : Z)
  : Res (list Run) :=
  let beforeText := slice txt 0 o in
  let midText := slice txt o (o + take) in
  let afterText := sliceFrom txt (o + take) in
  let baseRPr := clone (default [] (rPr rNode)) in
  let runsNew := if nonEmpty beforeText
                 then [mkRun beforeText (Some baseRPr)] else [] in
  wasGroundTruth ← classifier (Some (JObj baseRPr));
  let styledRPr := styler (clone baseRPr) wasGroundTruth in
  let runsNew := runsNew ++ [mkRun midText (Some styledRPr)] in
  let runsNew := if nonEmpty afterText
                 then runsNew ++ [mkRun afterText (Some baseRPr)]
                 else runsNew in
  Ok match runsNew with
     | [] => []
     | first :: rest =>
         assignOthers first (copyNonTextChildren rNode) :: rest
     end.

(** [a.splice(k, 1, ...items)] *)
Definition spliceOne {A} (a : list A) (k : nat) (items : list A) : list A :=
  take k a ++ items ++ drop (S k) a.

(** [a.splice(k, 0, x)] *)
Definition insertAt {A} (k : nat) (x : A) (a : list A) : list A :=
  take k a ++ x :: drop k a.

(** The first global index whose entry belongs to paragraph [p]. *)
Fixpoint paraStart (map : list Pos) (p : nat) (gi : nat) : option nat :=
  match map with
  | [] => None
  | e :: map' =>
      if (pos_p e =? p)%nat then Some gi else paraStart map' p (S gi)
  end.

(** The two nested loops that re-enter the paragraph's characters: each
    entry is spliced in at the same index [k]. *)
Fixpoint rebuildRuns (p k rIdx : nat) (newRuns : list Run) (map : list Pos)
  : list Pos :=
  match newRuns with
  | [] => map
  | run :: newRuns' =>
      let map :=
        match t run with
        | None => map
        | Some rt =>
            fold_left
              (fun m off => insertAt k (mkPos p rIdx (Z.of_nat off)) m)
              (seq 0 (length (textOf rt))) map
        end in
      rebuildRuns p k (S rIdx) newRuns' map
  end.

(** The three steps after the splice: find the first global index of the
    paragraph, remove its old entries, rebuild its mapping.  A [null] start
    index counts as 0 in the sum. *)
Definition reindexParagraph (p : nat) (newRuns : list Run) (map : list Pos)
  : list Pos :=
  let paraStartIdx := paraStart map p 0 in
  let map := filter (fun e => pos_p e ≠ p) map in
  rebuildRuns p (default 0%nat paraStartIdx) 0 newRuns map.

Section Splicer.
Variable rev : Revision.
Variable styler : Obj -> bool -> Obj.
Variable end_ : Z.

(** The loop [for (let i = start; i < end;)], at most [fuel] rounds.  A
    text that is a number or a boolean has no [slice]: the round throws
    before it has written anything. *)
Fixpoint styleLoop (fuel : nat) (struct : Struct) (i : Z) : Outcome :=
  match fuel with
  | O => OutOfFuel struct
  | S fuel' =>
      if i <? end_ then
        let skip := styleLoop fuel' struct (i + 1) in
        let missing := if guarded rev then skip else Threw struct in
        match at_ (s_map struct) i with
        | None => missing
        | Some pos =>
            match s_plist struct !! pos_p pos with
            | None => missing
            | Some pRuns =>
                match pRuns !! pos_r pos with
                | None => missing
                | Some rNode =>
                    if (pos_o pos =? -1) || (pos_o pos =? -2) then skip
                    else
                      match t rNode with
                      | None => skip
                      | Some tNode =>
                          if isAtomText tNode then Threw struct else
                          let txt := textOf tNode in
                          let remainingInRun := len txt - pos_o pos in
                          let take := Z.min remainingInRun (end_ - i) in
                          match splitRun (classify rev) styler rNode txt
                                         (pos_o pos) take with
                          | TypeError => Threw struct
                          | Ok runsNew =>
                              let pRuns :=
                                spliceOne pRuns (pos_r pos) runsNew in
                              let plist :=
                                <[pos_p pos := pRuns]> (s_plist struct) in
                              let map :=
                                reindexParagraph (pos_p pos) pRuns
                                                 (s_map struct) in
                              styleLoop fuel'
                                (mkStruct plist map (s_full struct))
                                (i + take)
                          end
                      end
                end
            end
        end
      else Returned struct
  end.
End Splicer.

Definition applyStyleToRange (rev : Revision) (fuel : nat) (struct : Struct)
  (start end_ : Z) (styler : Obj -> bool -> Obj) : Outcome :=
  if (start <? 0) || (end_ <=? start) || (end_ >? len_ (s_map struct))
  then Returned struct
  else
    match at_ (s_map struct) start, at_ (s_map struct) (end_ - 1) with
    | Some _, Some _ => styleLoop rev styler end_ fuel struct start
    | _, _ => Returned struct
    end.

(** ** Orchestrator *)

(** [spanWasBoldRed(struct, start, end)]: [None] when it throws. *)
Fixpoint spanLoop (rev : Revision) (plist : list (list Run))
  (entries : list Pos) : option bool :=
  match entries with
  | [] => Some true
  | pos :: entries' =>
      match plist !! pos_p pos ≫= (fun pRuns => pRuns !! pos_r pos) with
      | None => if guarded rev then spanLoop rev plist entries' else None
      | Some rNode =>
          match classify rev (JObj <$> rPr rNode) with
          | TypeError => None
          | Ok wasGroundTruth =>
              if negb wasGroundTruth then Some false
              else spanLoop rev plist entries'
          end
      end
  end.

Definition spanWasBoldRed (rev : Revision) (struct : Struct) (start end_ : Z)
  : option bool :=
  if (start <? 0) || (end_ <=? start) || (end_ >? len_ (s_map struct))
  then Some false
  else spanLoop rev (s_plist struct)
         (take (Z.to_nat (end_ - start)) (drop (Z.to_nat start) (s_map struct))).

(** The styler that the orchestrator passes down: it ignores the
    classification it is handed and goes by [wasBR]. *)
Definition chooseOverlay (wasBR : bool) (rPr : Obj) (_ : bool) : Obj :=
  if wasBR then exactKeys rPr else brownKeys rPr.

(** The state of the detection loop: the structure, and how many errors
    the [catch] inside the range loop has logged. *)
Record Progress : Type := mkProgress {
  pr_struct : Struct;
  pr_warnings : nat
}.

Section Annotate.
Variable fuel : nat.
(** [full]: the text that the external extractor returned. *)
Variable full : jstring.
(** [xmlText]: [struct.full], read once before the loop. *)
Variable xmlText : jstring.

(** The body of the [try] for range [j]; [None] when the model of
    [applyStyleToRange] ran out of rounds. *)
Definition annotateRange (val : jstring) (st : Progress) (j : nat)
  : option Progress :=
  let xmlRanges := findAll xmlText val in
  match xmlRanges !! j with
  | None => Some st
  | Some (xmlS, xmlE) =>
      let struct := pr_struct st in
      match spanWasBoldRed revBoldRed struct (Z.of_nat xmlS) (Z.of_nat xmlE)
      with
      | None => Some (mkProgress struct (S (pr_warnings st)))
      | Some wasBR =>
          match applyStyleToRange revBoldRed fuel struct
                  (Z.of_nat xmlS) (Z.of_nat xmlE) (chooseOverlay wasBR) with
          | Returned s => Some (mkProgress s (pr_warnings st))
          | Threw s => Some (mkProgress s (S (pr_warnings st)))
          | OutOfFuel _ => None
          end
      end
  end.

Fixpoint annotateRanges (val : jstring) (st : Progress) (js : list nat)
  : option Progress :=
  match js with
  | [] => Some st
  | j :: js' => annotateRange val st j ≫= (fun st' => annotateRanges val st' js')
  end.

(** One round of [for (let i = 0; i < detections.length; i++)], for the
    detection whose value is the string [val]. *)
Definition annotateDetection (st : Progress) (val : jstring)
  : option Progress :=
  if negb (nonEmpty val) then Some st
  else
    let ranges := findAll full val in
    if bool_decide (ranges = []) then Some st
    else annotateRanges val st (seq 0 (length ranges)).

Fixpoint annotateDetections (st : Progress) (detections : list jstring)
  : option Progress :=
  match detections with
  | [] => Some st
  | val :: detections' =>
      annotateDetection st val ≫= (fun st' => annotateDetections st' detections')
  end.
End Annotate.

(** The detection loop of [annotateDocxWithDetections], from the parsed
    paragraphs and the extractor's text on. *)
Definition annotateDocxWithDetections (fuel : nat) (full : jstring)
  (paragraphs : list (list Run)) (detections : list jstring)
  : option Progress :=
  let struct := indexRuns shouldAddSpace paragraphs in
  annotateDetections fuel full (s_full struct) (mkProgress struct 0)
                     detections.

(** The other revision edits the XML text itself through
    [modifyXmlDirectly], which is taken as given here. *)
Section AnnotateXml.
Variable modifyXmlDirectly : jstring -> jstring -> jstring -> jstring.
Variable mammothText : jstring.

Definition annotateXmlDetection (docXml : jstring) (val : jstring)
  : jstring :=
  if negb (nonEmpty val) then docXml
  else
    let ranges := findAll mammothText val in
    if bool_decide (ranges = []) then docXml
    else
      fold_left
        (fun xml range =>
           let textToFind :=
             slice mammothText (Z.of_nat (fst range)) (Z.of_nat (snd range)) in
           modifyXmlDirectly xml textToFind val)
        ranges docXml.

Definition annotateXml (docXml : jstring) (detections : list jstring)
  : jstring :=
  fold_left annotateXmlDetection detections docXml.
End AnnotateXml.

(** ** Vocabulary of the statements *)

(** [value] occurs in [text] at index [j]. *)
Definition occursAt (text value : jstring) (j : nat) : Prop :=
  take (length value) (drop j text) = value.

(** [Scanned text value i hits]: [hits] is what a left-to-right scan from
    [i] reports when each hit is the first occurrence at or after the
    place where the scan stands, and the scan resumes at the end of the
    hit. *)
Inductive Scanned (text value : jstring) : nat -> list (nat * nat) -> Prop :=
| Scanned_done i :
    (forall j, (i <= j)%nat -> ~ occursAt text value j) ->
    Scanned text value i []
| Scanned_hit i j hits :
    (i <= j)%nat ->
    occursAt text value j ->
    (forall j', (i <= j' < j)%nat -> ~ occursAt text value j') ->
    Scanned text value (j + length value) hits ->
    Scanned text value i ((j, (j + length value)%nat) :: hits).

(** No two ranges of the list share a position: each ends before every
    later one starts. *)
Definition NonOverlapping (hits : list (nat * nat)) : Prop :=
  ForallOrdPairs (fun h1 h2 => (snd h1 <= fst h2)%nat) hits.

(** The boundary class: white space, or one of the listed marks. *)
Definition boundaryClass (c : N) : bool := isSpace c || isPunct c.

(** The text of a run, empty when the run has no text node, and its
    properties as a mapping, empty when the run has none. *)
Definition runText (r : Run) : jstring := from_option textOf [] (t r).
Definition props (r : Run) : Obj := default [] (rPr r).

(** [opt b x] is the list that holds [x] when [b] holds. *)
Definition opt {A} (b : bool) (x : A) : list A := if b then [x] else [].

(** The character at index [k] is absent, or is in the boundary class. *)
Definition absentOrBoundary (full : jstring) (k : Z) : bool :=
  match at_ full k with
  | None => true
  | Some c => boundaryClass c
  end.

(** The accepted red variants. *)
Definition redVariants : list jstring := [u "FF0000"; u "C00000"; u "E00000"].

(** [rPr[W.COLOR]?.[W.VAL]] *)
Definition colorValue (v : JVal) : option JVal :=
  optProp (prop v W_COLOR) W_VAL.

(** A colour value is accepted when it is truthy and its string form is one
    of the red variants up to the case of its letters. *)
Definition acceptsColor (c : JVal) : Prop :=
  truthy (Some c) = true /\ List.map upper (toStr c) ∈ redVariants.

Definition hasRedColor (v : JVal) : Prop :=
  exists c, colorValue v = Some c /\ acceptsColor c.



(** The document of the scenario: one paragraph, one bold red run. *)
Definition scenarioText : jstring := u "Dr. Andreas K" ++ [246%N] ++ u "nig".
Definition scenarioValue : jstring := u "Andreas K" ++ [246%N] ++ u "nig".
Definition boldRed : Obj := [(W_B, JBool true); (W_COLOR, red)].
Definition scenarioDoc : list (list Run) :=
  [[mkRunNode (Some boldRed) (Some (TStr scenarioText)) []]].

(** [Resolves plist pos c]: the map entry [pos] stands for the character
    [c] of the flattened text.  A synthetic entry stands for a space; a
    real entry names a run of [plist] that has a text node, and [c] is the
    character of that text at the entry's offset. *)
Definition Resolves (plist : list (list Run)) (pos : Pos) (c : N) : Prop :=
  ((pos_o pos = -1 \/ pos_o pos = -2) /\ c = 32%N)
  \/ (0 <= pos_o pos
      /\ exists pRuns rNode tNode,
           plist !! pos_p pos = Some pRuns
           /\ pRuns !! pos_r pos = Some rNode
           /\ t rNode = Some tNode
           /\ textOf tNode !! Z.to_nat (pos_o pos) = Some c).

(** The real entries of paragraph [p], run after run from index [rIdx] on
    and offset after offset, in the order of the flattened text. *)
Fixpoint realEntries (p rIdx : nat) (runs : list Run) : list Pos :=
  match runs with
  | [] => []
  | run :: runs' =>
      List.map (fun off => mkPos p rIdx (Z.of_nat off))
               (seq 0 (length (runText run)))
        ++ realEntries p (S rIdx) runs'
  end.

(** A run with text and nothing else, for the examples. *)
Definition plainRun (s : string) : Run := mkRunNode None (Some (TStr (u s))) [].

(** A run whose text of digits the parser read as a number: its [w:t] has
    the attribute that keeps spaces, and so is an object. *)
Definition numericRun (digits : string) : Run :=
  mkRunNode None (Some (TObjAtom (u digits) preserve)) [].

(** The text of the run, if any, is a string or has no characters at all:
    what is appended to the flattened text is what is indexed. *)
Definition hasStringText (r : Run) : bool :=
  match t r with
  | Some tNode => negb (isAtomText tNode)
  | None => true
  end.

Definition StringTexts (paragraphs : list (list Run)) : Prop :=
  Forall (Forall (fun r => hasStringText r = true)) paragraphs.

(** The properties that the parser builds for a run that is bold and red:
    an empty element, as the bold mark is written, becomes the empty
    string. *)
Definition parsedBoldRed : Obj := [(W_B, JStr []); (W_COLOR, red)].

(** What an outcome leaves in the structure. *)
Definition finalStruct (out : Outcome) : Struct :=
  match out with
  | Returned s | Threw s | OutOfFuel s => s
  end.

Definition returned (out : Outcome) : bool :=
  match out with
  | Returned _ => true
  | _ => false
  end.

(** The text of a paragraph: the texts of its runs, one after the other. *)
Definition paragraphText (runs : list Run) : list N :=
  concat (List.map runText runs).

(** An offset that [indexRuns] or the rebuild can have written: a
    character offset, or one of the two synthetic marks. *)
Definition KnownOffset (e : Pos) : Prop := -2 <= pos_o e.

(** [KeepsText s s']: [s'] has the paragraph texts and the flattened text
    of [s], and its map holds known offsets only. *)
Definition KeepsText (s s' : Struct) : Prop :=
  List.map paragraphText (s_plist s') = List.map paragraphText (s_plist s)
  /\ s_full s' = s_full s
  /\ Forall KnownOffset (s_map s').

(** The accumulated map stands for the accumulated text, entry by entry. *)
Definition MapResolves (plist : list (list Run)) (acc : list Pos * list N)
  : Prop :=
  Forall2 (Resolves plist) acc.1 acc.2.

(** * Further definitions: eval.js, the masker, the reviewed document *)

(** ** eval.js: normalizers and detectors *)

(** [/\d/] *)
Definition isDigit (c : N) : bool := inRange 48 57 c.

(** [normalizePhone(s)]: every character that is neither a digit nor a plus
    sign is removed. *)
Definition normalizePhone (s : list N) : list N :=
  List.filter (fun c => isDigit c || (c =? 43)%N) s.

(** [isEmail(s)]: the string holds an at sign. *)
Definition isEmail (s : list N) : bool := existsb (fun c => (c =? 64)%N) s.

(** The class of the phone pattern: a digit, a space, a parenthesis or a
    hyphen. *)
Definition isPhoneChar (c : N) : bool :=
  isDigit c || (c =? 32)%N || (c =? 40)%N || (c =? 41)%N || (c =? 45)%N.

(** [isPhone(s)]: an optional plus sign, then six or more characters of
    the class, and nothing else.  The plus sign is not in the class, so a
    leading one can only be the optional sign. *)
Definition isPhone (s : list N) : bool :=
  let rest := match s with
              | c :: rest => if (c =? 43)%N then rest else s
              | [] => s
              end in
  forallb isPhoneChar rest && (6 <=? length rest)%nat.

(** ** eval.js: [levenshtein]

    The table [dp] is an array of rows that grow as cells are written.  A
    cell holds a number; [None] stands for [undefined] and for the [NaN]
    that arithmetic on it gives. *)

Abbreviation num := (option nat) (only parsing).

(** [x + 1] *)
Definition succNum (x : num) : num := S <$> x.

(** [Math.min(x, y, z)]: [NaN] when an argument is. *)
Definition min3 (x y z : num) : num :=
  x ← x; y ← y; z ← z; Some (Nat.min x (Nat.min y z)).

(** [dp[i][j]]: [undefined] when the row has no such cell.  The rows read
    here always exist. *)
Definition cell (dp : list (list num)) (i j : nat) : num :=
  row ← dp !! i; mjoin (row !! j).

(** [row[j] = v]: a write past the end leaves holes before the new cell. *)
Definition setAt (row : list num) (j : nat) (v : num) : list num :=
  if (j <? length row)%nat then <[j := v]> row
  else row ++ replicate (j - length row) None ++ [v].

(** [dp[i][j] = v] *)
Definition setCell (dp : list (list num)) (i j : nat) (v : num)
  : list (list num) :=
  alter (fun row => setAt row j v) i dp.

(** One round of the inner loop. *)
Definition levStep (a b : list N) (i : nat) (dp : list (list num)) (j : nat)
  : list (list num) :=
  let cost := if bool_decide (a !! (i - 1)%nat = b !! (j - 1)%nat)
              then 0%nat else 1%nat in
  setCell dp i j
    (min3 (succNum (cell dp (i - 1) j))
          (succNum (cell dp i (j - 1)))
          ((fun x => x + cost)%nat <$> cell dp (i - 1) (j - 1))).

(** [levenshtein(a, b)]: the rows start with their first cell, the first
    row is filled, then the other rows cell by cell. *)
Definition levenshtein (a b : list N) : num :=
  let dp := List.map (fun i => [Some i]) (seq 0 (length a + 1)) in
  let dp := fold_left (fun dp j => setCell dp 0 j (Some j))
                      (seq 1 (length b)) dp in
  let dp := fold_left
              (fun dp i => fold_left (levStep a b i) (seq 1 (length b)) dp)
              (seq 1 (length a)) dp in
  cell dp (length a) (length b).

(** The recurrence that the table follows: [distance a b i j] is the edit
    distance between the first [i] characters of [a] and the first [j]
    characters of [b]. *)
Fixpoint distance (a b : list N) (i : nat) : nat -> nat :=
  match i with
  | O => fun j => j
  | S i' =>
      fix row (j : nat) : nat :=
        match j with
        | O => S i'
        | S j' =>
            Nat.min (distance a b i' j + 1)
              (Nat.min (row j' + 1)
                 (distance a b i' j'
                  + if bool_decide (a !! i' = b !! j') then 0 else 1))
        end
  end%nat.

(** ** Real entries of the map *)

(** An entry that stands for a character of a run's text. *)
Definition isReal (e : Pos) : bool := 0 <=? pos_o e.

(** The characters of [full] whose map entries are real. *)
Fixpoint realChars (map : list Pos) (full : list N) : list N :=
  match map, full with
  | e :: map', c :: full' =>
      if isReal e then c :: realChars map' full' else realChars map' full'
  | _, _ => []
  end.

(** The real entries of all paragraphs from index [pIdx] on, in the order
    of the text. *)
Fixpoint allRealEntries (pIdx : nat) (paragraphs : list (list Run))
  : list Pos :=
  match paragraphs with
  | [] => []
  | runs :: paragraphs' =>
      realEntries pIdx 0 runs ++ allRealEntries (S pIdx) paragraphs'
  end.

(** ** Well-indexed structures *)

(** An entry with a known offset that names a run of the structure; when
    the offset is a character offset, the run has a text node and the
    offset lies inside its text. *)
Definition InsideRun (plist : list (list Run)) (e : Pos) : Prop :=
  -2 <= pos_o e
  /\ exists pRuns rNode,
       plist !! pos_p e = Some pRuns /\ pRuns !! pos_r e = Some rNode
       /\ (0 <= pos_o e ->
           exists tNode, t rNode = Some tNode /\ pos_o e < len (textOf tNode)).

Definition WellIndexed (s : Struct) : Prop :=
  Forall (InsideRun (s_plist s)) (s_map s).

(** The call came to an end: it returned or it threw. *)
Definition ended (out : Outcome) : bool :=
  match out with
  | OutOfFuel _ => false
  | _ => true
  end.


(** ** The span test *)

(** The entries of the range [[start, end)]. *)
Definition rangeEntries (s : Struct) (start end_ : Z) : list Pos :=
  take (Z.to_nat (end_ - start)) (drop (Z.to_nat start) (s_map s)).

(** The run that an entry names, if the structure has it. *)
Definition runOf (plist : list (list Run)) (pos : Pos) : option Run :=
  plist !! pos_p pos ≫= (fun pRuns => pRuns !! pos_r pos).

(** The entry does not stop the span test: its run classifies as ground
    truth, or the run is missing and the revision skips such entries. *)
Definition passes (rev : Revision) (plist : list (list Run)) (pos : Pos)
  : Prop :=
  match runOf plist pos with
  | Some rNode => classify rev (JObj <$> rPr rNode) = Ok true
  | None => guarded rev = true
  end.

(** ** Edit distance *)

(** [Aligned a b n]: [a] is turned into [b] at cost [n], going through
    both strings from left to right: a character of [a] is deleted (1), a
    character of [b] is inserted (1), or a character of [a] is matched
    with one of [b] (0 when they are the same, else 1). *)
Inductive Aligned : list N -> list N -> nat -> Prop :=
| Aligned_nil : Aligned [] [] 0
| Aligned_delete a b n x : Aligned a b n -> Aligned (a ++ [x]) b (S n)
| Aligned_insert a b n y : Aligned a b n -> Aligned a (b ++ [y]) (S n)
| Aligned_match a b n x y :
    Aligned a b n ->
    Aligned (a ++ [x]) (b ++ [y])
            (n + if bool_decide (x = y) then 0 else 1).

(** The table while row [i] is being filled and holds [j] cells: the rows
    above are full, the rows below hold their first cell only. *)
Definition tableRow (a b : list N) (i width : nat) : list num :=
  List.map (fun j => Some (distance a b i j)) (seq 0 width).

Definition TableAt (a b : list N) (i j : nat) (dp : list (list num)) : Prop :=
  length dp = S (length a)
  /\ (forall i', (i' < i)%nat -> dp !! i' = Some (tableRow a b i' (S (length b))))
  /\ dp !! i = Some (tableRow a b i j)
  /\ (forall i', (i < i' <= length a)%nat -> dp !! i' = Some [Some i']).

(** ** eval.js: [evaluateDetections] *)

(** A hit: a range of the text, or the mark that a phone number was found
    in the digits of the text ([{ start: -1, end: -1, normalized: true }]). *)
Inductive Hit : Type :=
| Span (start end_ : nat)
| Normalized.

Inductive Status : Type :=
| exact
| partial.

(** Where a detection ends up: in [notFound], in [partials], or in
    [matched] with its good hits and a status. *)
Inductive Verdict : Type :=
| NotFound
| PartialOnly
| Matched (hits : list Hit) (status : Status).

Definition isNormalized (h : Hit) : bool :=
  match h with
  | Normalized => true
  | Span _ _ => false
  end.

Record Evaluation : Type := mkEvaluation {
  ev_matched : list (list N * list Hit * Status);
  ev_notFound : list (list N);
  ev_partials : list (list N)
}.

Section Evaluate.
(** [nfkc]: Unicode normalisation, taken as given. *)
Variable nfkc : list N -> list N.

(** The hits of the value [v] in [text]: for a phone-shaped value one
    normalised hit when its digits occur in the digits of the text, else
    the ranges of [findAllOccurrences]. *)
Definition hitsOf (text v : list N) : list Hit :=
  if isPhone v then
    let normDoc := normalizePhone text in
    let normVal := normalizePhone v in
    let idxes := findAllOccurrences normDoc normVal in
    if (0 <? length idxes)%nat then [Normalized] else []
  else
    List.map (fun se => Span (fst se) (snd se)) (findAllOccurrences text v).

(** The filter of the hits:
    [h.normalized || hasTokenBoundary(text, h.start, h.end) || isEmail(v)]. *)
Definition isGood (text v : list N) (h : Hit) : bool :=
  match h with
  | Normalized => true
  | Span s e => hasTokenBoundary text (Z.of_nat s) (Z.of_nat e) || isEmail v
  end.

(** One round of [for (const d of detections)], for the detection whose
    [String(d.value || empty)] is [raw]. *)
Definition evaluateOne (text raw : list N) : Verdict :=
  let v := nfkc raw in
  if negb (nonEmpty v) then NotFound
  else
    let hits := hitsOf text v in
    if negb (0 <? length hits)%nat then NotFound
    else
      let good := List.filter (isGood text v) hits in
      if negb (0 <? length good)%nat then PartialOnly
      else Matched good (if existsb isNormalized good then partial else exact).

Definition evaluateStep (text : list N) (acc : Evaluation) (raw : list N)
  : Evaluation :=
  match evaluateOne text raw with
  | NotFound =>
      mkEvaluation (ev_matched acc) (ev_notFound acc ++ [raw]) (ev_partials acc)
  | PartialOnly =>
      mkEvaluation (ev_matched acc) (ev_notFound acc) (ev_partials acc ++ [raw])
  | Matched hits status =>
      mkEvaluation (ev_matched acc ++ [(raw, hits, status)]) (ev_notFound acc)
                   (ev_partials acc)
  end.

(** The lists [matched], [notFound] and [partials] of the value that
    [evaluateDetections] returns. *)
Definition evaluateDetections (docText : list N) (detections : list (list N))
  : Evaluation :=
  let text := nfkc docText in
  fold_left (evaluateStep text) detections (mkEvaluation [] [] []).
End Evaluate.

(** [value] occurs somewhere in [text]. *)
Definition Occurs (text value : list N) : Prop :=
  exists j, occursAt text value j.

(** A range of the text with a boundary, or nothing, on either side. *)
Definition bounded (text : list N) (se : nat * nat) : bool :=
  absentOrBoundary text (Z.of_nat (fst se) - 1)
  && absentOrBoundary text (Z.of_nat (snd se)).

Definition isNotFound (v : Verdict) : bool :=
  match v with NotFound => true | _ => false end.

Definition isPartialOnly (v : Verdict) : bool :=
  match v with PartialOnly => true | _ => false end.

Definition isMatched (v : Verdict) : bool :=
  match v with Matched _ _ => true | _ => false end.

(** ** Runs in the map *)

(** From a real entry on, the map goes through the rest of the entry's run
    offset by offset, with nothing in between. *)
Definition RunsOn (plist : list (list Run)) (map : list Pos) : Prop :=
  forall i e pRuns rNode (k : nat),
    map !! i = Some e -> 0 <= pos_o e ->
    plist !! pos_p e = Some pRuns -> pRuns !! pos_r e = Some rNode ->
    (Z.to_nat (pos_o e) + k < length (runText rNode))%nat ->
    map !! (i + k)%nat
    = Some (mkPos (pos_p e) (pos_r e) (pos_o e + Z.of_nat k)).

(** ** text-masker.js: masking ranges of a text *)

(** [[...items].sort((a, b) => key(a) - key(b))]: the sort is stable, so
    its result is the list ordered by [key] in which items of equal key
    keep their order; insertion from the right builds it. *)
Fixpoint insertBy {A} (key : A -> nat) (x : A) (sorted : list A) : list A :=
  match sorted with
  | [] => [x]
  | y :: rest =>
      if (key x <=? key y)%nat then x :: y :: rest
      else y :: insertBy key x rest
  end.

Fixpoint sortBy {A} (key : A -> nat) (items : list A) : list A :=
  match items with
  | [] => []
  | x :: rest => insertBy key x (sortBy key rest)
  end.

(** One round of the loop of [mergeRanges]: [current] is joined to the
    last merged range when it starts at or before that range's end, else
    it is pushed.  ([merged] is never empty there.) *)
Definition mergeStep (merged : list (nat * nat)) (current : nat * nat)
  : list (nat * nat) :=
  match last merged with
  | None => merged
  | Some lastRange =>
      if (fst current <=? snd lastRange)%nat then
        removelast merged
          ++ [(fst lastRange, Nat.max (snd lastRange) (snd current))]
      else merged ++ [current]
  end.

(** [mergeRanges(ranges)], as a function of the ranges' values.  The
    source writes the new end into the range object itself, which also
    sits in the array it was given; what it returns is this function of
    the values as long as no object occurs twice in that array, as in the
    arrays that [maskPdf] and [maskDoc] build. *)
Definition mergeRanges (ranges : list (nat * nat)) : list (nat * nat) :=
  match sortBy fst ranges with
  | [] => []
  | first :: rest => fold_left mergeStep rest [first]
  end.

(** [text.substring(a, b)] for indices that are not negative: both are
    clamped to the length, and swapped when the first is the greater. *)
Definition substring (text : list N) (a b : nat) : list N :=
  let a' := Nat.min a (length text) in
  let b' := Nat.min b (length text) in
  take (Nat.max a' b' - Nat.min a' b') (drop (Nat.min a' b') text).

(** [s.replace(/[^\s]/g, 'X')], code unit by code unit. *)
Definition maskChar (c : N) : N := if isSpace c then c else 88%N.

Definition maskStep (text : list N) (acc : list N * nat) (range : nat * nat)
  : list N * nat :=
  let '(result, lastEnd) := acc in
  let result := result ++ substring text lastEnd (fst range) in
  let originalText := substring text (fst range) (snd range) in
  let masked := List.map maskChar originalText in
  (result ++ masked, snd range).

Definition maskTextRanges (text : list N) (ranges : list (nat * nat))
  : list N :=
  match ranges with
  | [] => text
  | _ =>
      let sortedRanges := sortBy fst ranges in
      let '(result, lastEnd) := fold_left (maskStep text) sortedRanges ([], 0%nat) in
      result ++ substring text lastEnd (length text)
  end.

(** ** The reviewed document: [partitionTextToRuns] *)

(** A range to style, [{ start, end, kind }]; [kind] is exact or not. *)
Record Marked : Type := mkMarked {
  m_start : nat;
  m_end : nat;
  m_kind : Status
}.

(** The styles of the runs built: none, red italic underlined for an
    exact range, brown underlined for any other. *)
Inductive RunStyle : Type :=
| plainStyle
| exactStyle
| brownStyle.

Definition styleOf (kind : Status) : RunStyle :=
  match kind with
  | exact => exactStyle
  | partial => brownStyle
  end.

Definition partitionStep (text : list N)
  (acc : list (list N * RunStyle) * nat) (r : Marked)
  : list (list N * RunStyle) * nat :=
  let '(runs, cursor) := acc in
  let runs :=
    if (cursor <? m_start r)%nat
    then runs ++ [(slice text (Z.of_nat cursor) (Z.of_nat (m_start r)), plainStyle)]
    else runs in
  (runs ++ [(slice text (Z.of_nat (m_start r)) (Z.of_nat (m_end r)),
             styleOf (m_kind r))],
   m_end r).

Definition partitionTextToRuns (text : list N) (ranges : list Marked)
  : list (list N * RunStyle) :=
  let sorted := sortBy m_start ranges in
  let '(runs, cursor) := fold_left (partitionStep text) sorted ([], 0%nat) in
  if (cursor <? length text)%nat
  then runs ++ [(sliceFrom text (Z.of_nat cursor), plainStyle)]
  else runs.

(** ** Vocabulary for ranges *)

(** Position [i] lies in one of the ranges. *)
Definition covered (ranges : list (nat * nat)) (i : nat) : bool :=
  existsb (fun r => (fst r <=? i)%nat && (i <? snd r)%nat) ranges.

(** The text with [maskChar] applied at the positions that [cover] names. *)
Definition maskWhere (cover : nat -> bool) (text : list N) : list N :=
  imap (fun i c => if cover i then maskChar c else c) text.

(** Ranges that follow one another between [lo] and [hi]: each starts at
    or after the end of the one before, none ends before it starts. *)
Fixpoint ChainFrom (lo : nat) (ranges : list (nat * nat)) (hi : nat) : Prop :=
  match ranges with
  | [] => (lo <= hi)%nat
  | r :: ranges' =>
      (lo <= fst r)%nat /\ (fst r <= snd r)%nat /\ ChainFrom (snd r) ranges' hi
  end.

(** The merge of a list that is ordered by start, read from the front. *)
Fixpoint mergeFrom (cur : nat * nat) (rest : list (nat * nat))
  : list (nat * nat) :=
  match rest with
  | [] => [cur]
  | x :: rest' =>
      if (fst x <=? snd cur)%nat
      then mergeFrom (fst cur, Nat.max (snd cur) (snd x)) rest'
      else cur :: mergeFrom x rest'
  end.

(** Ordered by key, each item against all later ones. *)
Fixpoint Ordered {A} (key : A -> nat) (l : list A) : Prop :=
  match l with
  | [] => True
  | x :: rest => Forall (fun y => (key x <= key y)%nat) rest /\ Ordered key rest
  end.

(** Apart, strictly: every range starts after the end of the one before. *)
Fixpoint Gapped (ranges : list (nat * nat)) : Prop :=
  match ranges with
  | [] => True
  | r :: rest =>
      match rest with
      | [] => True
      | r' :: _ => (snd r < fst r')%nat
      end /\ Gapped rest
  end.

(** A range of the text. *)
Definition InText (text : list N) (r : nat * nat) : Prop :=
  (fst r <= snd r <= length text)%nat.

(** The masking loop, read from the front of the ranges. *)
Fixpoint maskRest (text : list N) (lastEnd : nat) (ranges : list (nat * nat))
  : list N :=
  match ranges with
  | [] => substring text lastEnd (length text)
  | r :: rest =>
      substring text lastEnd (fst r)
        ++ List.map maskChar (substring text (fst r) (snd r))
        ++ maskRest text (snd r) rest
  end.

(** The partition loop, read from the front of the ranges. *)
Fixpoint partitionRest (text : list N) (cursor : nat) (ranges : list Marked)
  : list (list N * RunStyle) :=
  match ranges with
  | [] =>
      if (cursor <? length text)%nat
      then [(sliceFrom text (Z.of_nat cursor), plainStyle)] else []
  | r :: rest =>
      (if (cursor <? m_start r)%nat
       then [(slice text (Z.of_nat cursor) (Z.of_nat (m_start r)), plainStyle)]
       else [])
      ++ (slice text (Z.of_nat (m_start r)) (Z.of_nat (m_end r)),
          styleOf (m_kind r))
      :: partitionRest text (m_end r) rest
  end.

Definition spanOf (r : Marked) : nat * nat := (m_start r, m_end r).

Definition isStyled (run : list N * RunStyle) : bool :=
  match snd run with
  | plainStyle => false
  | _ => true
  end.

(** ** The image masker's edit distance

    The [levenshtein] of the token matcher fills a table of zeros: first
    column, first row, then the cells row by row with the same step as
    eval.js. *)
Definition levenshteinFilled (a b : list N) : num :=
  let m := length a in
  let n := length b in
  let dp := replicate (m + 1) (replicate (n + 1) (Some 0%nat)) in
  let dp := fold_left (fun dp i => setCell dp i 0 (Some i)) (seq 0 (m + 1)) dp in
  let dp := fold_left (fun dp j => setCell dp 0 j (Some j)) (seq 0 (n + 1)) dp in
  let dp := fold_left (fun dp i => fold_left (levStep a b i) (seq 1 n) dp)
                      (seq 1 m) dp in
  cell dp m n.

(** Where the filled table holds its final values while cell [(i, j)] is
    next: the first row and column, the rows above [i], and row [i]
    before [j]. *)
Definition known (i j i' j' : nat) : Prop :=
  (i' = 0 \/ j' = 0 \/ i' < i \/ (i' = i /\ j' < j))%nat.

(** The table holds the distances in the cells that [P] names. *)
Definition FilledAt (a b : list N) (P : nat -> nat -> Prop)
  (dp : list (list num)) : Prop :=
  length dp = S (length a)
  /\ forall i', (i' <= length a)%nat ->
       exists row, dp !! i' = Some row /\ length row = S (length b)
         /\ forall j', (j' <= length b)%nat -> P i' j' ->
              row !! j' = Some (Some (distance a b i' j')).

(** ** text-masker.js: the locator with variations *)

Fixpoint dropSpaces (s : list N) : list N :=
  match s with
  | [] => []
  | c :: s' => if isSpace c then dropSpaces s' else s
  end.

(** [s.trim()] *)
Definition trim (s : list N) : list N :=
  rev (dropSpaces (rev (dropSpaces s))).

(** [s.replace(/\s+/g, rep)]: every stretch of white space becomes [rep];
    [inRun] tells that the character before was white space. *)
Fixpoint collapseSpaces (rep : list N) (inRun : bool) (s : list N) : list N :=
  match s with
  | [] => []
  | c :: s' =>
      if isSpace c
      then (if inRun then [] else rep) ++ collapseSpaces rep true s'
      else c :: collapseSpaces rep false s'
  end.

Definition replaceSpaces (rep : list N) (s : list N) : list N :=
  collapseSpaces rep false s.

Definition variations (value : list N) : list (list N) :=
  [value; replaceSpaces [] value; replaceSpaces (u " ") value;
   replaceSpaces (u "  ") value].

(** [while ((index = text.indexOf(variation, index)) !== -1)], at most
    [fuel] rounds; [None] when the rounds do not suffice. *)
Fixpoint scanLoop (fuel : nat) (text variation : list N) (index : nat)
  : option (list (nat * nat)) :=
  match fuel with
  | O => None
  | S fuel' =>
      match indexOf text variation index with
      | None => Some []
      | Some j =>
          hits ← scanLoop fuel' text variation (j + length variation)%nat;
          Some ((j, (j + length variation)%nat) :: hits)
      end
  end.

Fixpoint scanVariations (fuel : nat) (text : list N)
  (vars : list (list N)) : option (list (nat * nat)) :=
  match vars with
  | [] => Some []
  | variation :: vars' =>
      hits ← scanLoop fuel text variation 0;
      more ← scanVariations fuel text vars';
      Some (hits ++ more)
  end.

(** [self.findIndex(t => t.start === item.start && t.end === item.end)] *)
Definition findIndex (self : list (nat * nat)) (item : nat * nat)
  : option nat :=
  fst <$> list_find (fun t => t = item) self.

(** The filter that keeps an item where it stands first among its equals. *)
Definition uniqueResults (results : list (nat * nat)) : list (nat * nat) :=
  List.map snd
    (List.filter
       (fun ix => bool_decide (findIndex results (snd ix) = Some (fst ix)))
       (imap (fun index item => (index, item)) results)).

(** The masker's [findAllOccurrences(text, value)]. *)
Definition findVariations (fuel : nat) (text value : list N)
  : option (list (nat * nat)) :=
  if negb (nonEmpty value) || negb (nonEmpty text) then Some []
  else
    results ← scanVariations fuel text (variations value);
    Some (sortBy fst (uniqueResults results)).

(** The loop over the detections in [maskPdf] and [maskDoc], for the
    detections whose [String(det.value || empty)] are [raws]. *)
Fixpoint collectRanges (fuel : nat) (text : list N) (raws : list (list N))
  : option (list (nat * nat)) :=
  match raws with
  | [] => Some []
  | raw :: raws' =>
      let val := trim raw in
      if negb (nonEmpty val) then collectRanges fuel text raws'
      else
        ranges ← findVariations fuel text val;
        more ← collectRanges fuel text raws';
        Some (ranges ++ more)
  end.

(** The masked text that [maskPdf] and [maskDoc] compute. *)
Definition maskedTextOf (fuel : nat) (text : list N) (raws : list (list N))
  : option (list N) :=
  allRanges ← collectRanges fuel text raws;
  Some (maskTextRanges text (mergeRanges allRanges)).

(** * Proofs *)

Set Warnings "-clear-no-such-hyp".

Lemma startsWith_spec text value :
  startsWith text value = true <-> take (length value) text = value.
Proof.
  revert text. induction value as [|v value IH]; intros [|c text]; simpl; try done.
  rewrite andb_true_iff, N.eqb_eq, IH. split.
  - intros [-> ->]. done.
  - intros [= -> ->]. done.
Qed.

Lemma occursAt_0 text value : occursAt text value 0 <-> startsWith text value = true.
Proof. unfold occursAt. rewrite drop_0. symmetry. apply startsWith_spec. Qed.

Lemma occursAt_S c text value j : occursAt (c :: text) value (S j) <-> occursAt text value j.
Proof. done. Qed.

Lemma occursAt_nil value j : occursAt [] value j <-> value = [].
Proof.
  unfold occursAt. rewrite drop_nil, take_nil. split; intros H; by subst.
Qed.

Lemma search_unfold rest value k :
  search rest value k =
  if startsWith rest value then Some k
  else match rest with [] => None | _ :: rest' => search rest' value (S k) end.
Proof. by destruct rest. Qed.

Lemma search_Some rest value k j :
  search rest value k = Some j <->
  (k <= j)%nat /\ occursAt rest value (j - k) /\
  forall j', (k <= j' < j)%nat -> ~ occursAt rest value (j' - k).
Proof.
  revert k. induction rest as [|c rest IH]; intros k; rewrite search_unfold;
    destruct (startsWith _ value) eqn:E.
  - apply occursAt_0 in E. split.
    + intros [= ->]. rewrite Nat.sub_diag. split_and!; [lia|done|lia].
    + intros (Hk & Ho & Hn). f_equal.
      destruct (decide (j = k)) as [->|]; [done|].
      exfalso. apply (Hn k); [lia|]. by rewrite Nat.sub_diag.
  - split; [done|]. intros (Hk & Ho & Hn). exfalso.
    apply occursAt_nil in Ho. subst value. done.
  - apply occursAt_0 in E. split.
    + intros [= ->]. rewrite Nat.sub_diag. split_and!; [lia|done|lia].
    + intros (Hk & Ho & Hn). f_equal.
      destruct (decide (j = k)) as [->|]; [done|].
      exfalso. apply (Hn k); [lia|]. by rewrite Nat.sub_diag.
  - rewrite IH. clear IH.
    assert (Hne : ~ occursAt (c :: rest) value 0).
    { rewrite occursAt_0. congruence. }
    split.
    + intros (Hk & Ho & Hn). split_and!; [lia| |].
      * replace (j - k)%nat with (S (j - S k)) by lia. by apply occursAt_S.
      * intros j' Hj'. destruct (decide (j' = k)) as [->|].
        -- by rewrite Nat.sub_diag.
        -- replace (j' - k)%nat with (S (j' - S k)) by lia.
           rewrite occursAt_S. apply Hn. lia.
    + intros (Hk & Ho & Hn).
      assert (j <> k). { intros ->. by rewrite Nat.sub_diag in Ho. }
      split_and!; [lia| |].
      * replace (j - k)%nat with (S (j - S k)) in Ho by lia. by apply occursAt_S in Ho.
      * intros j' Hj'. specialize (Hn j').
        replace (j' - k)%nat with (S (j' - S k)) in Hn by lia.
        rewrite occursAt_S in Hn. apply Hn. lia.
Qed.

Lemma search_None rest value k :
  search rest value k = None <-> forall j, ~ occursAt rest value j.
Proof.
  revert k. induction rest as [|c rest IH]; intros k; rewrite search_unfold;
    destruct (startsWith _ value) eqn:E.
  - apply occursAt_0 in E. split; [done|]. intros H. by destruct (H 0%nat).
  - split; [|done]. intros _ j Ho. apply occursAt_nil in Ho. by subst.
  - apply occursAt_0 in E. split; [done|]. intros H. by destruct (H 0%nat).
  - rewrite IH. split.
    + intros H [|j]; [rewrite occursAt_0; congruence|]. rewrite occursAt_S. apply H.
    + intros H j. rewrite <- (occursAt_S c). apply H.
Qed.

Lemma occursAt_drop text value i j :
  occursAt (drop i text) value j <-> occursAt text value (i + j).
Proof. unfold occursAt. by rewrite drop_drop. Qed.

Lemma length_pos (value : list N) : value <> [] -> (0 < length value)%nat.
Proof. destruct value; simpl; [done|lia]. Qed.

Lemma occursAt_lt text value j :
  value <> [] -> occursAt text value j -> (j + length value <= length text)%nat.
Proof.
  unfold occursAt. intros Hne H.
  apply (f_equal length) in H. rewrite length_take, length_drop in H.
  pose proof (length_pos value Hne). lia.
Qed.

Lemma indexOf_Some text value i j :
  (i <= length text)%nat ->
  indexOf text value i = Some j <->
  (i <= j)%nat /\ occursAt text value j /\
  forall j', (i <= j' < j)%nat -> ~ occursAt text value j'.
Proof.
  intros Hi. unfold indexOf. rewrite Nat.min_l by done.
  rewrite search_Some. split; intros (Hk & Ho & Hn); split_and!; try done.
  - apply occursAt_drop in Ho. by replace (i + (j - i))%nat with j in Ho by lia.
  - intros j' Hj' Ho'. apply (Hn j' Hj'). apply occursAt_drop.
    by replace (i + (j' - i))%nat with j' by lia.
  - apply occursAt_drop. by replace (i + (j - i))%nat with j by lia.
  - intros j' Hj' Ho'. apply (Hn j' Hj'). apply occursAt_drop in Ho'.
    by replace (i + (j' - i))%nat with j' in Ho' by lia.
Qed.

Lemma indexOf_None text value i :
  (i <= length text)%nat ->
  indexOf text value i = None <-> forall j, (i <= j)%nat -> ~ occursAt text value j.
Proof.
  intros Hi. unfold indexOf. rewrite Nat.min_l by done.
  rewrite search_None. split.
  - intros H j Hj Ho. apply (H (j - i)%nat). apply occursAt_drop.
    by replace (i + (j - i))%nat with j by lia.
  - intros H j Ho. apply occursAt_drop in Ho. apply (H (i + j)%nat); [lia|done].
Qed.

Lemma Scanned_NonOverlapping text value i hits :
  Scanned text value i hits ->
  NonOverlapping hits /\ Forall (fun h => (i <= fst h)%nat) hits.
Proof.
  induction 1 as [i H|i j hits Hij Ho Hn Hs [IH1 IH2]].
  - split; constructor.
  - split.
    + constructor; [|done].
      eapply Forall_impl; [exact IH2|]. simpl. intros h. lia.
    + constructor; [simpl; lia|].
      eapply Forall_impl; [exact IH2|]. simpl. intros h. lia.
Qed.

Lemma Scanned_unique text value i hits1 hits2 :
  Scanned text value i hits1 -> Scanned text value i hits2 -> hits1 = hits2.
Proof.
  intros H1. revert hits2.
  induction H1 as [i H|i j hits Hij Ho Hn Hs IH]; intros hits2 H2.
  - destruct H2 as [|i j hits2 Hij Ho _ _]; [done|]. by destruct (H j).
  - destruct H2 as [i H|i j2 hits2 Hij2 Ho2 Hn2 Hs2]; [by destruct (H j)|].
    assert (j = j2) as <-.
    { destruct (Nat.lt_trichotomy j j2) as [Hlt|[->|Hlt]]; [|done|].
      - destruct (Hn2 j); [lia|done].
      - destruct (Hn j2); [lia|done]. }
    f_equal. by apply IH.
Qed.

Lemma findAll_loop_Scanned fuel text value i :
  value <> [] -> (length text - i <= fuel)%nat ->
  Scanned text value i (findAll_loop fuel text value i).
Proof.
  intros Hne. revert i. induction fuel as [|fuel IH]; intros i Hfuel; simpl.
  - constructor. intros j Hj Ho. apply occursAt_lt in Ho; [|done].
    pose proof (length_pos value Hne). lia.
  - destruct (Nat.ltb_spec i (length text)) as [Hi|Hi].
    + destruct (indexOf text value i) as [j|] eqn:E.
      * apply (proj1 (indexOf_Some text value i j ltac:(lia))) in E
          as (Hij & Ho & Hn).
        constructor; try done. apply IH.
        pose proof (length_pos value Hne). lia.
      * constructor. apply (proj1 (indexOf_None text value i ltac:(lia))), E.
    + constructor. intros j Hj Ho. apply occursAt_lt in Ho; [|done].
      pose proof (length_pos value Hne). lia.
Qed.

(** More rounds than [text.length - i] change nothing: the loop has ended. *)
Lemma findAll_fuel_enough fuel text value i :
  value <> [] -> (length text - i <= fuel)%nat ->
  findAll_loop fuel text value i = findAll_loop (length text - i) text value i.
Proof.
  intros Hne Hfuel. eapply Scanned_unique; by apply findAll_loop_Scanned.
Qed.

Lemma findAll_Scanned text value :
  value <> [] -> Scanned text value 0 (findAll text value).
Proof.
  intros Hne. unfold findAll. destruct value; [done|].
  apply findAll_loop_Scanned; [done|lia].
Qed.

Lemma findAll_absent text value :
  (forall j, ~ occursAt text value j) -> findAll text value = [].
Proof.
  intros H. destruct value as [|v value]; [done|].
  eapply Scanned_unique; [by apply findAll_Scanned|].
  constructor. intros j _. apply H.
Qed.

(** C6. For every text and non-empty value, [findAll] (and eval.js's
    [findAllOccurrences], the same function) returns the left-to-right
    scan: every returned range is [[j, j + len value)] with the value
    occurring at [j], each is the first occurrence at or after the end of
    the one before it, nothing occurs after the last, and no two ranges
    overlap.  The list is the only one with these properties, and the
    loop's round bound is never what ends it. *)
Theorem findAll_scans_left_to_right (text value : jstring) :
  value <> [] ->
  Scanned text value 0 (findAll text value)
  /\ (forall hits, Scanned text value 0 hits -> hits = findAll text value)
  /\ NonOverlapping (findAll text value)
  /\ Forall (fun h => snd h = (fst h + length value)%nat
                      /\ occursAt text value (fst h)) (findAll text value)
  /\ (forall fuel, (length text <= fuel)%nat ->
        findAll_loop fuel text value 0 = findAll text value)
  /\ findAllOccurrences text value = findAll text value.
Proof.
  intros Hne. pose proof (findAll_Scanned text value Hne) as Hs.
  split_and!; try done.
  - intros hits Hh. eapply Scanned_unique; eauto.
  - by eapply Scanned_NonOverlapping.
  - clear Hne. induction Hs; constructor; auto.
  - intros fuel Hfuel. unfold findAll. destruct value; [done|].
    rewrite findAll_fuel_enough by (done || lia).
    by rewrite Nat.sub_0_r.
Qed.

Lemma findAll_scans_left_to_right_witness :
  findAll (u "aaaaa") (u "aa") = [(0, 2); (2, 4)]%nat
  /\ NonOverlapping (findAll (u "aaaaa") (u "aa")).
Proof.
  split; [reflexivity|].
  apply (findAll_scans_left_to_right (u "aaaaa") (u "aa")). discriminate.
Defined.

(** ** Token boundaries *)

Lemma isBoundaryStr_space : isBoundaryStr (u " ") = true.
Proof. reflexivity. Qed.

Lemma isBoundaryStr_char c : isBoundaryStr [c] = boundaryClass c.
Proof.
  unfold isBoundaryStr, boundaryClass. simpl.
  by rewrite !orb_false_r.
Qed.

Lemma isBoundaryStr_undefined : isBoundaryStr str_undefined = false.
Proof. reflexivity. Qed.

Lemma isBoundaryStr_charAt full k :
  isBoundaryStr (charAt full k) = true <->
  exists c, at_ full k = Some c /\ boundaryClass c = true.
Proof.
  unfold charAt. destruct (at_ full k) as [c|].
  - rewrite isBoundaryStr_char. naive_solver.
  - rewrite isBoundaryStr_undefined. naive_solver.
Qed.

Lemma hasTokenBoundary_exact full start end_ :
  hasTokenBoundary full start end_ = true <->
  (start <= 0 \/ exists c, at_ full (start - 1) = Some c /\ boundaryClass c = true)
  /\ (len full <= end_ \/ exists c, at_ full end_ = Some c /\ boundaryClass c = true).
Proof.
  unfold hasTokenBoundary. rewrite andb_true_iff.
  destruct (Z.leb_spec start 0) as [Hs|Hs];
    destruct (Z.geb_spec end_ (len full)) as [He|He];
    rewrite ?isBoundaryStr_space, ?isBoundaryStr_charAt; naive_solver lia.
Qed.

Lemma at_None {A} (l : list A) k : at_ l k = None <-> k < 0 \/ len_ l <= k.
Proof.
  unfold at_, len_. destruct (Z.ltb_spec k 0); [naive_solver lia|].
  rewrite lookup_ge_None. lia.
Qed.

Lemma at_Some {A} (l : list A) k x :
  at_ l k = Some x <-> 0 <= k /\ l !! Z.to_nat k = Some x.
Proof. unfold at_. destruct (Z.ltb_spec k 0); naive_solver lia. Qed.

Lemma boundary_left full start :
  start <= len full ->
  isBoundaryStr (if start <=? 0 then u " " else charAt full (start - 1))
  = absentOrBoundary full (start - 1).
Proof.
  intros Hs. unfold absentOrBoundary, charAt.
  destruct (Z.leb_spec start 0) as [H0|H0].
  - by rewrite (proj2 (at_None full (start - 1))) by lia.
  - destruct (at_ full (start - 1)) as [c|] eqn:E.
    + apply isBoundaryStr_char.
    + apply at_None in E. unfold len_, len in *. lia.
Qed.

Lemma boundary_right full end_ :
  0 <= end_ ->
  isBoundaryStr (if end_ >=? len full then u " " else charAt full end_)
  = absentOrBoundary full end_.
Proof.
  intros He. unfold absentOrBoundary, charAt.
  destruct (Z.geb_spec end_ (len full)) as [H0|H0].
  - by rewrite (proj2 (at_None full end_)) by (unfold len_, len in *; lia).
  - destruct (at_ full end_) as [c|] eqn:E.
    + apply isBoundaryStr_char.
    + apply at_None in E. unfold len_, len in *. lia.
Qed.

(** C7 (amended). [hasTokenBoundary] holds exactly when the left side is
    fine, [start <= 0] or the character before [start] exists and is in the
    boundary class, and the right side is fine, [end >= len text] or the
    character at [end] exists and is in the class.  So for [start] up to
    the length of the text and [end] not negative it is the test, absent
    or in the class, on both sides; an index past the far edge
    ([start] beyond the length, [end] negative) makes it false.  The
    interior match of art in startup is rejected. *)
Theorem hasTokenBoundary_edges (full : jstring) (start end_ : Z) :
  (hasTokenBoundary full start end_ = true <->
   (start <= 0 \/ exists c, at_ full (start - 1) = Some c /\ boundaryClass c = true)
   /\ (len full <= end_ \/ exists c, at_ full end_ = Some c /\ boundaryClass c = true))
  /\ (start <= len full -> 0 <= end_ ->
      hasTokenBoundary full start end_
      = absentOrBoundary full (start - 1) && absentOrBoundary full end_)
  /\ (len full < start \/ end_ < 0 -> hasTokenBoundary full start end_ = false)
  /\ findAll (u "startup") (u "art") = [(2, 5)]%nat
  /\ hasTokenBoundary (u "startup") 2 5 = false.
Proof.
  split_and!; [apply hasTokenBoundary_exact| | |reflexivity|reflexivity].
  - intros Hs He. unfold hasTokenBoundary.
    by rewrite boundary_left, boundary_right.
  - intros Hout. apply not_true_is_false. rewrite hasTokenBoundary_exact.
    intros [[Hl|(c & Hc & _)] [Hr|(d & Hd & _)]];
      try apply at_Some in Hc as [? Hc%lookup_lt_Some];
      try apply at_Some in Hd as [? Hd%lookup_lt_Some];
      unfold len in *; lia.
Qed.

Lemma hasTokenBoundary_edges_witness :
  hasTokenBoundary (u "an art, a") 3 6
  = absentOrBoundary (u "an art, a") (3 - 1) && absentOrBoundary (u "an art, a") 6.
Proof.
  apply (hasTokenBoundary_edges (u "an art, a") 3 6); vm_compute; discriminate.
Defined.

(** C7, as stated, fails past the far edge: in the two-character text ab
    the characters before index 5 and at index 6 are both absent, yet the
    function answers false. *)
Lemma hasTokenBoundary_far_edge :
  at_ (u "ab") (5 - 1) = None /\ at_ (u "ab") 6 = None
  /\ hasTokenBoundary (u "ab") 5 6
     <> absentOrBoundary (u "ab") (5 - 1) && absentOrBoundary (u "ab") 6.
Proof. split_and!; [reflexivity|reflexivity|discriminate]. Qed.

(** ** Classifier *)

Lemma truthy_false_prop v k : truthy (Some v) = false -> prop v k = None.
Proof. destruct v as [|b|s|items|o]; simpl; try done. Qed.

Lemma redPattern_spec s : redPattern s = true <-> List.map upper s ∈ redVariants.
Proof.
  unfold redPattern, redVariants.
  rewrite !orb_true_iff, !bool_decide_eq_true, !elem_of_cons, elem_of_nil.
  tauto.
Qed.

Lemma redish_spec color :
  redish color = true <->
  exists c, color = Some c /\ truthy (Some c) = true
            /\ List.map upper (toStr c) ∈ redVariants.
Proof.
  unfold redish. destruct color as [c|]; [|naive_solver].
  rewrite andb_true_iff, redPattern_spec. naive_solver.
Qed.

Lemma redVariants_nonempty s : List.map upper s ∈ redVariants -> s <> [].
Proof. intros H ->. vm_compute in H. set_solver. Qed.

Lemma acceptsColor_string s :
  acceptsColor (JStr s) <-> List.map upper s ∈ redVariants.
Proof.
  unfold acceptsColor. simpl. split; [naive_solver|].
  intros Hr. split; [|done].
  apply redVariants_nonempty in Hr. by rewrite bool_decide_eq_false_2.
Qed.

Lemma truthy_readProp v k :
  truthy (Some v) = true -> readProp (Some v) k = Ok (prop v k).
Proof. by destruct v. Qed.

Lemma isRed_spec v : isRed (Some v) = Ok true <-> hasRedColor v.
Proof.
  unfold isRed, hasRedColor, acceptsColor, colorValue.
  destruct (truthy (Some v)) eqn:Ht; cbn [negb].
  - rewrite (truthy_readProp v _ Ht). simpl.
    split; [intros [= H%redish_spec]|intros H%redish_spec; by rewrite H];
      naive_solver.
  - rewrite (truthy_false_prop v W_COLOR Ht). naive_solver.
Qed.

Lemma isBoldRed_spec v :
  isBoldRed (Some v) = Ok true <-> truthy (prop v W_B) = true /\ hasRedColor v.
Proof.
  unfold isBoldRed, hasRedColor, acceptsColor, colorValue.
  destruct (truthy (Some v)) eqn:Ht; cbn [negb].
  - rewrite !(truthy_readProp v _ Ht). simpl. split.
    + intros [= [Hb Hr%redish_spec]%andb_true_iff]. naive_solver.
    + intros [Hb Hr%redish_spec]. by rewrite Hb, Hr.
  - rewrite (truthy_false_prop v W_COLOR Ht), (truthy_false_prop v W_B Ht).
    naive_solver.
Qed.

Lemma classifiers_never_throw rPr :
  (exists b, isBoldRed rPr = Ok b) /\ (exists b, isRed rPr = Ok b).
Proof.
  unfold isBoldRed, isRed. destruct (truthy rPr) eqn:Ht; cbn [negb]; [|eauto].
  destruct rPr as [v|]; [|done].
  rewrite !(truthy_readProp v _ Ht). simpl. eauto.
Qed.

Lemma Ok_bool_false (r : Res bool) :
  (exists b, r = Ok b) -> r <> Ok true -> r = Ok false.
Proof. intros [[|] ->]; congruence. Qed.

(** What the two classifiers compute.  Neither throws, whatever it is
    given: it reads no property of [null] or [undefined].  Both answer
    false for absent (or otherwise falsy) properties and for properties
    without a colour.  [isBoldRed] answers true exactly when the bold
    value is truthy and the colour value is one of FF0000, C00000, E00000
    up to letter case; [isRed] answers true exactly when the colour value
    is, whatever the bold key holds. *)
Lemma classifiers_exact :
  (forall rPr, (exists b, isBoldRed rPr = Ok b) /\ (exists b, isRed rPr = Ok b))
  /\ (forall rPr, truthy rPr = false ->
        isBoldRed rPr = Ok false /\ isRed rPr = Ok false)
  /\ (isBoldRed None = Ok false /\ isBoldRed (Some JNull) = Ok false
      /\ isRed None = Ok false /\ isRed (Some JNull) = Ok false)
  /\ (forall v, truthy (prop v W_B) = false -> isBoldRed (Some v) = Ok false)
  /\ (forall v, prop v W_COLOR = None ->
        isBoldRed (Some v) = Ok false /\ isRed (Some v) = Ok false)
  /\ (forall v, isBoldRed (Some v) = Ok true <->
        truthy (prop v W_B) = true /\ hasRedColor v)
  /\ (forall v, isRed (Some v) = Ok true <-> hasRedColor v)
  /\ (forall s, acceptsColor (JStr s) <-> List.map upper s ∈ redVariants).
Proof.
  split_and!; try done.
  - apply classifiers_never_throw.
  - intros rPr Ht. unfold isBoldRed, isRed. by rewrite Ht.
  - intros v Hb. apply Ok_bool_false; [apply classifiers_never_throw|].
    rewrite isBoldRed_spec, Hb. naive_solver.
  - intros v Hc.
    split; (apply Ok_bool_false; [apply classifiers_never_throw|]);
      rewrite ?isBoldRed_spec, ?isRed_spec; unfold hasRedColor, colorValue;
      rewrite Hc; naive_solver.
  - apply isBoldRed_spec.
  - apply isRed_spec.
  - apply acceptsColor_string.
Qed.

(** [isRed] goes by the colour alone: properties with a red colour and no
    bold key are answered true. *)
Lemma isRed_without_bold :
  prop (JObj [(W_COLOR, red)]) W_B = None
  /\ isRed (Some (JObj [(W_COLOR, red)])) = Ok true
  /\ isBoldRed (Some (JObj [(W_COLOR, red)])) = Ok false
  /\ prop (JObj [(W_B, JStr []); (W_COLOR, red)]) W_B = Some (JStr [])
  /\ isBoldRed (Some (JObj [(W_B, JStr []); (W_COLOR, red)])) = Ok false.
Proof. split_and!; reflexivity. Qed.

(** C8 (the code at a failing input). A run that is bold and red has the
    bold mark as an empty element, which the parser turns into the empty
    string.  [isBoldRed] tests the truthiness of that value, not the
    presence of the key, and the empty string is falsy: with the bold key
    present and a red colour it answers false, and so for any properties
    whose bold value is the empty string.  In the scenario, with the
    properties as parsed, the span is judged not to be ground truth, and
    the detected name gets the brown overlay in place of the exact one.
    [isRed] accepts the same properties. *)
Theorem isBoldRed_misses_bold_element :
  prop (JObj parsedBoldRed) W_B = Some (JStr [])
  /\ hasRedColor (JObj parsedBoldRed)
  /\ isBoldRed (Some (JObj parsedBoldRed)) = Ok false
  /\ isRed (Some (JObj parsedBoldRed)) = Ok true
  /\ (forall o, field o W_B = Some (JStr []) ->
        isBoldRed (Some (JObj o)) = Ok false)
  /\ (let doc := [[mkRunNode (Some parsedBoldRed) (Some (TStr scenarioText)) []]] in
      let s := indexRuns shouldAddSpace doc in
      findAll (s_full s) scenarioValue = [(4, 17)]%nat
      /\ spanWasBoldRed revBoldRed s 4 17 = Some false
      /\ (fun progress =>
            List.map (List.map (fun r => (runText r, props r)))
                     (s_plist (pr_struct progress)))
         <$> annotateDocxWithDetections 18 scenarioText doc [scenarioValue]
         = Some [[(u "Dr. ", parsedBoldRed);
                  (scenarioValue, brownKeys parsedBoldRed)]]).
Proof.
  split_and!; try reflexivity.
  - apply isRed_spec. reflexivity.
  - intros o Hb. apply Ok_bool_false; [apply classifiers_never_throw|].
    rewrite isBoldRed_spec. simpl. rewrite Hb. simpl. naive_solver.
  - vm_compute. split_and!; reflexivity.
Qed.


(** ** Objects and overlays *)

Lemma field_setField_eq o k v : field (setField o k v) k = Some v.
Proof.
  induction o as [|[k' v'] o IH]; simpl.
  - by rewrite String.eqb_refl.
  - destruct (String.eqb k' k) eqn:E; simpl; rewrite E; [done|apply IH].
Qed.

Lemma field_setField_ne o k k' v :
  k <> k' -> field (setField o k v) k' = field o k'.
Proof.
  intros Hne. induction o as [|[k0 v0] o IH]; simpl.
  - by rewrite (proj2 (String.eqb_neq k k')).
  - destruct (String.eqb k0 k) eqn:E; simpl.
    + apply String.eqb_eq in E as ->.
      by rewrite (proj2 (String.eqb_neq k k')).
    + by rewrite IH.
Qed.

Lemma setField_same o k v : field o k = Some v -> setField o k v = o.
Proof.
  induction o as [|[k' v'] o IH]; simpl; [done|].
  destruct (String.eqb k' k) eqn:E.
  - by intros [= ->].
  - intros H. by rewrite IH.
Qed.

Lemma exactKeys_fields o :
  field (exactKeys o) W_I = Some (JObj [])
  /\ field (exactKeys o) W_U = Some single
  /\ field (exactKeys o) W_COLOR = Some red
  /\ forall k, k <> W_I -> k <> W_U -> k <> W_COLOR ->
       field (exactKeys o) k = field o k.
Proof.
  unfold exactKeys. split_and!.
  - rewrite !field_setField_ne by done. apply field_setField_eq.
  - rewrite field_setField_ne by done. apply field_setField_eq.
  - apply field_setField_eq.
  - intros k H1 H2 H3. by rewrite !field_setField_ne.
Qed.

Lemma brownKeys_fields o :
  field (brownKeys o) W_U = Some single
  /\ field (brownKeys o) W_COLOR = Some brown
  /\ forall k, k <> W_U -> k <> W_COLOR -> field (brownKeys o) k = field o k.
Proof.
  unfold brownKeys. split_and!.
  - rewrite field_setField_ne by done. apply field_setField_eq.
  - apply field_setField_eq.
  - intros k H1 H2. by rewrite !field_setField_ne.
Qed.

Lemma exactKeys_idem o : exactKeys (exactKeys o) = exactKeys o.
Proof.
  destruct (exactKeys_fields o) as (HI & HU & HC & _).
  unfold exactKeys at 1.
  rewrite (setField_same _ _ _ HI), (setField_same _ _ _ HU).
  by rewrite (setField_same _ _ _ HC).
Qed.

Lemma brownKeys_idem o : brownKeys (brownKeys o) = brownKeys o.
Proof.
  destruct (brownKeys_fields o) as (HU & HC & _).
  unfold brownKeys at 1.
  by rewrite (setField_same _ _ _ HU), (setField_same _ _ _ HC).
Qed.

Lemma overlayExact_contents (h : Store) l b :
  overlayExact h (Some l) b = (alter exactKeys l h, l).
Proof.
  unfold overlayExact, orEmpty, write. cbv beta iota zeta.
  by rewrite !alter_alter_eq.
Qed.

Lemma overlayBrown_contents (h : Store) l :
  overlayBrown h (Some l) = (alter brownKeys l h, l).
Proof.
  unfold overlayBrown, orEmpty, write. cbv beta iota zeta.
  by rewrite !alter_alter_eq.
Qed.

Lemma overlayExact_absent (h : Store) b :
  overlayExact h None b
  = (<[fresh (dom h) := exactKeys []]> h, fresh (dom h)).
Proof.
  unfold overlayExact, orEmpty, alloc, write. cbv beta iota zeta.
  by rewrite !alter_alter_eq, alter_insert_eq.
Qed.

Lemma overlayBrown_absent (h : Store) :
  overlayBrown h None = (<[fresh (dom h) := brownKeys []]> h, fresh (dom h)).
Proof.
  unfold overlayBrown, orEmpty, alloc, write. cbv beta iota zeta.
  by rewrite !alter_alter_eq, alter_insert_eq.
Qed.

(** C9 (amended). The overlays are not pure: given a properties object
    they write into that object and return it (the same reference), and
    they make a new object only when given none; every other object of the
    store is left alone.  In the object they force only their own keys,
    italic, underline and colour for [overlayExact], underline and colour
    for [overlayBrown], to fixed values, and every other key keeps its
    value.  Each is idempotent: a second application leaves the object, and
    the store, as the first did. *)
Theorem overlays_write_in_place :
  (forall (h : Store) l b, overlayExact h (Some l) b = (alter exactKeys l h, l))
  /\ (forall (h : Store) l, overlayBrown h (Some l) = (alter brownKeys l h, l))
  /\ (forall (h : Store) b,
        h !! fresh (dom h) = None
        /\ overlayExact h None b
           = (<[fresh (dom h) := exactKeys []]> h, fresh (dom h)))
  /\ (forall (h : Store),
        overlayBrown h None
        = (<[fresh (dom h) := brownKeys []]> h, fresh (dom h)))
  /\ (forall o,
        field (exactKeys o) W_I = Some (JObj [])
        /\ field (exactKeys o) W_U = Some single
        /\ field (exactKeys o) W_COLOR = Some red
        /\ forall k, k <> W_I -> k <> W_U -> k <> W_COLOR ->
             field (exactKeys o) k = field o k)
  /\ (forall o,
        field (brownKeys o) W_U = Some single
        /\ field (brownKeys o) W_COLOR = Some brown
        /\ forall k, k <> W_U -> k <> W_COLOR ->
             field (brownKeys o) k = field o k)
  /\ (forall o, exactKeys (exactKeys o) = exactKeys o)
  /\ (forall o, brownKeys (brownKeys o) = brownKeys o)
  /\ (forall (h : Store) l b b',
        overlayExact (overlayExact h (Some l) b).1 (Some l) b'
        = overlayExact h (Some l) b)
  /\ (forall (h : Store) l,
        overlayBrown (overlayBrown h (Some l)).1 (Some l)
        = overlayBrown h (Some l)).
Proof.
  split_and!.
  - apply overlayExact_contents.
  - apply overlayBrown_contents.
  - intros h b. split; [apply not_elem_of_dom, is_fresh|apply overlayExact_absent].
  - apply overlayBrown_absent.
  - apply exactKeys_fields.
  - apply brownKeys_fields.
  - apply exactKeys_idem.
  - apply brownKeys_idem.
  - intros h l b b'. rewrite !overlayExact_contents. simpl.
    rewrite alter_alter_eq. f_equal. apply alter_ext. intros o _.
    apply exactKeys_idem.
  - intros h l. rewrite !overlayBrown_contents. simpl.
    rewrite alter_alter_eq. f_equal. apply alter_ext. intros o _.
    apply brownKeys_idem.
Qed.

(** C9, as stated, fails: called on the object at reference 0, which
    holds only the bold key, [overlayExact] returns reference 0 itself, and
    the object at reference 0 now holds the three overlay keys as well. *)
Lemma overlayExact_mutates_input :
  let h : Store := {[ 0%nat := [(W_B, JBool true)] ]} in
  h !! 0%nat = Some [(W_B, JBool true)]
  /\ (overlayExact h (Some 0%nat) true).2 = 0%nat
  /\ (overlayExact h (Some 0%nat) true).1 !! 0%nat
     = Some [(W_B, JBool true); (W_I, JObj []); (W_U, single); (W_COLOR, red)]
  /\ (overlayBrown h (Some 0%nat)).2 = 0%nat
  /\ (overlayBrown h (Some 0%nat)).1 !! 0%nat
     = Some [(W_B, JBool true); (W_U, single); (W_COLOR, brown)].
Proof. split_and!; reflexivity. Qed.

(** ** The range guard *)

(** C10. For a range that breaks [0 <= start < end <= map.length],
    [applyStyleToRange] returns at once, in either revision and whatever
    the styler: the run arrays, every run's text and properties, and the
    position map are the ones it was given. *)
Theorem applyStyleToRange_rejects_bad_range
  (rev : Revision) (fuel : nat) (struct : Struct) (start end_ : Z)
  (styler : Obj -> bool -> Obj) :
  start < 0 \/ end_ <= start \/ len_ (s_map struct) < end_ ->
  applyStyleToRange rev fuel struct start end_ styler = Returned struct.
Proof.
  intros H. unfold applyStyleToRange.
  destruct (Z.ltb_spec start 0); [done|].
  destruct (Z.leb_spec end_ start); [done|].
  destruct (Z.gtb_spec end_ (len_ (s_map struct))); [done|]. lia.
Qed.

Lemma applyStyleToRange_rejects_bad_range_witness :
  let struct := indexRuns shouldAddSpace
                  [[mkRunNode None (Some (TStr (u "abc"))) []]] in
  applyStyleToRange revBoldRed 5 struct 2 4 (chooseOverlay false)
  = Returned struct.
Proof.
  apply (applyStyleToRange_rejects_bad_range revBoldRed 5 _ 2 4).
  right. right. vm_compute. reflexivity.
Defined.

(** ** Values that do not occur *)

Lemma annotateRanges_no_target fuel xmlText val st js :
  findAll xmlText val = [] ->
  annotateRanges fuel xmlText val st js = Some st.
Proof.
  intros H. induction js as [|j js IH]; simpl; [done|].
  unfold annotateRange. rewrite H. simpl. exact IH.
Qed.

Lemma annotateDetection_absent fuel full xmlText st val :
  (forall j, ~ occursAt full val j) \/ (forall j, ~ occursAt xmlText val j) ->
  annotateDetection fuel full xmlText st val = Some st.
Proof.
  intros H. unfold annotateDetection.
  destruct (negb (nonEmpty val)); [done|].
  destruct H as [H|H].
  - by rewrite (findAll_absent _ _ H).
  - case_bool_decide; [done|].
    by apply annotateRanges_no_target, findAll_absent.
Qed.

(** C5. A detection whose value does not occur in the flattened text (the
    extractor's text, or the text that [indexRuns] built) is a silent
    no-op: the round for it ends normally with the structure it started
    from and no error logged, so the loop goes on as if the detection were
    not in the list.  The revision that edits the XML text leaves that text
    as it was when the value is not in the extractor's text. *)
Theorem absent_value_is_noop
  (fuel : nat) (full xmlText : jstring) (st : Progress) (val : jstring) :
  (forall j, ~ occursAt full val j) \/ (forall j, ~ occursAt xmlText val j) ->
  annotateDetection fuel full xmlText st val = Some st
  /\ (forall detections,
        annotateDetections fuel full xmlText st (val :: detections)
        = annotateDetections fuel full xmlText st detections)
  /\ ((forall j, ~ occursAt full val j) ->
      forall modifyXmlDirectly docXml,
        annotateXmlDetection modifyXmlDirectly full docXml val = docXml).
Proof.
  intros H. pose proof (annotateDetection_absent fuel full xmlText st val H) as E.
  split_and!; [done| |].
  - intros detections. simpl. by rewrite E.
  - intros Hfull modify docXml. unfold annotateXmlDetection.
    destruct (negb (nonEmpty val)); [done|].
    by rewrite (findAll_absent _ _ Hfull).
Qed.

Lemma absent_value_is_noop_witness :
  let st := mkProgress (indexRuns shouldAddSpace scenarioDoc) 0 in
  annotateDetection 5 scenarioText scenarioText st (u "Zzyzx") = Some st.
Proof.
  apply (absent_value_is_noop 5 scenarioText scenarioText _ (u "Zzyzx")).
  left. apply (proj1 (search_None scenarioText (u "Zzyzx") 0)). reflexivity.
Defined.

(** ** Splitting one run *)







Lemma props_mkRun text o : props (mkRun text (Some o)) = o.
Proof. unfold props. simpl. by destruct o. Qed.

Lemma props_first text o oth :
  props (mkRunNode (rPr (mkRun text (Some o))) (t (mkRun text (Some o))) oth)
  = o.
Proof. unfold props. simpl. by destruct o. Qed.

Lemma slice_nat (s : jstring) (a b : Z) :
  0 <= a -> 0 <= b ->
  slice s a b
  = take (Z.to_nat (Z.min b (len s)) - Z.to_nat (Z.min a (len s)))
         (drop (Z.to_nat (Z.min a (len s))) s).
Proof.
  intros Ha Hb. unfold slice, sliceIndex.
  rewrite (proj2 (Z.ltb_ge a 0)), (proj2 (Z.ltb_ge b 0)) by done.
  f_equal. unfold len. lia.
Qed.

Lemma slices_recompose (txt : jstring) (o take_ : Z) :
  0 <= o -> 0 <= take_ ->
  slice txt 0 o ++ slice txt o (o + take_) ++ sliceFrom txt (o + take_) = txt.
Proof.
  intros Ho Ht. unfold sliceFrom.
  rewrite !slice_nat by (unfold len; lia).
  set (A := Z.to_nat (Z.min o (len txt))).
  set (B := Z.to_nat (Z.min (o + take_) (len txt))).
  assert (HAB : (A <= B)%nat) by (unfold A, B; lia).
  assert (HB : (B <= length txt)%nat) by (unfold B, len; lia).
  replace (Z.to_nat (Z.min 0 (len txt))) with 0%nat by (unfold len; lia).
  replace (Z.to_nat (Z.min (len txt) (len txt))) with (length txt)
    by (unfold len; lia).
  rewrite drop_0, Nat.sub_0_r.
  rewrite (take_ge (drop B txt)) by (rewrite length_drop; lia).
  rewrite app_assoc, take_take_drop.
  replace (A + (B - A))%nat with B by lia. apply take_drop.
Qed.

Lemma splitRun_Ok cl st rNode txt o take_ frags :
  splitRun cl st rNode txt o take_ = Ok frags <->
  exists b, cl (Some (JObj (props rNode))) = Ok b
    /\ frags
       = match opt (nonEmpty (slice txt 0 o))
                   (mkRun (slice txt 0 o) (Some (props rNode)))
               ++ [mkRun (slice txt o (o + take_))
                         (Some (st (props rNode) b))]
               ++ opt (nonEmpty (sliceFrom txt (o + take_)))
                      (mkRun (sliceFrom txt (o + take_)) (Some (props rNode)))
         with
         | [] => []
         | first :: rest =>
             assignOthers first (copyNonTextChildren rNode) :: rest
         end.
Proof.
  unfold splitRun, clone, opt. fold (props rNode).
  destruct (cl (Some (JObj (props rNode)))) as [b|]; simpl.
  - split.
    + intros [= <-]. exists b. split; [done|].
      by destruct (nonEmpty (slice txt 0 o)),
                  (nonEmpty (sliceFrom txt (o + take_))).
    + intros (b' & [= <-] & ->). f_equal.
      by destruct (nonEmpty (slice txt 0 o)),
                  (nonEmpty (sliceFrom txt (o + take_))).
  - split; [done|]. by intros (b & ? & _).
Qed.

Lemma splitRun_texts cl st rNode txt o take_ frags :
  splitRun cl st rNode txt o take_ = Ok frags ->
  List.map runText frags
  = opt (nonEmpty (slice txt 0 o)) (slice txt 0 o)
    ++ [slice txt o (o + take_)]
    ++ opt (nonEmpty (sliceFrom txt (o + take_))) (sliceFrom txt (o + take_)).
Proof.
  intros (b & _ & ->)%splitRun_Ok. unfold opt.
  destruct (nonEmpty (slice txt 0 o)), (nonEmpty (sliceFrom txt (o + take_)));
    reflexivity.
Qed.

Lemma concat_opt_nonEmpty (s : list N) : concat (opt (nonEmpty s) s) = s.
Proof.
  unfold opt, nonEmpty. case_bool_decide; simpl; [done|by rewrite app_nil_r].
Qed.



(** ** The splicer keeps the text of every paragraph *)

Lemma slices_past_end (txt : list N) (o take_ : Z) :
  len txt < o -> o + take_ = len txt ->
  slice txt 0 o ++ slice txt o (o + take_) ++ sliceFrom txt (o + take_) = txt.
Proof.
  intros Ho Ht. unfold sliceFrom. rewrite Ht.
  rewrite !slice_nat by (unfold len in *; lia).
  replace (Z.to_nat (Z.min 0 (len txt))) with 0%nat by (unfold len; lia).
  replace (Z.to_nat (Z.min o (len txt))) with (length txt) by (unfold len in *; lia).
  replace (Z.to_nat (Z.min (len txt) (len txt))) with (length txt)
    by (unfold len; lia).
  rewrite drop_0, Nat.sub_0_r, Nat.sub_diag, firstn_all, drop_all.
  simpl. by rewrite app_nil_r.
Qed.

Lemma splitRun_keeps_text cl st rNode txt o take_ frags :
  splitRun cl st rNode txt o take_ = Ok frags ->
  0 <= o -> 0 <= take_ \/ (len txt < o /\ o + take_ = len txt) ->
  paragraphText frags = txt.
Proof.
  intros Hs Ho Ht. unfold paragraphText. rewrite (splitRun_texts _ _ _ _ _ _ _ Hs).
  rewrite !concat_app, !concat_opt_nonEmpty. simpl. rewrite app_nil_r.
  destruct Ht as [Ht|[H1 H2]];
    [by apply slices_recompose|by apply slices_past_end].
Qed.

Lemma paragraphText_spliceOne (pRuns : list Run) k rNode frags :
  pRuns !! k = Some rNode -> paragraphText frags = runText rNode ->
  paragraphText (spliceOne pRuns k frags) = paragraphText pRuns.
Proof.
  intros Hk Hf. unfold paragraphText, spliceOne in *.
  rewrite <- (take_drop_middle pRuns k rNode Hk) at 3.
  rewrite !map_app, !concat_app. simpl. by rewrite Hf.
Qed.

Lemma insertAt_Forall {A} (P : A -> Prop) k x (l : list A) :
  P x -> Forall P l -> Forall P (insertAt k x l).
Proof.
  intros Hx Hl. unfold insertAt. apply Forall_app. split.
  - by apply Forall_take.
  - constructor; [done|by apply Forall_drop].
Qed.

Lemma rebuildRuns_Forall (P : Pos -> Prop) p k rIdx runs map :
  (forall r off, P (mkPos p r (Z.of_nat off))) ->
  Forall P map -> Forall P (rebuildRuns p k rIdx runs map).
Proof.
  intros HP. revert rIdx map.
  induction runs as [|run runs IH]; intros rIdx map Hmap; simpl; [done|].
  apply IH. destruct (t run) as [rt|]; [|done].
  generalize (seq 0 (length (textOf rt))). intros offs.
  revert map Hmap. induction offs as [|off offs IHo]; intros map Hmap; simpl;
    [done|].
  apply IHo. by apply insertAt_Forall.
Qed.

Lemma reindexParagraph_Forall (P : Pos -> Prop) p runs map :
  (forall r off, P (mkPos p r (Z.of_nat off))) ->
  Forall P map -> Forall P (reindexParagraph p runs map).
Proof.
  intros HP Hmap. unfold reindexParagraph.
  apply rebuildRuns_Forall; [done|].
  rewrite Forall_forall in *. intros e He. apply list_elem_of_filter in He as [_ He]. auto.
Qed.

Section KeepsTextFacts.
Variable rev : Revision.
Variable styler : Obj -> bool -> Obj.
Variable end_ : Z.

Lemma styleLoop_keeps_text fuel struct i :
  Forall KnownOffset (s_map struct) ->
  KeepsText struct (finalStruct (styleLoop rev styler end_ fuel struct i)).
Proof.
  revert struct i. induction fuel as [|fuel IH]; intros struct i Hmap; simpl;
    [done|].
  destruct (Z.ltb_spec i end_) as [Hi|Hi]; [|done].
  assert (Hskip := IH struct (i + 1) Hmap).
  assert (Hmissing :
    KeepsText struct
      (finalStruct (if guarded rev
                    then styleLoop rev styler end_ fuel struct (i + 1)
                    else Threw struct))).
  { by destruct (guarded rev). }
  destruct (at_ (s_map struct) i) as [pos|] eqn:Hpos; [|done].
  destruct (s_plist struct !! pos_p pos) as [pRuns|] eqn:Hp; [|done].
  destruct (pRuns !! pos_r pos) as [rNode|] eqn:Hr; [|done].
  destruct ((pos_o pos =? -1) || (pos_o pos =? -2)) eqn:Ho; [done|].
  destruct (t rNode) as [tNode|] eqn:Ht; [|done].
  destruct (isAtomText tNode); [done|].
  apply orb_false_iff in Ho as [Ho1%Z.eqb_neq Ho2%Z.eqb_neq].
  assert (Hge : 0 <= pos_o pos).
  { apply at_Some in Hpos as [_ Hpos].
    eapply Forall_lookup_1 in Hmap; [|done]. unfold KnownOffset in Hmap. lia. }
  destruct (splitRun _ _ _ _ _ _) as [runsNew|] eqn:Hsplit; [|done].
  match goal with |- context [styleLoop _ _ _ _ ?st ?j] =>
    destruct (IH st j) as (IH1 & IH2 & IH3) end.
  { simpl. apply reindexParagraph_Forall; [|done].
    intros r off. unfold KnownOffset. simpl. lia. }
  simpl in IH1, IH2. split_and!; [|done|done]. rewrite IH1.
  apply list_eq. intros q. rewrite !list_lookup_fmap.
  destruct (decide (q = pos_p pos)) as [->|Hne].
  - rewrite list_lookup_insert_eq by (by eapply lookup_lt_Some).
    rewrite Hp. simpl. f_equal.
    apply paragraphText_spliceOne with rNode; [done|].
    unfold runText. rewrite Ht. simpl.
    eapply splitRun_keeps_text; [done|done|]. lia.
  - by rewrite list_lookup_insert_ne.
Qed.
End KeepsTextFacts.

(** Whatever the range, the styler and the way the call ends,
    [applyStyleToRange] leaves every paragraph with the text it had: the
    texts of its runs, in order, still add up to the same string.  The map
    it leaves holds known offsets again, so this carries over to the next
    call. *)
Lemma applyStyleToRange_keeps_text rev fuel struct start end_ styler :
  Forall KnownOffset (s_map struct) ->
  KeepsText struct
    (finalStruct (applyStyleToRange rev fuel struct start end_ styler)).
Proof.
  intros Hmap. unfold applyStyleToRange.
  destruct ((start <? 0) || (end_ <=? start) || (end_ >? len_ (s_map struct)));
    [done|].
  destruct (at_ (s_map struct) start); [|done].
  destruct (at_ (s_map struct) (end_ - 1)); [|done].
  by apply styleLoop_keeps_text.
Qed.

(** ** The flattener's map *)

Section FlattenerFacts.
Variable join : N -> N -> bool.
Variable plist : list (list Run).

Lemma Resolves_real pIdx rIdx runs r tNode :
  plist !! pIdx = Some runs -> runs !! rIdx = Some r -> t r = Some tNode ->
  Forall2 (Resolves plist)
    (List.map (fun i => mkPos pIdx rIdx (Z.of_nat i))
              (seq 0 (length (textOf tNode))))
    (textOf tNode).
Proof.
  intros Hp Hr Ht. apply Forall2_same_length_lookup_2.
  - by rewrite length_map, length_seq.
  - intros i pos c Hpos Hc.
    change (List.map ?f ?l) with (f <$> l) in Hpos.
    rewrite list_lookup_fmap in Hpos.
    destruct (seq 0 (length (textOf tNode)) !! i) as [k|] eqn:Hk; [|done].
    apply lookup_seq in Hk as [-> _]. simpl in Hpos. injection Hpos as <-.
    right. simpl. split; [lia|]. exists runs, r, tNode.
    by rewrite Nat2Z.id.
Qed.

Lemma shownText_string r tNode :
  hasStringText r = true -> t r = Some tNode -> shownText tNode = textOf tNode.
Proof.
  unfold hasStringText. intros H Ht. rewrite Ht in H. by destruct tNode.
Qed.

Lemma indexRun_inv pIdx rIdx runs r acc :
  plist !! pIdx = Some runs -> runs !! rIdx = Some r ->
  hasStringText r = true ->
  MapResolves plist acc -> MapResolves plist (indexRun join pIdx rIdx r acc).
Proof.
  intros Hp Hr Hstr. destruct acc as [map full].
  unfold MapResolves, indexRun. simpl.
  intros Hinv.
  assert (Hws : Forall2 (Resolves plist)
                  (map ++ replicate (wsCount r) (mkPos pIdx rIdx (-1)))
                  (full ++ replicate (wsCount r) 32%N)).
  { apply Forall2_app; [done|]. apply Forall2_replicate. left. simpl. auto. }
  destruct (t r) as [tNode|] eqn:Ht; [|done]. simpl.
  rewrite (shownText_string r tNode Hstr Ht).
  apply Forall2_app; [|by eapply Resolves_real].
  destruct (joins join _ _); [|done].
  apply Forall2_app; [done|].
  apply Forall2_cons; split; [|constructor]. left. simpl. auto.
Qed.

Lemma indexRunsOf_inv pIdx runs rest rIdx acc :
  plist !! pIdx = Some runs -> drop rIdx runs = rest ->
  Forall (fun r => hasStringText r = true) rest ->
  MapResolves plist acc -> MapResolves plist (indexRunsOf join pIdx rIdx rest acc).
Proof.
  intros Hp. revert rIdx acc.
  induction rest as [|r rest IH]; intros rIdx acc Hdrop Hstr Hacc; simpl;
    [done|].
  apply Forall_cons in Hstr as [Hr1 Hstr].
  assert (Hr : runs !! rIdx = Some r).
  { rewrite <- (Nat.add_0_r rIdx), <- lookup_drop, Hdrop. done. }
  apply IH; [|done|].
  - replace (S rIdx) with (rIdx + 1)%nat by lia.
    by rewrite <- drop_drop, Hdrop.
  - by eapply indexRun_inv.
Qed.

Lemma indexParagraphs_inv rest pIdx acc :
  drop pIdx plist = rest -> StringTexts rest ->
  MapResolves plist acc -> MapResolves plist (indexParagraphs join pIdx rest acc).
Proof.
  revert pIdx acc.
  induction rest as [|runs rest IH]; intros pIdx acc Hdrop Hstr Hacc; simpl;
    [done|].
  apply Forall_cons in Hstr as [Hr1 Hstr].
  assert (Hp : plist !! pIdx = Some runs).
  { rewrite <- (Nat.add_0_r pIdx), <- lookup_drop, Hdrop. done. }
  apply IH; [|done|].
  - replace (S pIdx) with (pIdx + 1)%nat by lia.
    by rewrite <- drop_drop, Hdrop.
  - eapply indexRunsOf_inv; [done| |done|done]. apply drop_0.
Qed.

Lemma indexRun_KnownOffset pIdx rIdx r acc :
  Forall KnownOffset acc.1 ->
  Forall KnownOffset (indexRun join pIdx rIdx r acc).1.
Proof.
  destruct acc as [map full]. unfold indexRun. simpl. intros Hinv.
  assert (Hws : Forall KnownOffset
                  (map ++ replicate (wsCount r) (mkPos pIdx rIdx (-1)))).
  { apply Forall_app. split; [done|]. by apply Forall_replicate. }
  destruct (t r) as [tNode|]; [|done]. simpl.
  apply Forall_app. split.
  - destruct (joins join _ _); [|done].
    apply Forall_app. split; [done|]. by repeat constructor.
  - apply Forall_forall. intros e He.
    apply list_elem_of_In, in_map_iff in He as (i & <- & _).
    unfold KnownOffset. simpl. lia.
Qed.

Lemma indexRunsOf_KnownOffset pIdx rIdx runs acc :
  Forall KnownOffset acc.1 ->
  Forall KnownOffset (indexRunsOf join pIdx rIdx runs acc).1.
Proof.
  revert rIdx acc. induction runs as [|r runs IH]; intros rIdx acc Hacc; simpl;
    [done|].
  by apply IH, indexRun_KnownOffset.
Qed.

Lemma indexParagraphs_KnownOffset pIdx paragraphs acc :
  Forall KnownOffset acc.1 ->
  Forall KnownOffset (indexParagraphs join pIdx paragraphs acc).1.
Proof.
  revert pIdx acc. induction paragraphs as [|runs ps IH]; intros pIdx acc Hacc;
    simpl; [done|].
  by apply IH, indexRunsOf_KnownOffset.
Qed.
End FlattenerFacts.

(** When every text is a string, the entries of the map stand for the
    characters of the flattened text one by one. *)
Lemma indexRuns_Resolves join paragraphs :
  s_plist (indexRuns join paragraphs) = paragraphs
  /\ (StringTexts paragraphs ->
      Forall2 (Resolves paragraphs) (s_map (indexRuns join paragraphs))
              (s_full (indexRuns join paragraphs))).
Proof.
  unfold indexRuns.
  pose proof (fun H => indexParagraphs_inv join paragraphs paragraphs 0 ([], [])
                         (drop_0 _) H (Forall2_nil_2 _ _ _)) as H.
  destruct (indexParagraphs join 0 paragraphs ([], [])) as [map full].
  by split.
Qed.

Lemma indexRuns_KnownOffset join paragraphs :
  Forall KnownOffset (s_map (indexRuns join paragraphs)).
Proof.
  unfold indexRuns.
  pose proof (indexParagraphs_KnownOffset join 0 paragraphs ([], [])
                (Forall_nil_2 _)) as H.
  by destruct (indexParagraphs join 0 paragraphs ([], [])) as [map full].
Qed.

(** X4. On a structure that [indexRuns] built, whatever the revision,
    the range and the styler, and however the call ends, every paragraph
    keeps its text: the texts of its runs still add up to the same
    string. *)
Corollary applyStyleToRange_keeps_indexed_text
  rev join fuel paragraphs start end_ styler :
  List.map paragraphText
    (s_plist (finalStruct
       (applyStyleToRange rev fuel (indexRuns join paragraphs) start end_ styler)))
  = List.map paragraphText paragraphs.
Proof.
  destruct (applyStyleToRange_keeps_text rev fuel (indexRuns join paragraphs)
              start end_ styler (indexRuns_KnownOffset join paragraphs))
    as [H _].
  rewrite H. by destruct (indexRuns_Resolves join paragraphs) as [-> _].
Qed.

(** For a document in which every text is a string, and either join test,
    the map that [indexRuns] returns is as long as the flattened text, and
    its entries stand for the characters of that text one by one: a real
    entry names a run that exists in the structure and has a text node,
    its offset is inside that run's text, and the character there is the
    character of the flattened text; a synthetic entry (offset -1 or -2)
    stands for a space. *)
Lemma indexRuns_resolves_string_texts (join : N -> N -> bool)
  (paragraphs : list (list Run)) :
  StringTexts paragraphs ->
  let s := indexRuns join paragraphs in
  length (s_map s) = length (s_full s)
  /\ forall i pos, s_map s !! i = Some pos ->
       (0 <= pos_o pos ->
        exists pRuns rNode tNode,
          s_plist s !! pos_p pos = Some pRuns
          /\ pRuns !! pos_r pos = Some rNode
          /\ t rNode = Some tNode
          /\ pos_o pos < len (textOf tNode)
          /\ at_ (textOf tNode) (pos_o pos) = s_full s !! i)
       /\ (pos_o pos < 0 ->
           (pos_o pos = -1 \/ pos_o pos = -2) /\ s_full s !! i = Some 32%N).
Proof.
  intros Hstr s. destruct (indexRuns_Resolves join paragraphs) as [Hp HF].
  specialize (HF Hstr).
  subst s. split; [by eapply Forall2_length|].
  intros i pos Hpos.
  destruct (Forall2_lookup_l _ _ _ _ _ HF Hpos) as (c & Hc & Hres).
  rewrite Hp, Hc.
  destruct Hres as [[Ho ->]|(Ho & pRuns & rNode & tNode & H1 & H2 & H3 & H4)].
  - split; [lia|done].
  - split; [|lia]. intros _. exists pRuns, rNode, tNode. split_and!; try done.
    + apply lookup_lt_Some in H4. unfold len. lia.
    + by apply at_Some.
Qed.

(** C3 (the code at a failing input). A text of digits only, in a [w:t]
    that has attributes, reaches [indexRuns] as a number.  A number has no
    [length], so no entry is pushed for it and no join space is put before
    it; yet it is appended to the flattened text.  With the runs ab and
    12345 the map has two entries and the text seven characters, under
    either join test.  With the runs 12345 and hello the map is behind the
    text by five: the entry at index 1 stands for the h of the second run
    where the text has a 2, the range that [findAll] reports for hello
    ends past the map, so that [applyStyleToRange] returns at once and
    nothing is styled, and the range [[1, 3)] of the text, which reads 23,
    puts the overlay on he. *)
Theorem indexRuns_numeric_text_misaligns :
  (let s := indexRuns shouldAddSpace [[plainRun "ab"; numericRun "12345"]] in
   s_map s = [mkPos 0 0 0; mkPos 0 0 1]
   /\ s_full s = u "ab12345"
   /\ length (s_map s) = 2%nat /\ length (s_full s) = 7%nat)
  /\ (let s := indexRuns alwaysAddSpace [[plainRun "ab"; numericRun "12345"]] in
      length (s_map s) = 2%nat /\ length (s_full s) = 7%nat)
  /\ (let s := indexRuns shouldAddSpace [[numericRun "12345"; plainRun "hello"]] in
      s_map s = [mkPos 0 1 (-2); mkPos 0 1 0; mkPos 0 1 1; mkPos 0 1 2;
                 mkPos 0 1 3; mkPos 0 1 4]
      /\ s_full s = u "12345 hello"
      /\ s_map s !! 1%nat = Some (mkPos 0 1 0)
      /\ s_full s !! 1%nat = Some 50%N
      /\ findAll (s_full s) (u "hello") = [(6, 11)]%nat
      /\ applyStyleToRange revBoldRed 9 s 6 11 (chooseOverlay false)
         = Returned s
      /\ slice (s_full s) 1 3 = u "23"
      /\ List.map (List.map (fun r => (runText r, props r)))
           (s_plist (finalStruct
              (applyStyleToRange revBoldRed 9 s 1 3 (chooseOverlay false))))
         = [[([], []); (u "he", brownKeys []); (u "llo", [])]]).
Proof. vm_compute. split_and!; reflexivity. Qed.

(** ** The rebuilt map *)

(** Splicing a list of entries in one by one at the same index leaves them
    there in reverse. *)
Lemma insertAt_fold {A} (k : nat) (es m : list A) :
  (k <= length m)%nat ->
  fold_left (fun m e => insertAt k e m) es m = take k m ++ rev es ++ drop k m.
Proof.
  revert m. induction es as [|e es IH]; intros m Hk; simpl.
  - by rewrite take_drop.
  - rewrite IH.
    + unfold insertAt. rewrite take_app_le by (rewrite length_take; lia).
      rewrite take_take, Nat.min_id.
      rewrite drop_app_length' by (rewrite length_take; lia).
      by rewrite <- !app_assoc.
    + unfold insertAt. rewrite length_app, length_take. simpl. lia.
Qed.

Lemma fold_left_fmap {A B C} (f : A -> B -> A) (g : C -> B) (l : list C) (a : A) :
  fold_left f (List.map g l) a = fold_left (fun a x => f a (g x)) l a.
Proof. revert a. induction l as [|x l IH]; intros a; simpl; [done|apply IH]. Qed.

Lemma rebuildRuns_rev p k rIdx runs map :
  (k <= length map)%nat ->
  rebuildRuns p k rIdx runs map
  = take k map ++ rev (realEntries p rIdx runs) ++ drop k map.
Proof.
  revert rIdx map. induction runs as [|run runs IH]; intros rIdx map Hk; simpl.
  - by rewrite take_drop.
  - set (es := List.map (fun off => mkPos p rIdx (Z.of_nat off))
                        (seq 0 (length (runText run)))).
    assert (Hstep :
      match t run with
      | Some rt =>
          fold_left (fun m off => insertAt k (mkPos p rIdx (Z.of_nat off)) m)
                    (seq 0 (length (textOf rt))) map
      | None => map
      end = take k map ++ rev es ++ drop k map).
    { unfold es, runText. destruct (t run) as [rt|]; simpl.
      - rewrite <- (insertAt_fold k _ map Hk).
        by rewrite fold_left_fmap.
      - by rewrite take_drop. }
    rewrite Hstep, IH.
    + rewrite take_app_le by (rewrite length_take; lia).
      rewrite take_take, Nat.min_id.
      rewrite drop_app_length' by (rewrite length_take; lia).
      by rewrite rev_app_distr, <- !app_assoc.
    + rewrite length_app, length_take. lia.
Qed.

Lemma paraStart_Some map p g k :
  paraStart map p g = Some k ->
  (g <= k)%nat /\ (k - g < length map)%nat
  /\ Forall (fun e => pos_p e <> p) (take (k - g) map).
Proof.
  revert g. induction map as [|e map IH]; intros g; simpl; [done|].
  destruct (Nat.eqb_spec (pos_p e) p) as [He|He].
  - intros [= <-]. rewrite Nat.sub_diag. split_and!; [lia|lia|constructor].
  - intros H. apply IH in H as (Hg & Hlt & Hall).
    split_and!; [lia|lia|].
    replace (k - g)%nat with (S (k - S g)) by lia. simpl. by constructor.
Qed.

Lemma filter_all {A} (P : A -> Prop) `{!forall x, Decision (P x)} (l : list A) :
  Forall P l -> filter P l = l.
Proof.
  induction 1 as [|x l Hx _ IH]; [done|].
  by rewrite filter_cons_True, IH.
Qed.

(** What the rebuild leaves for a paragraph that starts at index [k] of the
    map: the entries before [k], then the real entries of the paragraph's
    runs in reverse order, then the later entries of other paragraphs.  No
    synthetic entry of the paragraph is put back. *)
Lemma reindexParagraph_rev p runs map k :
  paraStart map p 0 = Some k ->
  reindexParagraph p runs map
  = take k map ++ rev (realEntries p 0 runs)
    ++ filter (fun e => pos_p e <> p) (drop k map).
Proof.
  intros Hk. unfold reindexParagraph. rewrite Hk. simpl.
  apply paraStart_Some in Hk as (_ & Hlt & Hall). rewrite Nat.sub_0_r in *.
  assert (Hf : filter (fun e => pos_p e <> p) map
               = take k map ++ filter (fun e => pos_p e <> p) (drop k map)).
  { rewrite <- (take_drop k map) at 1. by rewrite filter_app, filter_all. }
  rewrite rebuildRuns_rev; rewrite Hf.
  - rewrite take_app_le by (rewrite length_take; lia).
    rewrite take_take, Nat.min_id.
    by rewrite drop_app_length' by (rewrite length_take; lia).
  - rewrite length_app, length_take. lia.
Qed.

(** C1 (the code at a failing input). One run holding the text ab cd is
    styled over its first two characters and so split in two.  The
    rebuilt map then lists the second fragment first and each fragment's
    offsets downwards, where flattening the split paragraph lists them
    upwards.  When the paragraph has a join space (two runs ab and cd), the
    rebuilt map has lost its entry: four entries, against five characters
    in the flattened text of the structure. *)
Theorem reindex_lists_entries_backwards :
  (let out := applyStyleToRange revBoldRed 5
                (indexRuns shouldAddSpace [[plainRun "ab cd"]]) 0 2
                (chooseOverlay false) in
   returned out = true
   /\ List.map (List.map runText) (s_plist (finalStruct out))
      = [[u "ab"; u " cd"]]
   /\ s_map (finalStruct out)
      = [mkPos 0 1 2; mkPos 0 1 1; mkPos 0 1 0; mkPos 0 0 1; mkPos 0 0 0]
   /\ s_map (indexRuns shouldAddSpace (s_plist (finalStruct out)))
      = [mkPos 0 0 0; mkPos 0 0 1; mkPos 0 1 0; mkPos 0 1 1; mkPos 0 1 2])
  /\ (let s := indexRuns shouldAddSpace [[plainRun "ab"; plainRun "cd"]] in
      let out := applyStyleToRange revBoldRed 5 s 0 2 (chooseOverlay false) in
      s_map s = [mkPos 0 0 0; mkPos 0 0 1; mkPos 0 1 (-2); mkPos 0 1 0; mkPos 0 1 1]
      /\ returned out = true
      /\ List.map (List.map runText) (s_plist (finalStruct out))
         = [[u "ab"; u "cd"]]
      /\ s_map (finalStruct out)
         = [mkPos 0 1 1; mkPos 0 1 0; mkPos 0 0 1; mkPos 0 0 0]
      /\ s_full (finalStruct out) = u "ab cd"
      /\ s_full (indexRuns shouldAddSpace (s_plist (finalStruct out)))
         = u "ab cd").
Proof. vm_compute. split_and!; reflexivity. Qed.

(** C2 (the code at a failing input). Two runs, a and .bcd, flatten to
    a.bcd with all five entries real; the range [[0, 2)] covers a and the
    full stop.  After the call the runs are a, .b, c, d: the overlay is on
    a and on c, which lies outside the range, and the run that holds the
    full stop, inside the range, still has no properties.  The detection
    loop gets there for the value made of a and the full stop, and the
    other revision's loop and classifier do the same.  With the runs John
    and Smith (the second starting with a space) and the range over all
    ten characters, the space is left without the overlay. *)
Theorem range_over_two_runs_styles_wrong_characters :
  (let s := indexRuns shouldAddSpace [[plainRun "a"; plainRun ".bcd"]] in
   let out := applyStyleToRange revBoldRed 9 s 0 2 (chooseOverlay false) in
   s_full s = u "a.bcd"
   /\ s_map s = [mkPos 0 0 0; mkPos 0 1 0; mkPos 0 1 1; mkPos 0 1 2; mkPos 0 1 3]
   /\ findAll (s_full s) (u "a.") = [(0, 2)]%nat
   /\ returned out = true
   /\ List.map (List.map (fun r => (runText r, props r)))
               (s_plist (finalStruct out))
      = [[(u "a", brownKeys []); (u ".b", []); (u "c", brownKeys []);
          (u "d", [])]]
   /\ annotateDocxWithDetections 9 (u "a.bcd")
        [[plainRun "a"; plainRun ".bcd"]] [u "a."]
      = Some (mkProgress (finalStruct out) 0)
   /\ List.map (List.map (fun r => (runText r, props r)))
               (s_plist (finalStruct
                  (applyStyleToRange revRed 9 s 0 2 (chooseOverlay false))))
      = [[(u "a", brownKeys []); (u ".b", []); (u "c", brownKeys []);
          (u "d", [])]])
  /\ (let s := indexRuns shouldAddSpace [[plainRun "John"; plainRun " Smith"]] in
      let out := applyStyleToRange revBoldRed 9 s 0 10 (chooseOverlay false) in
      s_full s = u "John Smith"
      /\ returned out = true
      /\ List.map (List.map (fun r => (runText r, props r)))
                  (s_plist (finalStruct out))
         = [[(u "J", brownKeys []); (u "ohn", brownKeys []); (u " ", []);
             (u "Smith", brownKeys [])]]).
Proof. vm_compute. split_and!; reflexivity. Qed.

(** * Further properties *)

(** ** More on the locator *)

Lemma Scanned_bounds text value i hits :
  value <> [] -> Scanned text value i hits ->
  Forall (fun h => (i <= fst h < snd h)%nat /\ (snd h <= length text)%nat) hits
  /\ (length hits * length value <= length text - i)%nat.
Proof.
  intros Hne. induction 1 as [i H|i j hits Hij Ho Hn Hs [IH1 IH2]].
  - split; [constructor|simpl; lia].
  - pose proof (length_pos value Hne). pose proof (occursAt_lt _ _ _ Hne Ho).
    split.
    + constructor; [simpl; lia|].
      eapply Forall_impl; [exact IH1|]. simpl. intros h. lia.
    + simpl. lia.
Qed.

(** X1. [findAll] (and [findAllOccurrences]) returns the empty list exactly
    when the value is empty or occurs nowhere in the text; so one hit at
    least is reported for every non-empty value that occurs. *)
Theorem findAll_nil_iff (text value : list N) :
  findAll text value = [] <->
  value = [] \/ forall j, ~ occursAt text value j.
Proof.
  split.
  - intros H. destruct value as [|v value]; [by left|right].
    pose proof (findAll_Scanned text (v :: value) ltac:(done)) as Hs.
    rewrite H in Hs. inversion Hs as [i Hnone|]; subst.
    intros j. apply Hnone. lia.
  - intros [->|H]; [done|by apply findAll_absent].
Qed.

(** X2. Every range that [findAll] returns is not empty and lies inside
    the text, and there are at most [len text / len value] of them. *)
Theorem findAll_hits_in_text (text value : list N) :
  Forall (fun h => (fst h < snd h)%nat /\ (snd h <= length text)%nat)
         (findAll text value)
  /\ (length (findAll text value) * length value <= length text)%nat.
Proof.
  destruct value as [|v value]; [split; [constructor|simpl; lia]|].
  destruct (Scanned_bounds text (v :: value) 0 _ ltac:(done)
              (findAll_Scanned text (v :: value) ltac:(done))) as [H1 H2].
  split; [|lia]. eapply Forall_impl; [exact H1|]. simpl. intros h. lia.
Qed.

(** ** Real entries of the flattener's map *)

Lemma realChars_app m1 f1 m2 f2 :
  length m1 = length f1 ->
  realChars (m1 ++ m2) (f1 ++ f2) = realChars m1 f1 ++ realChars m2 f2.
Proof.
  revert f1. induction m1 as [|e m1 IH]; intros [|c f1] Hl; simpl in *;
    try done.
  destruct (isReal e); simpl; rewrite IH; auto.
Qed.

Lemma realChars_synthetic m f :
  Forall (fun e => isReal e = false) m -> realChars m f = [].
Proof.
  intros H. revert f. induction H as [|e m He _ IH]; intros [|c f]; simpl;
    try done.
  by rewrite He.
Qed.

Lemma realChars_real m f :
  Forall (fun e => isReal e = true) m -> length m = length f ->
  realChars m f = f.
Proof.
  intros H. revert f. induction H as [|e m He _ IH]; intros [|c f] Hl;
    simpl in *; try done.
  rewrite He. f_equal. apply IH. lia.
Qed.

Lemma filter_none {A} (f : A -> bool) l :
  Forall (fun x => f x = false) l -> List.filter f l = [].
Proof. induction 1 as [|x l Hx _ IH]; simpl; [done|by rewrite Hx]. Qed.

Lemma filter_every {A} (f : A -> bool) l :
  Forall (fun x => f x = true) l -> List.filter f l = l.
Proof. induction 1 as [|x l Hx _ IH]; simpl; [done|by rewrite Hx, IH]. Qed.

Lemma offsets_real p r n :
  Forall (fun e => isReal e = true)
         (List.map (fun i => mkPos p r (Z.of_nat i)) (seq 0 n)).
Proof.
  apply Forall_forall. intros e He. apply list_elem_of_In, in_map_iff in He as (i & <- & _).
  unfold isReal. simpl. apply Z.leb_le. lia.
Qed.

Section RealEntries.
Variable join : N -> N -> bool.

Lemma indexRun_filter pIdx rIdx r acc :
  List.filter isReal (indexRun join pIdx rIdx r acc).1
  = List.filter isReal acc.1
    ++ List.map (fun i => mkPos pIdx rIdx (Z.of_nat i))
                (seq 0 (length (runText r))).
Proof.
  destruct acc as [map full]. unfold indexRun, runText.
  set (ws := replicate (wsCount r) (mkPos pIdx rIdx (-1))).
  assert (Hws : Forall (fun e => isReal e = false) ws).
  { apply Forall_replicate. done. }
  destruct (t r) as [tNode|]; simpl.
  - set (text := textOf tNode).
    pose proof (offsets_real pIdx rIdx (length text)) as Hreals.
    destruct (joins join _ text); simpl; rewrite !List.filter_app; simpl;
      by rewrite (filter_none _ ws Hws), (filter_every _ _ Hreals),
                 !app_nil_r.
  - rewrite List.filter_app, (filter_none _ ws Hws). simpl.
    by rewrite !app_nil_r.
Qed.

Lemma indexRunsOf_filter pIdx rIdx runs acc :
  List.filter isReal (indexRunsOf join pIdx rIdx runs acc).1
  = List.filter isReal acc.1 ++ realEntries pIdx rIdx runs.
Proof.
  revert rIdx acc. induction runs as [|r runs IH]; intros rIdx acc;
    cbn [indexRunsOf realEntries].
  - by rewrite app_nil_r.
  - by rewrite IH, indexRun_filter, <- app_assoc.
Qed.

Lemma indexParagraphs_filter pIdx paragraphs acc :
  List.filter isReal (indexParagraphs join pIdx paragraphs acc).1
  = List.filter isReal acc.1 ++ allRealEntries pIdx paragraphs.
Proof.
  revert pIdx acc. induction paragraphs as [|runs ps IH]; intros pIdx acc;
    cbn [indexParagraphs allRealEntries].
  - by rewrite app_nil_r.
  - by rewrite IH, indexRunsOf_filter, <- app_assoc.
Qed.

Lemma indexRun_chars pIdx rIdx r map full :
  hasStringText r = true -> length map = length full ->
  let acc := indexRun join pIdx rIdx r (map, full) in
  length acc.1 = length acc.2
  /\ realChars acc.1 acc.2 = realChars map full ++ runText r.
Proof.
  intros Hstr Hl. unfold indexRun, runText.
  set (ws := replicate (wsCount r) (mkPos pIdx rIdx (-1))).
  assert (Hws : Forall (fun e => isReal e = false) ws).
  { apply Forall_replicate. done. }
  assert (Hlws : length (map ++ ws) = length (full ++ replicate (wsCount r) 32%N)).
  { unfold ws. rewrite !length_app, !length_replicate. lia. }
  destruct (t r) as [tNode|] eqn:Ht; simpl.
  - rewrite (shownText_string r tNode Hstr Ht).
    set (text := textOf tNode).
    set (reals := List.map (fun i => mkPos pIdx rIdx (Z.of_nat i)) (seq 0 (length text))).
    assert (Hreals := offsets_real pIdx rIdx (length text)). fold reals in Hreals.
    assert (Hlr : length reals = length text).
    { unfold reals. by rewrite length_map, length_seq. }
    destruct (joins join _ text); simpl.
    + split.
      * rewrite !length_app. simpl. rewrite !length_app in Hlws. lia.
      * rewrite realChars_app by (rewrite !length_app; simpl; rewrite !length_app in Hlws; lia).
        rewrite realChars_app by done. rewrite realChars_app by done.
        rewrite (realChars_synthetic ws) by done.
        rewrite (realChars_real reals) by done. simpl. by rewrite !app_nil_r.
    + split.
      * rewrite !length_app. rewrite !length_app in Hlws. lia.
      * rewrite realChars_app by done. rewrite realChars_app by done.
        rewrite (realChars_synthetic ws) by done.
        rewrite (realChars_real reals) by done. by rewrite !app_nil_r.
  - split; [done|].
    rewrite realChars_app by done.
    rewrite (realChars_synthetic ws) by done. by rewrite !app_nil_r.
Qed.

Lemma indexRunsOf_chars pIdx rIdx runs acc :
  Forall (fun r => hasStringText r = true) runs ->
  length acc.1 = length acc.2 ->
  let acc' := indexRunsOf join pIdx rIdx runs acc in
  length acc'.1 = length acc'.2
  /\ realChars acc'.1 acc'.2 = realChars acc.1 acc.2 ++ paragraphText runs.
Proof.
  intros Hstr. revert rIdx acc.
  induction Hstr as [|r runs Hr _ IH]; intros rIdx acc Hl;
    cbv zeta; cbn [indexRunsOf].
  - unfold paragraphText. simpl. by rewrite !app_nil_r.
  - destruct acc as [map full].
    destruct (indexRun_chars pIdx rIdx r map full Hr Hl) as (H1 & H3).
    destruct (IH (S rIdx) _ H1) as (I1 & I3).
    split; [done|].
    rewrite I3, H3. unfold paragraphText. cbn [List.map concat].
    by rewrite <- app_assoc.
Qed.

Lemma indexParagraphs_chars pIdx paragraphs acc :
  StringTexts paragraphs ->
  length acc.1 = length acc.2 ->
  let acc' := indexParagraphs join pIdx paragraphs acc in
  length acc'.1 = length acc'.2
  /\ realChars acc'.1 acc'.2
     = realChars acc.1 acc.2 ++ concat (List.map paragraphText paragraphs).
Proof.
  intros Hstr. revert pIdx acc.
  induction Hstr as [|runs ps Hruns _ IH]; intros pIdx acc Hl;
    cbv zeta; cbn [indexParagraphs List.map concat].
  - by rewrite !app_nil_r.
  - destruct (indexRunsOf_chars pIdx 0 runs acc Hruns Hl) as (H1 & H3).
    destruct (IH (S pIdx) _ H1) as (I1 & I3).
    split; [done|].
    rewrite I3, H3. by rewrite <- app_assoc.
Qed.
End RealEntries.

(** X3. In the map that [indexRuns] returns, the real entries, read from
    left to right, are the paragraphs in order, in each paragraph its runs
    in order, and for each run the offsets 0, 1, ... up to the length of
    its text, with no gap and no repeat; a text that is a number or a
    boolean has no characters and gets no entry.  When every text is a
    string, the characters of the flattened text that have a real entry
    are, in order, the texts of all runs.  This holds for either join
    test. *)
Theorem indexRuns_real_entries (join : N -> N -> bool)
  (paragraphs : list (list Run)) :
  List.filter isReal (s_map (indexRuns join paragraphs))
  = allRealEntries 0 paragraphs
  /\ (StringTexts paragraphs ->
      realChars (s_map (indexRuns join paragraphs))
                (s_full (indexRuns join paragraphs))
      = concat (List.map paragraphText paragraphs)).
Proof.
  unfold indexRuns.
  pose proof (indexParagraphs_filter join 0 paragraphs ([], [])) as H1.
  pose proof (fun H => indexParagraphs_chars join 0 paragraphs ([], []) H eq_refl)
    as H2.
  destruct (indexParagraphs join 0 paragraphs ([], [])) as [map full].
  split; [done|]. intros Hstr. by destruct (H2 Hstr) as [_ ?].
Qed.

(** ** The rebuilt map, in general *)

Lemma paraStart_None map p g :
  paraStart map p g = None -> Forall (fun e => pos_p e <> p) map.
Proof.
  revert g. induction map as [|e map IH]; intros g; simpl; [done|].
  destruct (Nat.eqb_spec (pos_p e) p) as [He|He]; [done|].
  intros H. constructor; [done|by eapply IH].
Qed.

(** The layout of the rebuilt map, whether or not the old map had an entry
    of the paragraph: with none, the new entries go to the front. *)
Lemma reindexParagraph_layout p runs map :
  reindexParagraph p runs map
  = take (default 0%nat (paraStart map p 0)) map
    ++ rev (realEntries p 0 runs)
    ++ filter (fun e => pos_p e <> p)
              (drop (default 0%nat (paraStart map p 0)) map).
Proof.
  destruct (paraStart map p 0) as [k|] eqn:Hk.
  - by apply reindexParagraph_rev.
  - unfold reindexParagraph. rewrite Hk. simpl.
    apply paraStart_None in Hk. rewrite drop_0, filter_all by done.
    rewrite rebuildRuns_rev by lia. by rewrite drop_0.
Qed.

Lemma realEntries_elem e p k runs :
  e ∈ realEntries p k runs ->
  pos_p e = p /\ (k <= pos_r e)%nat
  /\ exists run, runs !! (pos_r e - k)%nat = Some run
                 /\ 0 <= pos_o e < len (runText run).
Proof.
  revert k. induction runs as [|run runs IH]; intros k; simpl.
  - by intros ?%elem_of_nil.
  - rewrite elem_of_app. intros [H|H].
    + apply list_elem_of_In, in_map_iff in H as (off & <- & Hoff).
      apply in_seq in Hoff. simpl. split_and!; [done|lia|].
      exists run. rewrite Nat.sub_diag. split; [done|]. unfold len. lia.
    + apply IH in H as (Hp & Hk & run' & Hrun & Ho).
      split_and!; [done|lia|]. exists run'. split; [|done].
      replace (pos_r e - k)%nat with (S (pos_r e - S k)) by lia. done.
Qed.

Lemma reindexParagraph_elem e p runs map :
  e ∈ reindexParagraph p runs map ->
  e ∈ realEntries p 0 runs \/ (e ∈ map /\ pos_p e <> p).
Proof.
  rewrite reindexParagraph_layout, !elem_of_app.
  intros [H|[H|H]].
  - right.
    split; [rewrite <- (take_drop (default 0%nat (paraStart map p 0)) map);
            apply elem_of_app; by left|].
    destruct (paraStart map p 0) as [k|] eqn:Hk; simpl in H.
    + apply paraStart_Some in Hk as (_ & _ & Hall). rewrite Nat.sub_0_r in Hall.
      rewrite Forall_forall in Hall. by apply Hall.
    + by apply elem_of_nil in H.
  - left. by apply list_elem_of_In, in_rev, list_elem_of_In in H.
  - right. apply list_elem_of_filter in H as [Hp H]. split; [|done].
    rewrite <- (take_drop (default 0%nat (paraStart map p 0)) map).
    apply elem_of_app. by right.
Qed.

(** ** Structures that stay well indexed *)

Section IndexedFacts.
Variable join : N -> N -> bool.
Variable plist : list (list Run).

Lemma indexRun_InsideRun pIdx rIdx runs r acc :
  plist !! pIdx = Some runs -> runs !! rIdx = Some r ->
  Forall (InsideRun plist) acc.1 ->
  Forall (InsideRun plist) (indexRun join pIdx rIdx r acc).1.
Proof.
  intros Hp Hr. destruct acc as [map full]. unfold indexRun. simpl.
  intros Hinv.
  assert (Hsyn : forall o, -2 <= o < 0 -> InsideRun plist (mkPos pIdx rIdx o)).
  { intros o Ho. split; [simpl; lia|]. exists runs, r. simpl.
    split_and!; [done|done|lia]. }
  assert (Hws : Forall (InsideRun plist)
                  (map ++ replicate (wsCount r) (mkPos pIdx rIdx (-1)))).
  { apply Forall_app. split; [done|]. apply Forall_replicate, Hsyn. lia. }
  destruct (t r) as [tNode|] eqn:Ht; [|done]. simpl.
  assert (Hreal : Forall (InsideRun plist)
                    (List.map (fun i => mkPos pIdx rIdx (Z.of_nat i))
                              (seq 0 (length (textOf tNode))))).
  { apply Forall_forall. intros e He.
    apply list_elem_of_In, in_map_iff in He as (i & <- & Hi). apply in_seq in Hi.
    split; [simpl; lia|]. exists runs, r. simpl. split_and!; [done|done|].
    intros _. exists tNode. split; [done|]. unfold len. lia. }
  destruct (joins join _ _); simpl.
  - rewrite !Forall_app. split_and!; [apply Forall_app in Hws; tauto
      |apply Forall_app in Hws; tauto| |done].
    constructor; [|constructor]. apply Hsyn. lia.
  - apply Forall_app. by split.
Qed.

Lemma indexRunsOf_InsideRun pIdx runs rest rIdx acc :
  plist !! pIdx = Some runs -> drop rIdx runs = rest ->
  Forall (InsideRun plist) acc.1 ->
  Forall (InsideRun plist) (indexRunsOf join pIdx rIdx rest acc).1.
Proof.
  intros Hp. revert rIdx acc.
  induction rest as [|r rest IH]; intros rIdx acc Hdrop Hacc; simpl; [done|].
  assert (Hr : runs !! rIdx = Some r).
  { rewrite <- (Nat.add_0_r rIdx), <- lookup_drop, Hdrop. done. }
  apply IH.
  - replace (S rIdx) with (rIdx + 1)%nat by lia.
    by rewrite <- drop_drop, Hdrop.
  - by eapply indexRun_InsideRun.
Qed.

Lemma indexParagraphs_InsideRun rest pIdx acc :
  drop pIdx plist = rest ->
  Forall (InsideRun plist) acc.1 ->
  Forall (InsideRun plist) (indexParagraphs join pIdx rest acc).1.
Proof.
  revert pIdx acc.
  induction rest as [|runs rest IH]; intros pIdx acc Hdrop Hacc; simpl; [done|].
  assert (Hp : plist !! pIdx = Some runs).
  { rewrite <- (Nat.add_0_r pIdx), <- lookup_drop, Hdrop. done. }
  apply IH.
  - replace (S pIdx) with (pIdx + 1)%nat by lia.
    by rewrite <- drop_drop, Hdrop.
  - eapply indexRunsOf_InsideRun; [done| |done]. apply drop_0.
Qed.
End IndexedFacts.

Lemma indexRuns_WellIndexed join paragraphs :
  WellIndexed (indexRuns join paragraphs).
Proof.
  unfold WellIndexed, indexRuns.
  pose proof (indexParagraphs_InsideRun join paragraphs paragraphs 0 ([], [])
                (drop_0 _) (Forall_nil_2 _)) as H.
  by destruct (indexParagraphs join 0 paragraphs ([], [])) as [map full].
Qed.

Lemma reindex_WellIndexed plist map p pRuns newRuns :
  plist !! p = Some pRuns ->
  Forall (InsideRun plist) map ->
  Forall (InsideRun (<[p := newRuns]> plist)) (reindexParagraph p newRuns map).
Proof.
  intros Hp Hmap. apply Forall_forall. intros e He.
  apply reindexParagraph_elem in He as [He|[He Hne]].
  - apply realEntries_elem in He as (Hpe & _ & run & Hrun & Ho).
    rewrite Nat.sub_0_r in Hrun.
    split; [lia|]. exists newRuns, run. split_and!; [|done|].
    + rewrite Hpe. apply list_lookup_insert_eq. by eapply lookup_lt_Some.
    + intros _. unfold runText in Ho.
      destruct (t run) as [tNode|]; simpl in Ho; [|unfold len in Ho; simpl in Ho; lia].
      exists tNode. split; [done|lia].
  - rewrite Forall_forall in Hmap.
    destruct (Hmap e He) as (Ho & pRuns' & rNode & H1 & H2 & H3).
    split; [done|]. exists pRuns', rNode. split_and!; [|done|done].
    by rewrite list_lookup_insert_ne.
Qed.

Section Termination.
Variable rev : Revision.
Variable styler : Obj -> bool -> Obj.
Variable end_ : Z.

Lemma styleLoop_ends fuel struct i :
  WellIndexed struct -> (Z.to_nat (end_ - i) < fuel)%nat ->
  ended (styleLoop rev styler end_ fuel struct i) = true
  /\ WellIndexed (finalStruct (styleLoop rev styler end_ fuel struct i))
  /\ (guarded rev = true -> (forall o, exists b, classify rev o = Ok b) ->
      returned (styleLoop rev styler end_ fuel struct i) = true).
Proof.
  revert struct i. induction fuel as [|fuel IH]; intros struct i Hwi Hfuel;
    [lia|]. simpl.
  destruct (Z.ltb_spec i end_) as [Hi|Hi]; [|done].
  assert (Hskip := IH struct (i + 1) Hwi ltac:(lia)).
  assert (Hmissing :
    let out := if guarded rev
               then styleLoop rev styler end_ fuel struct (i + 1)
               else Threw struct in
    ended out = true /\ WellIndexed (finalStruct out)
    /\ (guarded rev = true -> (forall o, exists b, classify rev o = Ok b) ->
        returned out = true)).
  { destruct (guarded rev); [done|]. simpl. done. }
  cbv zeta in Hmissing.
  destruct (at_ (s_map struct) i) as [pos|] eqn:Hpos; [|done].
  destruct (s_plist struct !! pos_p pos) as [pRuns|] eqn:Hp; [|done].
  destruct (pRuns !! pos_r pos) as [rNode|] eqn:Hr; [|done].
  destruct ((pos_o pos =? -1) || (pos_o pos =? -2)) eqn:Ho; [done|].
  destruct (t rNode) as [tNode|] eqn:Ht; [|done].
  apply orb_false_iff in Ho as [Ho1%Z.eqb_neq Ho2%Z.eqb_neq].
  assert (Hin : 0 <= pos_o pos < len (textOf tNode)).
  { apply at_Some in Hpos as [_ Hpos].
    eapply Forall_lookup_1 in Hwi; [|done].
    destruct Hwi as (Hge & pRuns' & rNode' & H1 & H2 & Hin).
    rewrite Hp in H1. injection H1 as <-. rewrite Hr in H2. injection H2 as <-.
    destruct Hin as (tNode' & H3 & Hlt); [lia|].
    rewrite Ht in H3. injection H3 as <-. lia. }
  destruct (isAtomText tNode) eqn:Hatom.
  { destruct tNode; try done. unfold len in Hin. simpl in Hin. lia. }
  destruct (splitRun _ _ _ _ _ _) as [runsNew|] eqn:Hsplit.
  - match goal with |- context [styleLoop _ _ _ _ ?st ?j] =>
      apply (IH st j) end.
    + unfold WellIndexed. simpl. by eapply reindex_WellIndexed.
    + lia.
  - simpl. split_and!; [done|done|]. intros _ Htotal.
    destruct (Htotal (Some (JObj (props rNode)))) as [b Hb].
    unfold splitRun in Hsplit. fold (props rNode) in Hsplit.
    unfold clone in Hsplit. rewrite Hb in Hsplit. done.
Qed.
End Termination.

Lemma applyStyleToRange_ends rev fuel struct start end_ styler :
  WellIndexed struct -> (Z.to_nat (end_ - start) < fuel)%nat ->
  ended (applyStyleToRange rev fuel struct start end_ styler) = true
  /\ WellIndexed (finalStruct (applyStyleToRange rev fuel struct start end_ styler))
  /\ (guarded rev = true -> (forall o, exists b, classify rev o = Ok b) ->
      returned (applyStyleToRange rev fuel struct start end_ styler) = true).
Proof.
  intros Hwi Hfuel. unfold applyStyleToRange.
  destruct ((start <? 0) || (end_ <=? start) || (end_ >? len_ (s_map struct)));
    [done|].
  destruct (at_ (s_map struct) start); [|done].
  destruct (at_ (s_map struct) (end_ - 1)); [|done].
  by apply styleLoop_ends.
Qed.

(** X5. On a structure that [indexRuns] built, a call of
    [applyStyleToRange] comes to an end within as many rounds as the range
    is long, plus one: each round moves the index forward by at least one
    position.  In the revision that guards its lookups the call returns;
    in the other one it returns or throws.  Either way the structure it
    leaves is well indexed again (every entry of the map names a run of the
    structure, and a real entry lies inside that run's text), so the same holds for the next call. *)
Theorem applyStyleToRange_terminates
  (rev : Revision) (join : N -> N -> bool) (fuel : nat)
  (paragraphs : list (list Run)) (start end_ : Z)
  (styler : Obj -> bool -> Obj) :
  (Z.to_nat (end_ - start) < fuel)%nat ->
  let s := indexRuns join paragraphs in
  ended (applyStyleToRange rev fuel s start end_ styler) = true
  /\ WellIndexed (finalStruct (applyStyleToRange rev fuel s start end_ styler))
  /\ returned (applyStyleToRange revRed fuel s start end_ styler) = true.
Proof.
  intros Hfuel s.
  pose proof (indexRuns_WellIndexed join paragraphs) as Hwi. fold s in Hwi.
  destruct (applyStyleToRange_ends rev fuel s start end_ styler Hwi Hfuel)
    as (H1 & H2 & _).
  destruct (applyStyleToRange_ends revRed fuel s start end_ styler Hwi Hfuel)
    as (_ & _ & H3).
  split_and!; [done|done|]. apply H3; [done|].
  intros o. apply classifiers_never_throw.
Qed.

Lemma applyStyleToRange_terminates_witness :
  let s := indexRuns shouldAddSpace scenarioDoc in
  ended (applyStyleToRange revBoldRed 16 s 4 17 (chooseOverlay true)) = true
  /\ WellIndexed (finalStruct (applyStyleToRange revBoldRed 16 s 4 17 (chooseOverlay true)))
  /\ returned (applyStyleToRange revRed 16 s 4 17 (chooseOverlay true)) = true.
Proof.
  apply (applyStyleToRange_terminates revBoldRed shouldAddSpace 16 scenarioDoc
           4 17 (chooseOverlay true)).
  simpl. lia.
Defined.

(** ** The detection loop as a whole *)





Section AnnotateFacts.
Variable fuel : nat.
Variable full : list N.
Variable xmlText : list N.
Variable s0 : Struct.
Hypothesis Hfuel : (length xmlText < fuel)%nat.




End AnnotateFacts.



Lemma filter_none_P {A} (P : A -> Prop) `{!forall x, Decision (P x)} (l : list A) :
  Forall (fun x => ~ P x) l -> filter P l = [].
Proof.
  induction 1 as [|x l Hx _ IH]; [done|].
  by rewrite filter_cons_False.
Qed.

Lemma realEntries_para p k runs :
  Forall (fun e => pos_p e = p) (realEntries p k runs).
Proof.
  apply Forall_forall. intros e He. by apply realEntries_elem in He as [? _].
Qed.

(** X7. What the rebuild of a paragraph's mapping does to the map, for any
    map and any new runs.  The entries of the other paragraphs are kept, in
    their order.  The entries of the rebuilt paragraph are the real entries
    of its new runs, one for each character, listed backwards: last run
    first, and in each run the last offset first.  No synthetic entry of
    the paragraph (tab, break or join space) is left. *)
Theorem reindexParagraph_frame (p : nat) (runs : list Run) (map : list Pos) :
  filter (fun e => pos_p e <> p) (reindexParagraph p runs map)
  = filter (fun e => pos_p e <> p) map
  /\ filter (fun e => pos_p e = p) (reindexParagraph p runs map)
     = rev (realEntries p 0 runs).
Proof.
  rewrite reindexParagraph_layout.
  set (k := default 0%nat (paraStart map p 0)).
  assert (Hfront : Forall (fun e => pos_p e <> p) (take k map)).
  { unfold k. destruct (paraStart map p 0) as [k'|] eqn:Hk; simpl.
    - apply paraStart_Some in Hk as (_ & _ & Hall).
      by rewrite Nat.sub_0_r in Hall.
    - constructor. }
  assert (Hnew : Forall (fun e => pos_p e = p) (rev (realEntries p 0 runs))).
  { apply Forall_forall. intros e He.
    apply list_elem_of_In, in_rev, list_elem_of_In in He.
    by apply realEntries_elem in He as [? _]. }
  assert (Hrest : Forall (fun e => pos_p e <> p)
                    (filter (fun e => pos_p e <> p) (drop k map))).
  { apply Forall_forall. intros e He. by apply list_elem_of_filter in He as [? _]. }
  rewrite !filter_app. split.
  - rewrite (filter_all _ (take k map)) by done.
    rewrite (filter_none_P _ (rev _)).
    2:{ eapply Forall_impl; [exact Hnew|]. simpl. intros e He Hn. by apply Hn. }
    rewrite (filter_all _ (filter _ _)) by done.
    simpl. symmetry. rewrite <- (take_drop k map) at 1.
    by rewrite filter_app, filter_all.
  - rewrite (filter_none_P _ (take k map)).
    2:{ eapply Forall_impl; [exact Hfront|]. simpl. by intros e He. }
    rewrite (filter_all _ (rev _)) by done.
    rewrite (filter_none_P _ (filter _ _)).
    2:{ eapply Forall_impl; [exact Hrest|]. simpl. by intros e He. }
    by rewrite app_nil_r.
Qed.

(** ** The span test *)

Lemma spanLoop_true_iff rev plist entries :
  spanLoop rev plist entries = Some true <-> Forall (passes rev plist) entries.
Proof.
  induction entries as [|pos entries IH]; simpl.
  - split; [constructor|done].
  - rewrite Forall_cons. unfold passes at 1, runOf.
    destruct (plist !! pos_p pos ≫= _) as [rNode|].
    + destruct (classify rev _) as [[|]|]; simpl.
      * rewrite IH. naive_solver.
      * naive_solver.
      * naive_solver.
    + destruct (guarded rev); [rewrite IH|]; naive_solver.
Qed.

(** X8. [spanWasBoldRed] answers true exactly when the range is a range
    of the map ([0 <= start < end <= map.length]) and every entry in it,
    real or synthetic, names a run whose properties the classifier accepts.
    A space that stands for a tab, a break or a join thus counts with the
    properties of the run it was filed under.  (In the revision that
    guards its lookups an entry without a run is passed over.) *)
Theorem spanWasBoldRed_true_iff
  (rev : Revision) (s : Struct) (start end_ : Z) :
  spanWasBoldRed rev s start end_ = Some true <->
  0 <= start < end_ /\ end_ <= len_ (s_map s)
  /\ Forall (passes rev (s_plist s)) (rangeEntries s start end_).
Proof.
  unfold spanWasBoldRed, rangeEntries.
  destruct (Z.ltb_spec start 0); [simpl; split; [done|lia]|].
  destruct (Z.leb_spec end_ start); [simpl; split; [done|lia]|].
  destruct (Z.gtb_spec end_ (len_ (s_map s))); [simpl; split; [done|lia]|].
  simpl. rewrite spanLoop_true_iff. split; [|tauto]. intros H'. split_and!; try done; lia.
Qed.

Lemma spanLoop_total rev plist entries :
  (forall o, exists b, classify rev o = Ok b) ->
  Forall (InsideRun plist) entries ->
  exists b, spanLoop rev plist entries = Some b.
Proof.
  intros Htotal. induction 1 as [|pos entries Hpos _ IH]; simpl; [by eauto|].
  destruct Hpos as (_ & pRuns & rNode & -> & Hr & _). simpl. rewrite Hr.
  destruct (Htotal (JObj <$> rPr rNode)) as [[|] ->]; simpl; by eauto.
Qed.

(** X9. On a well-indexed structure, such as [indexRuns] builds and
    [applyStyleToRange] leaves, [spanWasBoldRed] never throws, whatever
    the range: every entry it reads names a run.  So in the detection
    loop only [applyStyleToRange] can throw. *)
Theorem spanWasBoldRed_never_throws (s : Struct) (start end_ : Z) :
  WellIndexed s ->
  (exists b, spanWasBoldRed revBoldRed s start end_ = Some b)
  /\ (exists b, spanWasBoldRed revRed s start end_ = Some b).
Proof.
  intros Hwi. unfold spanWasBoldRed.
  destruct ((start <? 0) || (end_ <=? start) || (end_ >? len_ (s_map s)));
    [by eauto|].
  split; apply spanLoop_total;
    try (intros o; apply classifiers_never_throw);
    by apply Forall_take, Forall_drop.
Qed.

Lemma spanWasBoldRed_never_throws_witness :
  (exists b, spanWasBoldRed revBoldRed (indexRuns shouldAddSpace scenarioDoc)
               4 17 = Some b)
  /\ (exists b, spanWasBoldRed revRed (indexRuns shouldAddSpace scenarioDoc)
                  4 17 = Some b).
Proof.
  apply (spanWasBoldRed_never_throws (indexRuns shouldAddSpace scenarioDoc) 4 17).
  apply indexRuns_WellIndexed.
Defined.

(** ** Overlays and the classifiers *)

Lemma isBoldRed_obj (o : list (string * JVal)) :
  isBoldRed (Some (JObj o))
  = Ok (truthy (field o W_B) && redish (optProp (field o W_COLOR) W_VAL)).
Proof. reflexivity. Qed.

Lemma isRed_obj (o : list (string * JVal)) :
  isRed (Some (JObj o)) = Ok (redish (optProp (field o W_COLOR) W_VAL)).
Proof. reflexivity. Qed.

(** X10. How a run classifies once an overlay is on it.  After the
    ground-truth overlay [isRed] accepts it, and [isBoldRed] accepts it
    exactly when its bold value was truthy before; after the brown overlay
    neither classifier accepts it.  So a run that is overlaid by its own
    classification keeps that classification, and overlaying it again
    changes nothing. *)
Theorem overlays_keep_classification (o : list (string * JVal)) :
  isBoldRed (Some (JObj (exactKeys o))) = Ok (truthy (field o W_B))
  /\ isRed (Some (JObj (exactKeys o))) = Ok true
  /\ isBoldRed (Some (JObj (brownKeys o))) = Ok false
  /\ isRed (Some (JObj (brownKeys o))) = Ok false
  /\ forall b unused,
       isBoldRed (Some (JObj o)) = Ok b ->
       isBoldRed (Some (JObj (chooseOverlay b o unused))) = Ok b
       /\ chooseOverlay b (chooseOverlay b o unused) unused
          = chooseOverlay b o unused.
Proof.
  destruct (exactKeys_fields o) as (_ & _ & HC & Hk).
  destruct (brownKeys_fields o) as (_ & HC' & Hk').
  assert (E1 : isBoldRed (Some (JObj (exactKeys o))) = Ok (truthy (field o W_B))).
  { rewrite isBoldRed_obj, HC, Hk by done. simpl. by rewrite andb_true_r. }
  assert (E3 : isBoldRed (Some (JObj (brownKeys o))) = Ok false).
  { rewrite isBoldRed_obj, HC'. simpl. by rewrite andb_false_r. }
  split_and!; try done.
  - by rewrite isRed_obj, HC.
  - by rewrite isRed_obj, HC'.
  - intros b unused Hb. unfold chooseOverlay. destruct b.
    + split; [|apply exactKeys_idem]. rewrite E1. f_equal.
      rewrite isBoldRed_obj in Hb. injection Hb as Hb.
      by apply andb_true_iff in Hb as [-> _].
    + split; [done|apply brownKeys_idem].
Qed.

(** ** Edit distance *)

Local Open Scope nat_scope.

Lemma distance_0_r a b i : distance a b i 0 = i.
Proof. by destruct i. Qed.

Lemma distance_S_S a b i j :
  distance a b (S i) (S j)
  = Nat.min (distance a b i (S j) + 1)
      (Nat.min (distance a b (S i) j + 1)
         (distance a b i j + if bool_decide (a !! i = b !! j) then 0 else 1)).
Proof. reflexivity. Qed.

Lemma tableRow_lookup a b i width j :
  j < width -> tableRow a b i width !! j = Some (Some (distance a b i j)).
Proof.
  intros Hj. unfold tableRow.
  change (List.map ?f ?l) with (f <$> l).
  rewrite list_lookup_fmap, lookup_seq_lt by done. done.
Qed.

Lemma tableRow_length a b i width : length (tableRow a b i width) = width.
Proof. unfold tableRow. by rewrite length_map, length_seq. Qed.

Lemma tableRow_S a b i width :
  tableRow a b i (S width)
  = tableRow a b i width ++ [Some (distance a b i width)].
Proof. unfold tableRow. by rewrite seq_S, map_app. Qed.

Lemma setAt_push row v : setAt row (length row) v = row ++ [v].
Proof.
  unfold setAt. rewrite (proj2 (Nat.ltb_ge _ _)) by lia.
  by rewrite Nat.sub_diag.
Qed.

Lemma min3_Some x y z c :
  min3 (succNum (Some x)) (succNum (Some y)) ((fun n => n + c) <$> Some z)
  = Some (Nat.min (x + 1) (Nat.min (y + 1) (z + c))).
Proof. unfold min3, succNum. simpl. by rewrite !Nat.add_1_r. Qed.

Section Table.
Variable a b : list N.

Lemma cell_TableAt_above dp i j i' j' :
  TableAt a b i j dp -> i' < i -> j' <= length b ->
  cell dp i' j' = Some (distance a b i' j').
Proof.
  intros (_ & Habove & _) Hi Hj. unfold cell.
  rewrite (Habove i' Hi). simpl.
  by rewrite tableRow_lookup by lia.
Qed.

Lemma cell_TableAt_row dp i j j' :
  TableAt a b i j dp -> j' < j -> cell dp i j' = Some (distance a b i j').
Proof.
  intros (_ & _ & Hrow & _) Hj. unfold cell.
  rewrite Hrow. simpl. by rewrite tableRow_lookup.
Qed.

Lemma setCell_TableAt dp i j :
  TableAt a b i j dp ->
  TableAt a b i (S j) (setCell dp i j (Some (distance a b i j))).
Proof.
  intros (Hlen & Habove & Hrow & Hbelow). unfold setCell.
  split_and!.
  - by rewrite length_alter.
  - intros i' Hi'. rewrite list_lookup_alter_ne by lia. by apply Habove.
  - rewrite list_lookup_alter_eq, Hrow. simpl. f_equal.
    rewrite <- (tableRow_length a b i j) at 2.
    by rewrite setAt_push, tableRow_S.
  - intros i' Hi'. rewrite list_lookup_alter_ne by lia. by apply Hbelow.
Qed.

Lemma levStep_TableAt dp i j :
  TableAt a b (S i) (S j) dp -> j < length b ->
  TableAt a b (S i) (S (S j)) (levStep a b (S i) dp (S j)).
Proof.
  intros Ht Hj. unfold levStep.
  replace (S i - 1) with i by lia. replace (S j - 1) with j by lia.
  rewrite (cell_TableAt_above dp (S i) (S j) i (S j) Ht) by lia.
  rewrite (cell_TableAt_above dp (S i) (S j) i j Ht) by lia.
  rewrite (cell_TableAt_row dp (S i) (S j) j Ht) by lia.
  rewrite min3_Some, <- distance_S_S.
  by apply setCell_TableAt.
Qed.

Lemma inner_TableAt dp i j k :
  TableAt a b (S i) (S j) dp -> j + k <= length b ->
  TableAt a b (S i) (S (j + k))
          (fold_left (levStep a b (S i)) (seq (S j) k) dp).
Proof.
  revert dp j. induction k as [|k IH]; intros dp j Ht Hk; simpl.
  - by rewrite Nat.add_0_r.
  - replace (j + S k) with (S j + k) by lia.
    apply IH; [|lia]. apply levStep_TableAt; [done|lia].
Qed.

Lemma next_row_TableAt dp i :
  TableAt a b i (S (length b)) dp -> i < length a ->
  TableAt a b (S i) 1 dp.
Proof.
  intros (Hlen & Habove & Hrow & Hbelow) Hi. split_and!; [done| | |].
  - intros i' Hi'. destruct (decide (i' = i)) as [->|]; [done|].
    apply Habove. lia.
  - rewrite (Hbelow (S i)) by lia. unfold tableRow. simpl. done.
  - intros i' Hi'. apply Hbelow. lia.
Qed.

Lemma outer_TableAt dp i k :
  TableAt a b i (S (length b)) dp -> i + k <= length a ->
  TableAt a b (i + k) (S (length b))
    (fold_left (fun dp i => fold_left (levStep a b i) (seq 1 (length b)) dp)
               (seq (S i) k) dp).
Proof.
  revert dp i. induction k as [|k IH]; intros dp i Ht Hk; simpl.
  - by rewrite Nat.add_0_r.
  - replace (i + S k) with (S i + k) by lia.
    apply IH; [|lia].
    apply (inner_TableAt dp i 0 (length b)); [|lia].
    apply next_row_TableAt; [done|lia].
Qed.

Lemma first_row_TableAt dp j k :
  TableAt a b 0 (S j) dp -> j + k <= length b ->
  TableAt a b 0 (S (j + k))
    (fold_left (fun dp j => setCell dp 0 j (Some j)) (seq (S j) k) dp).
Proof.
  revert dp j. induction k as [|k IH]; intros dp j Ht Hk; simpl.
  - by rewrite Nat.add_0_r.
  - replace (j + S k) with (S j + k) by lia.
    apply IH; [|lia]. by apply (setCell_TableAt dp 0 (S j)).
Qed.

Lemma initial_TableAt :
  TableAt a b 0 1 (List.map (fun i => [Some i]) (seq 0 (length a + 1))).
Proof.
  assert (Hlook : forall i, i <= length a ->
            List.map (fun i => [Some i]) (seq 0 (length a + 1)) !! i
            = Some [Some i]).
  { intros i Hi. change (List.map ?f ?l) with (f <$> l).
    rewrite list_lookup_fmap, lookup_seq_lt by lia. done. }
  split_and!.
  - rewrite length_map, length_seq. lia.
  - intros i' Hi'. lia.
  - by rewrite Hlook by lia.
  - intros i' Hi'. apply Hlook. lia.
Qed.

Lemma levenshtein_distance :
  levenshtein a b = Some (distance a b (length a) (length b)).
Proof.
  unfold levenshtein.
  pose proof initial_TableAt as H0.
  apply (first_row_TableAt _ 0 (length b)) in H0; [|lia].
  apply (outer_TableAt _ 0 (length a)) in H0; [|lia].
  simpl in H0. eapply cell_TableAt_row; [exact H0|lia].
Qed.
End Table.

(** *** The recurrence *)

Lemma distance_0_l a b j : distance a b 0 j = j.
Proof. reflexivity. Qed.

Lemma distance_le_delete a b i j : distance a b (S i) j <= distance a b i j + 1.
Proof.
  destruct j as [|j]; [rewrite !distance_0_r; lia|].
  rewrite distance_S_S. lia.
Qed.

Lemma distance_le_insert a b i j : distance a b i (S j) <= distance a b i j + 1.
Proof.
  destruct i as [|i]; [rewrite !distance_0_l; lia|].
  rewrite distance_S_S. lia.
Qed.

Lemma distance_sym a b i j : distance a b i j = distance b a j i.
Proof.
  revert j. induction i as [|i IHi]; intros j.
  - by rewrite distance_0_l, distance_0_r.
  - induction j as [|j IHj].
    + by rewrite distance_0_l, distance_0_r.
    + rewrite !distance_S_S, IHj, !IHi.
      replace (bool_decide (b !! j = a !! i))
        with (bool_decide (a !! i = b !! j))
        by (apply bool_decide_ext; split; congruence).
      lia.
Qed.

Lemma distance_bounds a b i j :
  i - j <= distance a b i j /\ j - i <= distance a b i j
  /\ distance a b i j <= Nat.max i j.
Proof.
  revert j. induction i as [|i IHi]; intros j.
  - rewrite distance_0_l. lia.
  - induction j as [|j IHj].
    + rewrite distance_0_r. lia.
    + rewrite distance_S_S.
      pose proof (IHi (S j)). pose proof (IHi j).
      destruct (bool_decide (a !! i = b !! j)); lia.
Qed.

Lemma take_snoc_inv {A} (l l0 : list A) i x :
  i <= length l -> take i l = l0 ++ [x] ->
  exists i', i = S i' /\ take i' l = l0 /\ l !! i' = Some x.
Proof.
  intros Hi H.
  assert (Hlen : i = S (length l0)).
  { apply (f_equal length) in H. rewrite length_take, length_app in H.
    simpl in H. lia. }
  exists (length l0). split; [done|]. split.
  - replace (take (length l0) l) with (take (length l0) (take i l))
      by (rewrite take_take; f_equal; lia).
    rewrite H. by rewrite take_app_length.
  - rewrite <- (lookup_take_lt l i (length l0)) by lia.
    rewrite H. by rewrite list_lookup_middle.
Qed.

Lemma take_nil_inv {A} (l : list A) i : i <= length l -> take i l = [] -> i = 0.
Proof.
  intros Hi H. apply (f_equal length) in H. rewrite length_take in H.
  simpl in H. lia.
Qed.

Lemma cost_lookup (a b : list N) i j x y :
  a !! i = Some x -> b !! j = Some y ->
  bool_decide (a !! i = b !! j) = bool_decide (x = y).
Proof.
  intros -> ->. apply bool_decide_ext. split; congruence.
Qed.

Lemma distance_Aligned a b i j :
  i <= length a -> j <= length b ->
  Aligned (take i a) (take j b) (distance a b i j).
Proof.
  revert j. induction i as [|i IHi]; intros j Hi Hj.
  - rewrite distance_0_l. clear Hi. induction j as [|j IHj]; [constructor|].
    destruct (lookup_lt_is_Some_2 b j ltac:(lia)) as [y Hy].
    rewrite (take_S_r _ _ _ Hy). simpl in *. apply Aligned_insert, IHj. lia.
  - destruct (lookup_lt_is_Some_2 a i ltac:(lia)) as [x Hx].
    induction j as [|j IHj].
    + rewrite distance_0_r, (take_S_r _ _ _ Hx).
      specialize (IHi 0 ltac:(lia) ltac:(lia)). rewrite distance_0_r in IHi.
      by apply Aligned_delete.
    + destruct (lookup_lt_is_Some_2 b j ltac:(lia)) as [y Hy].
      rewrite distance_S_S.
      set (d1 := distance a b i (S j) + 1).
      set (d2 := distance a b (S i) j + 1).
      set (d3 := distance a b i j + _).
      assert (H1 : Aligned (take (S i) a) (take (S j) b) d1).
      { unfold d1. rewrite (take_S_r a _ _ Hx), Nat.add_1_r.
        apply Aligned_delete, IHi; lia. }
      assert (H2 : Aligned (take (S i) a) (take (S j) b) d2).
      { unfold d2. rewrite (take_S_r b _ _ Hy), Nat.add_1_r.
        apply Aligned_insert, IHj. lia. }
      assert (H3 : Aligned (take (S i) a) (take (S j) b) d3).
      { unfold d3. rewrite (take_S_r a _ _ Hx), (take_S_r b _ _ Hy).
        rewrite (cost_lookup a b i j x y Hx Hy).
        apply Aligned_match, IHi; lia. }
      destruct (Nat.min_spec d2 d3) as [[_ ->]|[_ ->]];
        destruct (Nat.min_spec d1 d2) as [[_ E]|[_ E]];
        destruct (Nat.min_spec d1 d3) as [[_ E']|[_ E']];
        rewrite ?E, ?E'; done.
Qed.

Lemma Aligned_distance a b a' b' n :
  Aligned a' b' n ->
  forall i j, i <= length a -> j <= length b ->
    take i a = a' -> take j b = b' -> distance a b i j <= n.
Proof.
  induction 1 as [|a0 b0 n x HA IH|a0 b0 n y HA IH|a0 b0 n x y HA IH];
    intros i j Hi Hj Ea Eb.
  - apply take_nil_inv in Ea; [|done]. apply take_nil_inv in Eb; [|done].
    subst. by rewrite distance_0_l.
  - apply take_snoc_inv in Ea as (i' & -> & Ea & Hx); [|done].
    specialize (IH i' j ltac:(lia) Hj Ea Eb).
    pose proof (distance_le_delete a b i' j). lia.
  - apply take_snoc_inv in Eb as (j' & -> & Eb & Hy); [|done].
    specialize (IH i j' Hi ltac:(lia) Ea Eb).
    pose proof (distance_le_insert a b i j'). lia.
  - apply take_snoc_inv in Ea as (i' & -> & Ea & Hx); [|done].
    apply take_snoc_inv in Eb as (j' & -> & Eb & Hy); [|done].
    specialize (IH i' j' ltac:(lia) ltac:(lia) Ea Eb).
    rewrite distance_S_S, (cost_lookup a b i' j' x y Hx Hy). lia.
Qed.

Lemma distance_zero a b i j :
  i <= length a -> j <= length b ->
  distance a b i j = 0 <-> i = j /\ take i a = take j b.
Proof.
  revert j. induction i as [|i IHi]; intros j Hi Hj.
  - rewrite distance_0_l. split.
    + intros ->. done.
    + intros [<- _]. done.
  - induction j as [|j IHj].
    + rewrite distance_0_r. split; [lia|]. intros [? _]. lia.
    + destruct (lookup_lt_is_Some_2 a i ltac:(lia)) as [x Hx].
      destruct (lookup_lt_is_Some_2 b j ltac:(lia)) as [y Hy].
      rewrite distance_S_S, (cost_lookup a b i j x y Hx Hy).
      rewrite (take_S_r a _ _ Hx), (take_S_r b _ _ Hy).
      specialize (IHi j ltac:(lia) ltac:(lia)).
      split.
      * intros H0. case_bool_decide as Hxy; [|lia].
        assert (distance a b i j = 0) as [-> ->]%IHi by lia.
        by subst.
      * intros [[= ->] [E1 [= <-]]%app_inj_2]; [|done].
        rewrite bool_decide_eq_true_2 by done.
        assert (distance a b j j = 0) as -> by (apply IHi; done). lia.
Qed.

(** X11. [levenshtein(a, b)] returns a number for any two strings, and it
    is the edit distance: [a] can be turned into [b] at that cost by
    deleting, inserting and replacing single characters, and at no lesser
    cost. *)
Theorem levenshtein_least_cost (a b : list N) :
  exists d, levenshtein a b = Some d
    /\ Aligned a b d
    /\ forall n, Aligned a b n -> d <= n.
Proof.
  exists (distance a b (length a) (length b)). split_and!.
  - apply levenshtein_distance.
  - pose proof (distance_Aligned a b (length a) (length b)
                  ltac:(done) ltac:(done)) as H.
    by rewrite !firstn_all in H.
  - intros n Hn.
    eapply (Aligned_distance a b a b n Hn); try done; apply firstn_all.
Qed.

(** X12. The distance that [levenshtein] returns is the same in both
    directions, it is 0 exactly for equal strings, it is at least the
    difference of the two lengths and at most the greater length. *)
Theorem levenshtein_metric (a b : list N) :
  levenshtein a b = levenshtein b a
  /\ (levenshtein a b = Some 0 <-> a = b)
  /\ exists d, levenshtein a b = Some d
       /\ length a - length b <= d /\ length b - length a <= d
       /\ d <= Nat.max (length a) (length b).
Proof.
  rewrite !levenshtein_distance. split_and!.
  - by rewrite distance_sym.
  - split.
    + intros [= H]. apply distance_zero in H as [Hl H]; [|done|done].
      by rewrite !firstn_all in H.
    + intros ->. f_equal. by apply distance_zero.
  - eexists. split; [done|]. apply distance_bounds.
Qed.

Local Close Scope nat_scope.

(** ** eval.js: the verdict on a detection *)

Lemma findAll_cons_iff text value :
  (0 <? length (findAll text value))%nat = true <->
  value <> [] /\ Occurs text value.
Proof.
  rewrite Nat.ltb_lt. split.
  - intros H. destruct value as [|v value]; [simpl in H; lia|].
    split; [done|].
    pose proof (findAll_Scanned text (v :: value) ltac:(done)) as Hs.
    destruct (findAll text (v :: value)) as [|h hits]; [simpl in H; lia|].
    inversion Hs; subst. by eexists.
  - intros [Hne [j Hj]].
    pose proof (findAll_Scanned text value Hne) as Hs.
    destruct (findAll text value) as [|h hits]; [|simpl; lia].
    inversion Hs as [i Hnone|]; subst. destruct (Hnone j); [lia|done].
Qed.

Lemma findAll_hit_bounded text value s e :
  (s, e) ∈ findAll text value ->
  hasTokenBoundary text (Z.of_nat s) (Z.of_nat e) = bounded text (s, e).
Proof.
  intros Hin. destruct value as [|v value]; [by apply elem_of_nil in Hin|].
  destruct (Scanned_bounds text (v :: value) 0 _ ltac:(done)
              (findAll_Scanned text (v :: value) ltac:(done))) as [H _].
  rewrite Forall_forall in H. specialize (H _ Hin). simpl in H.
  unfold hasTokenBoundary, bounded. simpl.
  rewrite boundary_left by (unfold len; lia).
  by rewrite boundary_right by lia.
Qed.

Lemma isEmail_not_isPhone s : isEmail s = true -> isPhone s = false.
Proof.
  unfold isEmail, isPhone. intros H.
  apply existsb_exists in H as (c & Hin & Hc). apply N.eqb_eq in Hc. subst c.
  apply andb_false_iff. left.
  assert (Hrest : In 64%N (match s with
                          | c :: rest => if (c =? 43)%N then rest else s
                          | [] => s
                          end)).
  { destruct s as [|c rest]; [done|].
    destruct (N.eqb_spec c 43) as [->|]; [|done].
    destruct Hin as [Hin|Hin]; [done|done]. }
  apply not_true_is_false. intros Hall.
  rewrite forallb_forall in Hall. by specialize (Hall _ Hrest).
Qed.

Lemma isPhone_nonEmpty s : isPhone s = true -> nonEmpty s = true.
Proof.
  unfold isPhone, nonEmpty. intros [_ H]%andb_true_iff.
  apply Nat.leb_le in H. destruct s; [simpl in H; lia|].
  by rewrite bool_decide_eq_false_2.
Qed.

Section EvaluateFacts.
Variable nfkc : list N -> list N.

(** X13. A phone-shaped value (an optional plus sign, then six or more
    digits, spaces, brackets and hyphens) is looked up by its digits only:
    it is matched exactly when it has a digit or plus sign at all and its
    digit string occurs in the digit string of the text, whatever stands
    around it.  The match then has the one normalised hit, without a
    position, and the status partial, never exact; otherwise the value is
    not found.  It is never listed as partial-only. *)
Theorem evaluateOne_phone (text raw : list N) :
  isPhone (nfkc raw) = true ->
  (evaluateOne nfkc text raw = Matched [Normalized] partial
   /\ normalizePhone (nfkc raw) <> []
   /\ Occurs (normalizePhone text) (normalizePhone (nfkc raw)))
  \/ (evaluateOne nfkc text raw = NotFound
      /\ ~ (normalizePhone (nfkc raw) <> []
            /\ Occurs (normalizePhone text) (normalizePhone (nfkc raw)))).
Proof.
  intros Hphone. unfold evaluateOne, hitsOf, findAllOccurrences.
  rewrite (isPhone_nonEmpty _ Hphone), Hphone. simpl.
  destruct (0 <? length (findAll _ _))%nat eqn:E.
  - left. by apply findAll_cons_iff in E.
  - right. split; [done|]. intros H%findAll_cons_iff. congruence.
Qed.

(** X14. A value that holds an at sign is never phone-shaped, and its
    hits are not tested for token boundaries: when it occurs in the text
    it is matched with every range that the scan reports and the status
    exact, also inside a longer word; when it does not occur it is not
    found. *)
Theorem evaluateOne_email (text raw : list N) :
  isEmail (nfkc raw) = true ->
  isPhone (nfkc raw) = false
  /\ ((evaluateOne nfkc text raw
       = Matched (List.map (fun se => Span (fst se) (snd se))
                           (findAllOccurrences text (nfkc raw))) exact
       /\ Occurs text (nfkc raw))
      \/ (evaluateOne nfkc text raw = NotFound /\ ~ Occurs text (nfkc raw))).
Proof.
  intros Hmail. pose proof (isEmail_not_isPhone _ Hmail) as Hphone.
  split; [done|].
  assert (Hne : nfkc raw <> []).
  { intros E. rewrite E in Hmail. done. }
  unfold evaluateOne, hitsOf, findAllOccurrences.
  rewrite Hphone. unfold nonEmpty. rewrite bool_decide_eq_false_2 by done.
  simpl. rewrite length_map.
  destruct (0 <? length (findAll text (nfkc raw)))%nat eqn:E.
  - left. apply findAll_cons_iff in E as E'. split; [|tauto]. simpl.
    set (hits := List.map _ _).
    assert (Hall : List.filter (isGood text (nfkc raw)) hits = hits).
    { apply filter_every. apply Forall_forall. intros h Hh.
      apply list_elem_of_In, in_map_iff in Hh as (se & <- & _). simpl.
      by rewrite Hmail, orb_true_r. }
    rewrite Hall. unfold hits at 1. rewrite length_map, E. simpl.
    replace (existsb isNormalized hits) with false; [done|].
    symmetry. apply not_true_is_false. intros (h & Hh & Hn)%existsb_exists.
    apply in_map_iff in Hh as (se & <- & _). done.
  - right. split; [done|]. intros H.
    assert (0 <? length (findAll text (nfkc raw)))%nat as E'
      by (apply Is_true_true, findAll_cons_iff; done).
    apply Is_true_true in E'. congruence.
Qed.
End EvaluateFacts.

(** ** A range inside one run *)

Section RunsOnFacts.
Variable join : N -> N -> bool.
Variable plist : list (list Run).

Lemma RunsOn_synthetic map ext :
  RunsOn plist map -> Forall (fun e => pos_o e < 0) ext ->
  RunsOn plist (map ++ ext).
Proof.
  intros Hmap Hext i e pRuns rNode k Hi Ho Hp Hr Hk.
  destruct (decide (i < length map)%nat) as [Hlt|Hge].
  - rewrite lookup_app_l in Hi by done.
    pose proof (Hmap i e pRuns rNode k Hi Ho Hp Hr Hk) as H.
    by rewrite (lookup_app_l_Some _ _ _ _ H).
  - rewrite lookup_app_r in Hi by lia.
    eapply Forall_lookup_1 in Hext; [|exact Hi]. simpl in Hext. lia.
Qed.

Lemma RunsOn_block map pIdx rIdx runs r :
  plist !! pIdx = Some runs -> runs !! rIdx = Some r ->
  RunsOn plist map ->
  RunsOn plist (map ++ List.map (fun i => mkPos pIdx rIdx (Z.of_nat i))
                                (seq 0 (length (runText r)))).
Proof.
  intros Hp Hr Hmap i e pRuns rNode k Hi Ho Hpe Hre Hk.
  destruct (decide (i < length map)%nat) as [Hlt|Hge].
  - rewrite lookup_app_l in Hi by done.
    pose proof (Hmap i e pRuns rNode k Hi Ho Hpe Hre Hk) as H.
    by rewrite (lookup_app_l_Some _ _ _ _ H).
  - rewrite lookup_app_r in Hi by lia.
    change (List.map ?f ?l) with (f <$> l) in Hi.
    rewrite list_lookup_fmap in Hi.
    destruct (seq 0 (length (runText r)) !! (i - length map)%nat) as [j|] eqn:Hj;
      [|done].
    apply lookup_seq in Hj as [-> Hj]. simpl in Hi. injection Hi as <-.
    simpl in *. rewrite Hp in Hpe. injection Hpe as <-.
    rewrite Hr in Hre. injection Hre as <-.
    rewrite lookup_app_r by lia.
    change (List.map ?f ?l) with (f <$> l).
    rewrite list_lookup_fmap, lookup_seq_lt by lia. simpl.
    do 2 f_equal. lia.
Qed.

Lemma indexRun_RunsOn pIdx rIdx runs r acc :
  plist !! pIdx = Some runs -> runs !! rIdx = Some r ->
  RunsOn plist acc.1 -> RunsOn plist (indexRun join pIdx rIdx r acc).1.
Proof.
  intros Hp Hr. destruct acc as [map full]. unfold indexRun. simpl.
  intros Hinv.
  assert (Hws : RunsOn plist
                  (map ++ replicate (wsCount r) (mkPos pIdx rIdx (-1)))).
  { apply RunsOn_synthetic; [done|]. apply Forall_replicate. simpl. lia. }
  destruct (t r) as [tNode|] eqn:Ht; [|done]. simpl.
  assert (Htext : textOf tNode = runText r) by (unfold runText; by rewrite Ht).
  rewrite Htext.
  destruct (joins join _ _); simpl.
  - apply (RunsOn_block _ pIdx rIdx runs r Hp Hr).
    apply RunsOn_synthetic; [done|]. constructor; [simpl; lia|constructor].
  - by apply (RunsOn_block _ pIdx rIdx runs r Hp Hr).
Qed.

Lemma indexRunsOf_RunsOn pIdx runs rest rIdx acc :
  plist !! pIdx = Some runs -> drop rIdx runs = rest ->
  RunsOn plist acc.1 -> RunsOn plist (indexRunsOf join pIdx rIdx rest acc).1.
Proof.
  intros Hp. revert rIdx acc.
  induction rest as [|r rest IH]; intros rIdx acc Hdrop Hacc; simpl; [done|].
  assert (Hr : runs !! rIdx = Some r).
  { rewrite <- (Nat.add_0_r rIdx), <- lookup_drop, Hdrop. done. }
  apply IH.
  - replace (S rIdx) with (rIdx + 1)%nat by lia.
    by rewrite <- drop_drop, Hdrop.
  - by eapply indexRun_RunsOn.
Qed.

Lemma indexParagraphs_RunsOn rest pIdx acc :
  drop pIdx plist = rest ->
  RunsOn plist acc.1 -> RunsOn plist (indexParagraphs join pIdx rest acc).1.
Proof.
  revert pIdx acc.
  induction rest as [|runs rest IH]; intros pIdx acc Hdrop Hacc; simpl; [done|].
  assert (Hp : plist !! pIdx = Some runs).
  { rewrite <- (Nat.add_0_r pIdx), <- lookup_drop, Hdrop. done. }
  apply IH.
  - replace (S pIdx) with (pIdx + 1)%nat by lia.
    by rewrite <- drop_drop, Hdrop.
  - eapply indexRunsOf_RunsOn; [done| |done]. apply drop_0.
Qed.
End RunsOnFacts.

Lemma indexRuns_RunsOn join paragraphs :
  RunsOn paragraphs (s_map (indexRuns join paragraphs)).
Proof.
  unfold indexRuns.
  assert (H0 : RunsOn paragraphs ([] : list Pos)).
  { intros i e pRuns rNode k Hi. done. }
  pose proof (indexParagraphs_RunsOn join paragraphs paragraphs 0 ([], [])
                (drop_0 _) H0) as H.
  by destruct (indexParagraphs join 0 paragraphs ([], [])) as [map full].
Qed.

(** From a real entry on, the map holds the rest of the run's entries. *)
Lemma indexRuns_run_entries join paragraphs (start n : nat) p r o pRuns rNode :
  let s := indexRuns join paragraphs in
  s_map s !! start = Some (mkPos p r o) -> 0 <= o ->
  paragraphs !! p = Some pRuns -> pRuns !! r = Some rNode ->
  (Z.to_nat o + n <= length (runText rNode))%nat ->
  (start + n <= length (s_map s))%nat
  /\ forall k, (k < n)%nat ->
       s_map s !! (start + k)%nat = Some (mkPos p r (o + Z.of_nat k)).
Proof.
  intros s Hstart Ho Hp Hr Hn.
  pose proof (indexRuns_RunsOn join paragraphs) as Hruns. fold s in Hruns.
  assert (Hk : forall k, (k < n)%nat ->
            s_map s !! (start + k)%nat = Some (mkPos p r (o + Z.of_nat k))).
  { intros k Hk. apply (Hruns start (mkPos p r o) pRuns rNode k); simpl;
      try done. lia. }
  split; [|done].
  destruct n as [|n]; [apply lookup_lt_Some in Hstart; lia|].
  specialize (Hk n ltac:(lia)). apply lookup_lt_Some in Hk. lia.
Qed.

(** When every text is a string, the characters of a range that lies in
    one run are the characters of the run from the entry's offset on. *)
Lemma indexRuns_run_slice join paragraphs (start n : nat) p r o pRuns rNode :
  let s := indexRuns join paragraphs in
  StringTexts paragraphs ->
  s_map s !! start = Some (mkPos p r o) -> 0 <= o ->
  paragraphs !! p = Some pRuns -> pRuns !! r = Some rNode ->
  (Z.to_nat o + n <= length (runText rNode))%nat ->
  take n (drop start (s_full s)) = take n (drop (Z.to_nat o) (runText rNode)).
Proof.
  intros s Hstr Hstart Ho Hp Hr Hn.
  destruct (indexRuns_run_entries join paragraphs start n p r o pRuns rNode
              Hstart Ho Hp Hr Hn) as [Hlen Hk]. fold s in Hlen, Hk.
  destruct (indexRuns_Resolves join paragraphs) as [_ HF]. fold s in HF.
  specialize (HF Hstr).
  apply list_eq. intros k.
  destruct (decide (k < n)%nat) as [Hlt|Hge].
  - rewrite !lookup_take_lt, !lookup_drop by done.
    destruct (Forall2_lookup_l _ _ _ _ _ HF (Hk k Hlt)) as (c & Hc & Hres).
    rewrite Hc. destruct Hres as [[Hsyn _]|(_ & pRuns' & rNode' & tNode & H1 & H2 & H3 & H4)];
      [simpl in Hsyn; lia|].
    simpl in *. rewrite Hp in H1. injection H1 as <-.
    rewrite Hr in H2. injection H2 as <-.
    unfold runText. rewrite H3. simpl. rewrite <- H4. f_equal. lia.
  - by rewrite !lookup_take_ge by lia.
Qed.

Lemma runText_mkRun text pr : runText (mkRun text pr) = text.
Proof. reflexivity. Qed.

Lemma splitRun_fragments cl st rNode txt o take_ frags b :
  splitRun cl st rNode txt o take_ = Ok frags ->
  cl (Some (JObj (props rNode))) = Ok b ->
  List.map (fun f => (runText f, props f)) frags
  = opt (nonEmpty (slice txt 0 o)) (slice txt 0 o, props rNode)
    ++ [(slice txt o (o + take_), st (props rNode) b)]
    ++ opt (nonEmpty (sliceFrom txt (o + take_)))
           (sliceFrom txt (o + take_), props rNode).
Proof.
  intros (b' & Hb' & ->)%splitRun_Ok Hb. rewrite Hb in Hb'. injection Hb' as <-.
  unfold opt.
  destruct (nonEmpty (slice txt 0 o)), (nonEmpty (sliceFrom txt (o + take_)));
    cbn -[mkRun assignOthers copyNonTextChildren props runText];
    rewrite ?props_mkRun; unfold assignOthers;
    rewrite ?props_first; reflexivity.
Qed.

(** X15. A range that lies inside one run of a freshly indexed document
    is styled in one round.  When the entry at [start] is the real entry
    of offset [o] in a run, and the run's text has at least [end - start]
    characters from [o] on, [applyStyleToRange] returns after one round.
    Only that run is replaced, by the fragments of the split: the text
    before [o] with the run's properties (if not empty), then the
    [end - start] characters of the run's text from [o] on with the
    styler's properties, then the rest of the run's text with the run's
    properties (if not empty).  When every text of the document is a
    string, the styled characters are the characters of the flattened
    text from [start] to [end]. *)
Theorem applyStyleToRange_inside_one_run
  (rev : Revision) (join : N -> N -> bool) (fuel : nat)
  (paragraphs : list (list Run)) (styler : list (string * JVal) -> bool -> list (string * JVal))
  (start end_ : Z) (p r : nat) (o : Z) (pRuns : list Run) (rNode : Run)
  (b : bool) :
  let s := indexRuns join paragraphs in
  at_ (s_map s) start = Some (mkPos p r o) -> 0 <= o ->
  paragraphs !! p = Some pRuns -> pRuns !! r = Some rNode ->
  start < end_ -> o + (end_ - start) <= len (runText rNode) ->
  classify rev (Some (JObj (props rNode))) = Ok b ->
  (2 <= fuel)%nat ->
  exists frags,
    applyStyleToRange rev fuel s start end_ styler
    = Returned (mkStruct (<[p := spliceOne pRuns r frags]> paragraphs)
                  (reindexParagraph p (spliceOne pRuns r frags) (s_map s))
                  (s_full s))
    /\ List.map (fun f => (runText f, props f)) frags
       = opt (nonEmpty (slice (runText rNode) 0 o))
             (slice (runText rNode) 0 o, props rNode)
         ++ [(slice (runText rNode) o (o + (end_ - start)),
              styler (props rNode) b)]
         ++ opt (nonEmpty (sliceFrom (runText rNode) (o + (end_ - start))))
                (sliceFrom (runText rNode) (o + (end_ - start)), props rNode)
    /\ (StringTexts paragraphs ->
        slice (runText rNode) o (o + (end_ - start))
        = slice (s_full s) start end_).
Proof.
  intros s Hat Ho Hp Hr Hse Hfit Hb Hfuel.
  apply at_Some in Hat as Hat'. destruct Hat' as [Hs0 Hstart].
  set (n := Z.to_nat (end_ - start)).
  assert (Hn : (Z.to_nat o + n <= length (runText rNode))%nat).
  { unfold len in Hfit. lia. }
  destruct (indexRuns_run_entries join paragraphs (Z.to_nat start) n p r o pRuns
              rNode Hstart Ho Hp Hr Hn) as [Hlen _].
  fold s in Hlen.
  destruct (indexRuns_Resolves join paragraphs) as [Hplist HF].
  fold s in Hplist, HF.
  (* the run has a text node, and its text is a string *)
  assert (Hnode : exists tNode, t rNode = Some tNode
                    /\ runText rNode = textOf tNode
                    /\ isAtomText tNode = false).
  { unfold runText in *. destruct (t rNode) as [tNode|]; simpl in *.
    - exists tNode. split_and!; try done.
      destruct tNode; try done. unfold len in Hfit. simpl in Hfit. lia.
    - unfold len in Hfit. simpl in Hfit. lia. }
  destruct Hnode as (tNode & Ht & Htxt & Hatom).
  (* the fragments *)
  destruct (splitRun (classify rev) styler rNode (textOf tNode) o (end_ - start))
    as [frags|] eqn:Hsplit.
  2:{ unfold splitRun in Hsplit. fold (props rNode) in Hsplit.
      unfold clone in Hsplit. by rewrite Hb in Hsplit. }
  exists frags. split_and!.
  - unfold applyStyleToRange.
    replace ((start <? 0) || (end_ <=? start) || (end_ >? len_ (s_map s)))
      with false.
    2:{ symmetry. rewrite !orb_false_iff. split_and!.
        - apply Z.ltb_ge. lia.
        - apply Z.leb_gt. lia.
        - rewrite Z.gtb_ltb. apply Z.ltb_ge. unfold len_. lia. }
    rewrite Hat.
    destruct (at_ (s_map s) (end_ - 1)) as [posE|] eqn:HposE.
    2:{ apply at_None in HposE. unfold len_ in HposE. lia. }
    destruct fuel as [|[|fuel]]; [lia|lia|].
    cbn [styleLoop].
    rewrite (proj2 (Z.ltb_lt start end_)) by done.
    rewrite Hat. cbn [pos_p pos_r pos_o]. rewrite Hplist, Hp, Hr.
    replace ((o =? -1) || (o =? -2)) with false.
    2:{ symmetry. rewrite orb_false_iff. split; apply Z.eqb_neq; lia. }
    rewrite Ht, Hatom.
    replace (Z.min (len (textOf tNode) - o) (end_ - start)) with (end_ - start)
      by (rewrite <- Htxt; lia).
    rewrite Hsplit.
    replace (start + (end_ - start)) with end_ by lia.
    by rewrite Z.ltb_irrefl.
  - by rewrite (splitRun_fragments _ _ _ _ _ _ _ b Hsplit Hb), Htxt.
  - intros Hstr.
    pose proof (indexRuns_run_slice join paragraphs (Z.to_nat start) n p r o
                  pRuns rNode Hstr Hstart Ho Hp Hr Hn) as Hslice.
    fold s in Hslice.
    assert (Hfull : length (s_full s) = length (s_map s))
      by (symmetry; eapply Forall2_length; by apply HF).
    rewrite !slice_nat by lia.
    replace (Z.to_nat (Z.min (o + (end_ - start)) (len (runText rNode)))
             - Z.to_nat (Z.min o (len (runText rNode))))%nat with n
      by (unfold n; lia).
    replace (Z.to_nat (Z.min end_ (len (s_full s)))
             - Z.to_nat (Z.min start (len (s_full s))))%nat with n
      by (unfold len, n; lia).
    replace (Z.to_nat (Z.min o (len (runText rNode)))) with (Z.to_nat o)
      by lia.
    replace (Z.to_nat (Z.min start (len (s_full s)))) with (Z.to_nat start)
      by (unfold len; lia).
    by rewrite Hslice.
Qed.

Lemma applyStyleToRange_inside_one_run_witness :
  StringTexts scenarioDoc
  /\ exists frags,
    applyStyleToRange revBoldRed 2 (indexRuns shouldAddSpace scenarioDoc) 4 17
                      (chooseOverlay true)
    = Returned
        (mkStruct
           (<[0%nat := spliceOne
                         [mkRunNode (Some boldRed) (Some (TStr scenarioText)) []]
                         0 frags]> scenarioDoc)
           (reindexParagraph 0
              (spliceOne [mkRunNode (Some boldRed) (Some (TStr scenarioText)) []]
                         0 frags)
              (s_map (indexRuns shouldAddSpace scenarioDoc)))
           (s_full (indexRuns shouldAddSpace scenarioDoc)))
    /\ List.map (fun f => (runText f, props f)) frags
       = [(u "Dr. ", boldRed); (scenarioValue, exactKeys boldRed)]
    /\ (StringTexts scenarioDoc ->
        scenarioValue = slice (s_full (indexRuns shouldAddSpace scenarioDoc)) 4 17).
Proof.
  split; [by repeat constructor|].
  apply (applyStyleToRange_inside_one_run revBoldRed shouldAddSpace 2
           scenarioDoc (chooseOverlay true) 4 17 0 0 4
           [mkRunNode (Some boldRed) (Some (TStr scenarioText)) []]
           (mkRunNode (Some boldRed) (Some (TStr scenarioText)) []) true);
    try reflexivity; lia.
Defined.

Lemma filter_map_Span (f : nat * nat -> bool) (g : Hit -> bool)
  (l : list (nat * nat)) :
  (forall se, se ∈ l -> g (Span (fst se) (snd se)) = f se) ->
  List.filter g (List.map (fun se => Span (fst se) (snd se)) l)
  = List.map (fun se => Span (fst se) (snd se)) (List.filter f l).
Proof.
  induction l as [|se l IH]; intros H; simpl; [done|].
  rewrite (H se) by (by left). rewrite IH by (intros; apply H; by right).
  by destruct (f se).
Qed.

Lemma existsb_isNormalized_Span (l : list (nat * nat)) :
  existsb isNormalized (List.map (fun se => Span (fst se) (snd se)) l) = false.
Proof. induction l as [|se l IH]; simpl; done. Qed.

Section EvaluatePlain.
Variable nfkc : list N -> list N.

(** X16. A value that is neither phone-shaped nor holds an at sign is
    judged by the ranges of the left-to-right scan.  With no range it is
    not found.  Else the ranges are kept that have a boundary character,
    or nothing, on both sides; for a range of the scan this is all that
    [hasTokenBoundary] tests.  With none kept the value is listed as
    partial only; else it is matched with the kept ranges, in order, and
    the status exact. *)
Theorem evaluateOne_plain (text raw : list N) :
  isPhone (nfkc raw) = false -> isEmail (nfkc raw) = false ->
  evaluateOne nfkc text raw
  = match findAllOccurrences text (nfkc raw) with
    | [] => NotFound
    | _ :: _ =>
        match List.filter (bounded text) (findAllOccurrences text (nfkc raw)) with
        | [] => PartialOnly
        | good =>
            Matched (List.map (fun se => Span (fst se) (snd se)) good) exact
        end
    end.
Proof.
  intros Hphone Hmail. unfold evaluateOne, hitsOf, findAllOccurrences.
  rewrite Hphone.
  destruct (nonEmpty (nfkc raw)) eqn:Hne; simpl.
  2:{ apply negb_false_iff, bool_decide_eq_true in Hne. by rewrite Hne. }
  rewrite length_map.
  destruct (findAll text (nfkc raw)) as [|h hits] eqn:Hhits; [done|].
  cbn [length Nat.ltb Nat.leb negb]. rewrite <- Hhits.
  rewrite (filter_map_Span (bounded text)).
  2:{ intros [s e] Hin. simpl. rewrite Hmail, orb_false_r.
      by eapply findAll_hit_bounded. }
  rewrite length_map, existsb_isNormalized_Span.
  destruct (List.filter (bounded text) (findAll text (nfkc raw))); done.
Qed.
End EvaluatePlain.

Lemma evaluateOne_plain_witness :
  evaluateOne (fun s => s) (u "an art startup") (u "art")
  = Matched [Span 3 6] exact.
Proof.
  apply (evaluateOne_plain (fun s => s) (u "an art startup") (u "art"));
    reflexivity.
Defined.

Lemma evaluateOne_phone_witness :
  (evaluateOne (fun s => s) (u "call +49 (30) 1234-567 now") (u "+49 30 1234567")
   = Matched [Normalized] partial
   /\ normalizePhone (u "+49 30 1234567") <> []
   /\ Occurs (normalizePhone (u "call +49 (30) 1234-567 now"))
             (normalizePhone (u "+49 30 1234567")))
  \/ (evaluateOne (fun s => s) (u "call +49 (30) 1234-567 now") (u "+49 30 1234567")
      = NotFound
      /\ ~ (normalizePhone (u "+49 30 1234567") <> []
            /\ Occurs (normalizePhone (u "call +49 (30) 1234-567 now"))
                      (normalizePhone (u "+49 30 1234567")))).
Proof.
  apply (evaluateOne_phone (fun s => s) (u "call +49 (30) 1234-567 now")
           (u "+49 30 1234567")).
  reflexivity.
Defined.

Lemma evaluateOne_email_witness :
  isPhone (u "a@b.io") = false
  /\ ((evaluateOne (fun s => s) (u "mailto:a@b.ioX") (u "a@b.io")
       = Matched [Span 7 13] exact
       /\ Occurs (u "mailto:a@b.ioX") (u "a@b.io"))
      \/ (evaluateOne (fun s => s) (u "mailto:a@b.ioX") (u "a@b.io") = NotFound
          /\ ~ Occurs (u "mailto:a@b.ioX") (u "a@b.io"))).
Proof.
  apply (evaluateOne_email (fun s => s) (u "mailto:a@b.ioX") (u "a@b.io")).
  reflexivity.
Defined.

(** *** The three lists *)

Section EvaluateLists.
Variable nfkc : list N -> list N.

Lemma evaluate_fold text detections acc :
  let acc' := fold_left (evaluateStep nfkc text) detections acc in
  ev_notFound acc'
  = ev_notFound acc
    ++ List.filter (fun d => isNotFound (evaluateOne nfkc text d)) detections
  /\ ev_partials acc'
     = ev_partials acc
       ++ List.filter (fun d => isPartialOnly (evaluateOne nfkc text d))
                      detections
  /\ List.map (fun m => m.1.1) (ev_matched acc')
     = List.map (fun m => m.1.1) (ev_matched acc)
       ++ List.filter (fun d => isMatched (evaluateOne nfkc text d)) detections
  /\ (Forall (fun m => evaluateOne nfkc text m.1.1 = Matched m.1.2 m.2)
             (ev_matched acc)
      -> Forall (fun m => evaluateOne nfkc text m.1.1 = Matched m.1.2 m.2)
                (ev_matched acc')).
Proof.
  revert acc. induction detections as [|raw ds IH]; intros acc; cbn zeta.
  - simpl. by rewrite !app_nil_r.
  - cbn [fold_left List.filter].
    destruct (IH (evaluateStep nfkc text acc raw)) as (H1 & H2 & H3 & H4).
    rewrite H1, H2, H3. clear H1 H2 H3.
    unfold evaluateStep in *.
    destruct (evaluateOne nfkc text raw) as [| |hits status] eqn:E; simpl in *.
    + rewrite <- !app_assoc. by split_and!.
    + rewrite <- !app_assoc. by split_and!.
    + rewrite map_app, <- !app_assoc. split_and!; try done.
      intros Hacc. apply H4. apply Forall_app. split; [done|].
      by constructor.
Qed.

(** X17. [evaluateDetections] files every detection once: under
    [notFound], [partials] or [matched], by the verdict on its value, and
    each of the three lists keeps the order of the input.  A matched
    entry carries the good hits and the status of that verdict. *)
Theorem evaluateDetections_files_each_once
  (docText : list N) (detections : list (list N)) :
  let text := nfkc docText in
  let r := evaluateDetections nfkc docText detections in
  ev_notFound r
  = List.filter (fun d => isNotFound (evaluateOne nfkc text d)) detections
  /\ ev_partials r
     = List.filter (fun d => isPartialOnly (evaluateOne nfkc text d)) detections
  /\ List.map (fun m => m.1.1) (ev_matched r)
     = List.filter (fun d => isMatched (evaluateOne nfkc text d)) detections
  /\ Forall (fun m => evaluateOne nfkc text m.1.1 = Matched m.1.2 m.2)
            (ev_matched r)
  /\ (length (ev_matched r) + length (ev_notFound r) + length (ev_partials r)
      = length detections)%nat.
Proof.
  intros text r.
  destruct (evaluate_fold text detections (mkEvaluation [] [] []))
    as (H1 & H2 & H3 & H4).
  change (fold_left (evaluateStep nfkc text) detections (mkEvaluation [] [] []))
    with r in H1, H2, H3, H4.
  simpl in H1, H2, H3, H4.
  split_and!; try done; [by apply H4|].
  rewrite <- (length_map (fun m => m.1.1) (ev_matched r)), H1, H2, H3.
  clear. induction detections as [|d ds IH]; simpl; [done|].
  destruct (evaluateOne nfkc text d); simpl; lia.
Qed.
End EvaluateLists.

(** ** text-masker.js: merging and masking *)

Local Open Scope nat_scope.

Lemma covered_app rs1 rs2 i : covered (rs1 ++ rs2) i = covered rs1 i || covered rs2 i.
Proof. unfold covered. apply existsb_app. Qed.

Lemma covered_insertBy r rs i :
  covered (insertBy fst r rs) i = covered (r :: rs) i.
Proof.
  induction rs as [|x rs IH]; [done|]. simpl.
  destruct (fst r <=? fst x); [done|]. simpl.
  change (existsb _ (insertBy fst r rs)) with (covered (insertBy fst r rs) i).
  rewrite IH. simpl.
  by destruct ((fst x <=? i) && (i <? snd x)), ((fst r <=? i) && (i <? snd r)).
Qed.

Lemma covered_sortBy rs i : covered (sortBy fst rs) i = covered rs i.
Proof.
  induction rs as [|r rs IH]; [done|]. simpl.
  by rewrite covered_insertBy; simpl; rewrite <- IH.
Qed.

Lemma Forall_insertBy {A} (P : A -> Prop) key x (l : list A) :
  P x -> Forall P l -> Forall P (insertBy key x l).
Proof.
  intros Hx. induction 1 as [|y l Hy Hl IH]; simpl; [by constructor|].
  destruct (key x <=? key y); by repeat constructor.
Qed.

Lemma Forall_sortBy {A} (P : A -> Prop) key (l : list A) :
  Forall P l -> Forall P (sortBy key l).
Proof.
  induction 1 as [|x l Hx Hl IH]; simpl; [done|by apply Forall_insertBy].
Qed.

Lemma insertBy_Ordered {A} (key : A -> nat) x (l : list A) :
  Ordered key l -> Ordered key (insertBy key x l).
Proof.
  induction l as [|y l IH]; simpl; [done|]. intros [Hy Hl].
  destruct (Nat.leb_spec (key x) (key y)) as [Hle|Hgt]; simpl.
  - split_and!; [|done|done]. constructor; [done|].
    eapply Forall_impl; [exact Hy|]. simpl. intros z. lia.
  - split; [|by apply IH]. apply Forall_insertBy; [lia|done].
Qed.

Lemma sortBy_Ordered {A} (key : A -> nat) (l : list A) :
  Ordered key (sortBy key l).
Proof. induction l as [|x l IH]; simpl; [done|by apply insertBy_Ordered]. Qed.

Lemma sortBy_id {A} (key : A -> nat) (l : list A) :
  Ordered key l -> sortBy key l = l.
Proof.
  induction l as [|x l IH]; simpl; [done|]. intros [Hx Hl].
  rewrite IH by done. destruct Hx as [|y l Hy _]; simpl; [done|].
  by rewrite (proj2 (Nat.leb_le _ _)).
Qed.

Lemma mergeStep_fold rest front cur :
  fold_left mergeStep rest (front ++ [cur]) = front ++ mergeFrom cur rest.
Proof.
  revert front cur. induction rest as [|x rest IH]; intros front cur; simpl;
    [done|].
  unfold mergeStep at 2. rewrite last_snoc. simpl.
  destruct (fst x <=? snd cur).
  - rewrite removelast_last. apply IH.
  - rewrite (IH (front ++ [cur]) x). by rewrite <- app_assoc.
Qed.

Lemma mergeRanges_mergeFrom ranges :
  mergeRanges ranges
  = match sortBy fst ranges with
    | [] => []
    | first :: rest => mergeFrom first rest
    end.
Proof.
  unfold mergeRanges. destruct (sortBy fst ranges) as [|first rest]; [done|].
  apply (mergeStep_fold rest [] first).
Qed.

Lemma mergeFrom_spec cur rest hi :
  Ordered fst (cur :: rest) ->
  Forall (fun r => fst r <= snd r <= hi) (cur :: rest) ->
  (forall i, covered (mergeFrom cur rest) i = covered (cur :: rest) i)
  /\ ChainFrom (fst cur) (mergeFrom cur rest) hi
  /\ Ordered fst (mergeFrom cur rest)
  /\ (exists e tail, mergeFrom cur rest = (fst cur, e) :: tail
        /\ Forall (fun r => e < fst r) tail).
Proof.
  revert cur. induction rest as [|x rest IH]; intros cur Hord Hval.
  - simpl. apply Forall_cons in Hval as [Hcur _].
    split; [done|]. split; [lia|]. split; [done|].
    exists (snd cur), []. split; [by destruct cur|constructor].
  - apply Forall_cons in Hval as [Hcur Hval].
    apply Forall_cons in Hval as Hval'. destruct Hval' as [Hx Hrest].
    destruct Hord as [Hcurle [Hxle Hord]].
    apply Forall_cons in Hcurle as [Hcx Hcrest].
    cbn [mergeFrom].
    destruct (Nat.leb_spec (fst x) (snd cur)) as [Hle|Hgt].
    + destruct (IH (fst cur, Nat.max (snd cur) (snd x))) as (H1 & H2 & H3 & H4).
      { simpl. done. }
      { constructor; [simpl; lia|done]. }
      split; [|done].
      intros i. rewrite H1. simpl.
      destruct (Nat.leb_spec (fst cur) i), (Nat.ltb_spec i (snd cur)),
        (Nat.leb_spec (fst x) i), (Nat.ltb_spec i (snd x)),
        (Nat.ltb_spec i (Nat.max (snd cur) (snd x))); simpl; try done; lia.
    + destruct (IH x) as (H1 & H2 & H3 & e & tail & H4 & H5); [done|done|].
      split; [|split; [|split]].
      * intros i. simpl. change (existsb _ (mergeFrom x rest))
          with (covered (mergeFrom x rest) i). by rewrite H1.
      * simpl. split; [lia|]. split; [lia|].
        rewrite H4 in H2 |- *. simpl in H2 |- *. split; [lia|tauto].
      * simpl. split; [|done]. rewrite H4. constructor; [simpl; lia|].
        rewrite H4 in H3. destruct H3 as [H3 _].
        eapply Forall_impl; [exact H3|]. simpl. intros r. lia.
      * exists (snd cur), (mergeFrom x rest). split; [by destruct cur|].
        rewrite H4. constructor; [simpl; lia|].
        eapply Forall_impl; [exact H5|]. simpl. intros r.
        rewrite H4 in H2. simpl in H2. lia.
Qed.

Lemma mergeFrom_Gapped cur rest :
  Gapped (mergeFrom cur rest)
  /\ exists e tail, mergeFrom cur rest = (fst cur, e) :: tail.
Proof.
  revert cur. induction rest as [|x rest IH]; intros cur.
  - simpl. split; [done|]. exists (snd cur), []. by destruct cur.
  - cbn [mergeFrom].
    destruct (Nat.leb_spec (fst x) (snd cur)) as [Hle|Hgt].
    + apply (IH (fst cur, Nat.max (snd cur) (snd x))).
    + destruct (IH x) as (H1 & e & tail & H2).
      split; [|exists (snd cur), (mergeFrom x rest); by destruct cur].
      simpl. rewrite H2 in H1 |- *. simpl. split; [lia|done].
Qed.

(** X18. [mergeRanges] returns ranges that are ordered by start and lie
    strictly apart, each starting after the end of the one before, and
    that cover the same positions as the ranges given: a position lies in
    a merged range exactly when it lies in one of the given ranges.  (The
    given ranges may come in any order and overlap; none may end before it
    starts.) *)
Theorem mergeRanges_same_cover (ranges : list (nat * nat)) :
  Forall (fun r => fst r <= snd r) ranges ->
  (forall i, covered (mergeRanges ranges) i = covered ranges i)
  /\ Gapped (mergeRanges ranges)
  /\ Forall (fun r => fst r <= snd r) (mergeRanges ranges).
Proof.
  intros Hval. rewrite mergeRanges_mergeFrom.
  pose proof (sortBy_Ordered fst ranges) as Hord.
  pose proof (Forall_sortBy _ fst _ Hval) as Hval'.
  pose proof (covered_sortBy ranges) as Hcov.
  destruct (sortBy fst ranges) as [|first rest] eqn:E.
  - split_and!; [|done|done]. intros i. by rewrite <- Hcov.
  - set (hi := list_max (List.map snd (first :: rest))).
    assert (Hhi : Forall (fun r => fst r <= snd r <= hi) (first :: rest)).
    { apply Forall_forall. intros r Hr. rewrite Forall_forall in Hval'.
      split; [by apply Hval'|].
      assert (Hin : In (snd r) (List.map snd (first :: rest)))
        by (apply in_map, list_elem_of_In, Hr).
      pose proof (proj1 (list_max_le (List.map snd (first :: rest)) hi)
                    (Nat.le_refl _)) as Hall.
      rewrite List.Forall_forall in Hall. by apply Hall. }
    destruct (mergeFrom_spec first rest hi Hord Hhi) as (H1 & H2 & _).
    destruct (mergeFrom_Gapped first rest) as (H3 & _).
    split_and!; [|done|].
    + intros i. by rewrite H1, <- Hcov.
    + clear -H2. revert H2. generalize (fst first).
      induction (mergeFrom first rest) as [|r l IH]; intros lo; simpl;
        [done|].
      intros (_ & Hr & Hl). constructor; [done|by eapply IH].
Qed.

Lemma mergeRanges_same_cover_witness :
  (forall i, covered (mergeRanges [(6, 9); (0, 4); (3, 5)]) i
             = covered [(6, 9); (0, 4); (3, 5)] i)
  /\ Gapped (mergeRanges [(6, 9); (0, 4); (3, 5)])
  /\ Forall (fun r => fst r <= snd r) (mergeRanges [(6, 9); (0, 4); (3, 5)]).
Proof.
  apply (mergeRanges_same_cover [(6, 9); (0, 4); (3, 5)]).
  repeat constructor.
Defined.

(** *** Masking *)

Lemma substring_ordered text a b :
  a <= b -> b <= length text -> substring text a b = take (b - a) (drop a text).
Proof.
  intros Hab Hb. unfold substring. cbv zeta.
  rewrite (Nat.min_l a), (Nat.min_l b) by lia.
  by rewrite Nat.max_r, Nat.min_l by lia.
Qed.

Lemma maskStep_fold text ranges result lastEnd :
  (let '(result', lastEnd') := fold_left (maskStep text) ranges (result, lastEnd) in
   result' ++ substring text lastEnd' (length text))
  = result ++ maskRest text lastEnd ranges.
Proof.
  revert result lastEnd. induction ranges as [|r rest IH]; intros result lastEnd;
    simpl; [done|].
  rewrite IH. by rewrite <- !app_assoc.
Qed.

Lemma covered_before ranges lo hi i :
  ChainFrom lo ranges hi -> i < lo -> covered ranges i = false.
Proof.
  revert lo. induction ranges as [|r rest IH]; intros lo; simpl; [done|].
  intros (Hlo & Hr & Hrest) Hi.
  rewrite (proj2 (Nat.leb_gt _ _)) by lia. simpl.
  apply (IH (snd r)); [done|lia].
Qed.

Lemma ChainFrom_le lo ranges hi : ChainFrom lo ranges hi -> lo <= hi.
Proof.
  revert lo. induction ranges as [|r rest IH]; intros lo; simpl; [done|].
  intros (Hlo & Hr & Hrest). apply IH in Hrest. lia.
Qed.

Lemma imap_id_ext {A} (f : nat -> A -> A) (l : list A) :
  (forall i x, l !! i = Some x -> f i x = x) -> imap f l = l.
Proof.
  revert f. induction l as [|x l IH]; intros f Hf; simpl; [done|].
  rewrite (Hf 0 x) by done. f_equal. apply IH. intros i y Hy. by apply (Hf (S i)).
Qed.

Lemma imap_map_ext {A B} (f : nat -> A -> B) (g : A -> B) (l : list A) :
  (forall i x, l !! i = Some x -> f i x = g x) -> imap f l = List.map g l.
Proof.
  revert f. induction l as [|x l IH]; intros f Hf; simpl; [done|].
  rewrite (Hf 0 x) by done. f_equal. apply IH. intros i y Hy. by apply (Hf (S i)).
Qed.

Lemma maskRest_spec text ranges lo :
  ChainFrom lo ranges (length text) ->
  maskRest text lo ranges
  = imap (fun k c => if covered ranges (lo + k) then maskChar c else c)
         (drop lo text).
Proof.
  revert lo. induction ranges as [|[a b] rest IH]; intros lo; simpl.
  - intros Hlo. rewrite substring_ordered by lia.
    rewrite take_ge by (rewrite length_drop; lia).
    by rewrite imap_id_ext.
  - intros (Hlo & Hab & Hrest). pose proof (ChainFrom_le _ _ _ Hrest) as Hb.
    rewrite !substring_ordered by lia. rewrite (IH b Hrest).
    assert (Hsplit : drop lo text
                     = take (a - lo) (drop lo text)
                       ++ take (b - a) (drop a text) ++ drop b text).
    { rewrite <- (take_drop (a - lo) (drop lo text)) at 1. f_equal.
      rewrite drop_drop. replace (lo + (a - lo)) with a by lia.
      rewrite <- (take_drop (b - a) (drop a text)) at 1. f_equal.
      rewrite drop_drop. f_equal. lia. }
    rewrite Hsplit at 2. rewrite !imap_app.
    assert (L1 : length (take (a - lo) (drop lo text)) = a - lo)
      by (rewrite length_take, length_drop; lia).
    assert (L2 : length (take (b - a) (drop a text)) = b - a)
      by (rewrite length_take, length_drop; lia).
    f_equal; [|f_equal].
    + symmetry. apply imap_id_ext. intros k c Hk.
      apply lookup_lt_Some in Hk. rewrite L1 in Hk.
      rewrite (proj2 (Nat.leb_gt a (lo + k))) by lia. simpl.
      change (existsb _ rest) with (covered rest (lo + k)).
      by rewrite (covered_before rest b (length text)) by (done || lia).
    + symmetry. apply imap_map_ext. intros k c Hk.
      apply lookup_lt_Some in Hk. rewrite L2 in Hk. rewrite L1.
      rewrite (proj2 (Nat.leb_le a (lo + (a - lo + k)))) by lia.
      by rewrite (proj2 (Nat.ltb_lt (lo + (a - lo + k)) b)) by lia.
    + apply imap_ext. intros k c Hk. simpl. rewrite L1, L2.
      replace (lo + (a - lo + (b - a + k))) with (b + k) by lia.
      rewrite (proj2 (Nat.ltb_ge (b + k) b)) by lia.
      by rewrite andb_false_r.
Qed.

Lemma ChainFrom_Ordered lo ranges hi :
  ChainFrom lo ranges hi ->
  Ordered fst ranges /\ Forall (fun r => lo <= fst r) ranges.
Proof.
  revert lo. induction ranges as [|r rest IH]; intros lo; simpl; [done|].
  intros (Hlo & Hr & Hrest). destruct (IH _ Hrest) as [H1 H2].
  split_and!; [|done|].
  - eapply Forall_impl; [exact H2|]. simpl. intros y. lia.
  - constructor; [done|]. eapply Forall_impl; [exact H2|]. simpl. intros y. lia.
Qed.

(** Ranges that follow one another are masked one by one. *)
Lemma maskTextRanges_chain text ranges :
  ChainFrom 0 ranges (length text) ->
  maskTextRanges text ranges = maskWhere (covered ranges) text.
Proof.
  intros Hchain. unfold maskTextRanges, maskWhere.
  destruct ranges as [|r rest] eqn:E.
  - by rewrite imap_id_ext.
  - rewrite <- E in *. clear E.
    rewrite sortBy_id by (by eapply ChainFrom_Ordered).
    rewrite (maskStep_fold text ranges [] 0). simpl.
    by rewrite (maskRest_spec text ranges 0 Hchain), drop_0.
Qed.

(** Masking after merging is masking at the positions that the given
    ranges cover. *)
Lemma maskTextRanges_merged (text : list N) (ranges : list (nat * nat)) :
  Forall (fun r => fst r <= snd r <= length text) ranges ->
  maskTextRanges text (mergeRanges ranges) = maskWhere (covered ranges) text.
Proof.
  intros Hval.
  assert (Hval' : Forall (fun r => fst r <= snd r) ranges).
  { eapply Forall_impl; [exact Hval|]. simpl. intros r. lia. }
  rewrite maskTextRanges_chain.
  - unfold maskWhere. apply imap_ext. intros i c _. simpl.
    rewrite mergeRanges_mergeFrom.
    pose proof (covered_sortBy ranges i) as Hcov.
    pose proof (sortBy_Ordered fst ranges) as Hord.
    pose proof (Forall_sortBy _ fst _ Hval) as Hs.
    destruct (sortBy fst ranges) as [|first rest]; [by rewrite <- Hcov|].
    destruct (mergeFrom_spec first rest (length text) Hord Hs) as (H1 & _).
    by rewrite H1, Hcov.
  - rewrite mergeRanges_mergeFrom.
    pose proof (sortBy_Ordered fst ranges) as Hord.
    pose proof (Forall_sortBy _ fst _ Hval) as Hs.
    destruct (sortBy fst ranges) as [|first rest]; [simpl; lia|].
    destruct (mergeFrom_spec first rest (length text) Hord Hs) as (_ & H2 & _).
    clear -H2. revert H2. generalize (fst first) as lo.
    destruct (mergeFrom first rest) as [|r l]; simpl; intros lo; [lia|].
    intros (H1 & H2 & H3). split_and!; [lia|done|done].
Qed.


(** X19. Masking after merging, as [maskPdf] and [maskDoc] do it: for
    ranges inside the text, in any order and overlapping or not, the
    masked text is as long as the text, every character that lies in one
    of the ranges and is not white space is an X, and every other
    character is the one of the text. *)
Theorem mask_merged_ranges (text : list N) (ranges : list (nat * nat)) :
  Forall (fun r => fst r <= snd r <= length text) ranges ->
  length (maskTextRanges text (mergeRanges ranges)) = length text
  /\ forall i c, text !! i = Some c ->
       maskTextRanges text (mergeRanges ranges) !! i
       = Some (if covered ranges i then maskChar c else c).
Proof.
  intros Hval. rewrite (maskTextRanges_merged text ranges Hval).
  unfold maskWhere. split; [by rewrite length_imap|].
  intros i c Hc. by rewrite list_lookup_imap, Hc.
Qed.

Lemma mask_merged_ranges_witness :
  length (maskTextRanges (u "call Ann Lee now")
            (mergeRanges [(9, 12); (5, 8); (5, 12)]))
  = length (u "call Ann Lee now")
  /\ forall i c, u "call Ann Lee now" !! i = Some c ->
       maskTextRanges (u "call Ann Lee now")
         (mergeRanges [(9, 12); (5, 8); (5, 12)]) !! i
       = Some (if covered [(9, 12); (5, 8); (5, 12)] i then maskChar c else c).
Proof.
  apply (mask_merged_ranges (u "call Ann Lee now") [(9, 12); (5, 8); (5, 12)]).
  repeat constructor.
Defined.

Local Close Scope nat_scope.

(** ** The runs of the reviewed document *)

Local Open Scope nat_scope.

Lemma partitionStep_fold text ranges runs cursor :
  (let '(runs', cursor') :=
     fold_left (partitionStep text) ranges (runs, cursor) in
   if cursor' <? length text
   then runs' ++ [(sliceFrom text (Z.of_nat cursor'), plainStyle)]
   else runs')
  = runs ++ partitionRest text cursor ranges.
Proof.
  revert runs cursor. induction ranges as [|r rest IH]; intros runs cursor;
    simpl.
  - destruct (cursor <? length text); [done|by rewrite app_nil_r].
  - rewrite IH. destruct (cursor <? m_start r); simpl;
      by rewrite <- ?app_assoc.
Qed.

Lemma slice_ordered (text : list N) (a b : nat) :
  a <= b -> b <= length text ->
  slice text (Z.of_nat a) (Z.of_nat b) = take (b - a) (drop a text).
Proof.
  intros Hab Hb. rewrite slice_nat by lia. unfold len. f_equal; [lia|].
  f_equal. lia.
Qed.

Lemma partitionRest_spec text ranges lo :
  ChainFrom lo (List.map spanOf ranges) (length text) ->
  concat (List.map fst (partitionRest text lo ranges)) = drop lo text
  /\ List.filter isStyled (partitionRest text lo ranges)
     = List.map (fun r => (take (m_end r - m_start r) (drop (m_start r) text),
                           styleOf (m_kind r))) ranges
  /\ Forall (fun run => isStyled run = false -> fst run <> [])
            (partitionRest text lo ranges).
Proof.
  revert lo. induction ranges as [|r rest IH]; intros lo; simpl.
  - intros Hlo. destruct (Nat.ltb_spec lo (length text)) as [Hlt|Hge]; simpl.
    + unfold sliceFrom, len.
      rewrite (slice_ordered text lo (length text)) by lia.
      rewrite take_ge by (rewrite length_drop; lia).
      rewrite app_nil_r. split_and!; [done|done|].
      constructor; [|constructor]. simpl. intros _ E.
      apply (f_equal length) in E. rewrite length_drop in E. simpl in E. lia.
    + rewrite drop_ge by lia. by split_and!.
  - intros (Hlo & Hr & Hrest). pose proof (ChainFrom_le _ _ _ Hrest) as Hb.
    simpl in Hb. destruct (IH _ Hrest) as (H1 & H2 & H3).
    rewrite !slice_ordered by lia.
    assert (Hmid : take (m_end r - m_start r) (drop (m_start r) text)
                   ++ drop (m_end r) text = drop (m_start r) text).
    { rewrite <- (take_drop (m_end r - m_start r) (drop (m_start r) text)) at 2.
      f_equal. rewrite drop_drop. f_equal. lia. }
    assert (Hsty : isStyled (take (m_end r - m_start r) (drop (m_start r) text),
                             styleOf (m_kind r)) = true)
      by (by destruct (m_kind r)).
    destruct (Nat.ltb_spec lo (m_start r)) as [Hlt|Hge]; simpl.
    + rewrite Hsty, H1, H2, Hmid. split_and!; [|done|].
      * rewrite <- (take_drop (m_start r - lo) (drop lo text)) at 2. f_equal.
        rewrite drop_drop. f_equal. lia.
      * constructor; [|constructor; [by rewrite Hsty|done]].
        simpl. intros _ E. apply (f_equal length) in E.
        rewrite length_take, length_drop in E. simpl in E. lia.
    + rewrite Hsty, H1, H2, Hmid. split_and!; [|done|].
      * f_equal. lia.
      * constructor; [by rewrite Hsty|done].
Qed.

(** X20. [partitionTextToRuns] cuts the text along the ranges it is
    given.  When the ranges follow one another inside the text (none
    starts before the one before has ended; the hits of one scan are
    such), the texts of the runs, one after the other, are the text; the
    styled runs are, in order, the ranges, each with the characters of the
    text it spans and the style of its kind; and no plain run is empty. *)
Theorem partitionTextToRuns_cuts_text (text : list N) (ranges : list Marked) :
  ChainFrom 0 (List.map spanOf ranges) (length text) ->
  concat (List.map fst (partitionTextToRuns text ranges)) = text
  /\ List.filter isStyled (partitionTextToRuns text ranges)
     = List.map (fun r => (take (m_end r - m_start r) (drop (m_start r) text),
                           styleOf (m_kind r))) ranges
  /\ Forall (fun run => isStyled run = false -> fst run <> [])
            (partitionTextToRuns text ranges).
Proof.
  intros Hchain. unfold partitionTextToRuns.
  assert (Hord : Ordered m_start ranges).
  { apply ChainFrom_Ordered in Hchain as [Hord _]. clear -Hord.
    induction ranges as [|r rest IH]; [done|].
    cbn [List.map Ordered] in *. destruct Hord as [H1 H2].
    split; [|by apply IH].
    apply Forall_forall. intros y Hy. rewrite Forall_forall in H1.
    apply (H1 (spanOf y)). apply list_elem_of_In, in_map, list_elem_of_In, Hy. }
  rewrite sortBy_id by done.
  rewrite (partitionStep_fold text ranges [] 0). simpl.
  destruct (partitionRest_spec text ranges 0 Hchain) as (H1 & H2 & H3).
  by rewrite drop_0 in H1.
Qed.

Lemma partitionTextToRuns_cuts_text_witness :
  concat (List.map fst (partitionTextToRuns (u "an art startup")
                          [mkMarked 3 6 exact]))
  = u "an art startup"
  /\ List.filter isStyled (partitionTextToRuns (u "an art startup")
                             [mkMarked 3 6 exact])
     = [(u "art", exactStyle)]
  /\ Forall (fun run => isStyled run = false -> fst run <> [])
            (partitionTextToRuns (u "an art startup") [mkMarked 3 6 exact]).
Proof.
  apply (partitionTextToRuns_cuts_text (u "an art startup")
           [mkMarked 3 6 exact]).
  simpl. lia.
Defined.

Local Close Scope nat_scope.

(** ** The image masker's edit distance *)

Local Open Scope nat_scope.

Lemma setAt_inside row j v : j < length row -> setAt row j v = <[j := v]> row.
Proof. intros Hj. unfold setAt. by rewrite (proj2 (Nat.ltb_lt _ _)). Qed.

Section Filled.
Variable a b : list N.

Lemma FilledAt_cell P dp i j :
  FilledAt a b P dp -> i <= length a -> j <= length b -> P i j ->
  cell dp i j = Some (distance a b i j).
Proof.
  intros [_ H] Hi Hj HP. destruct (H i Hi) as (row & Hrow & _ & Hcells).
  unfold cell. rewrite Hrow. simpl. by rewrite (Hcells j Hj HP).
Qed.

Lemma FilledAt_set (P Q : nat -> nat -> Prop) dp i j :
  FilledAt a b P dp -> i <= length a -> j <= length b ->
  (forall i' j', Q i' j' -> P i' j' \/ (i' = i /\ j' = j)) ->
  FilledAt a b Q (setCell dp i j (Some (distance a b i j))).
Proof.
  intros [Hlen H] Hi Hj HQ. unfold setCell. split; [by rewrite length_alter|].
  intros i' Hi'. destruct (H i' Hi') as (row & Hrow & Hrl & Hcells).
  destruct (decide (i' = i)) as [->|Hne].
  - exists (setAt row j (Some (distance a b i j))).
    rewrite list_lookup_alter_eq, Hrow. simpl. split; [done|].
    rewrite setAt_inside by lia. split; [by rewrite length_insert|].
    intros j' Hj' Hq. destruct (decide (j' = j)) as [->|Hnej].
    + by rewrite list_lookup_insert_eq by lia.
    + rewrite list_lookup_insert_ne by done. apply Hcells; [done|].
      destruct (HQ _ _ Hq) as [?|[_ ?]]; [done|lia].
  - exists row. rewrite list_lookup_alter_ne by done. split_and!; try done.
    intros j' Hj' Hq. apply Hcells; [done|].
    destruct (HQ _ _ Hq) as [?|[? _]]; [done|lia].
Qed.

(** Cells known after the first column is filled up to row [k]. *)
Lemma first_column dp k :
  k <= S (length a) ->
  FilledAt a b (fun _ _ => False) dp ->
  FilledAt a b (fun i' j' => i' < k /\ j' = 0)
    (fold_left (fun dp i => setCell dp i 0 (Some i)) (seq 0 k) dp).
Proof.
  intros Hk H0. induction k as [|k IH].
  - simpl. destruct H0 as [Hlen H]. split; [done|].
    intros i' Hi'. destruct (H i' Hi') as (row & ? & ? & _).
    exists row. split_and!; try done. lia.
  - rewrite seq_S, fold_left_app. simpl.
    replace (Some k) with (Some (distance a b k 0))
      by (by rewrite distance_0_r).
    eapply FilledAt_set; [apply IH; lia|lia|lia|].
    intros i' j' [Hi' ->]. destruct (decide (i' = k)); [by right|left]. lia.
Qed.

Lemma first_row dp k :
  k <= S (length b) ->
  FilledAt a b (fun i' j' => j' = 0) dp ->
  FilledAt a b (fun i' j' => j' = 0 \/ (i' = 0 /\ j' < k))
    (fold_left (fun dp j => setCell dp 0 j (Some j)) (seq 0 k) dp).
Proof.
  intros Hk H0. induction k as [|k IH].
  - simpl. destruct H0 as [Hlen H]. split; [done|].
    intros i' Hi'. destruct (H i' Hi') as (row & ? & ? & Hc).
    exists row. split_and!; try done. intros j' Hj' [->|[_ ?]]; [|lia].
    by apply Hc.
  - rewrite seq_S, fold_left_app. simpl.
    change (Some k) with (Some (distance a b 0 k)).
    eapply FilledAt_set; [apply IH; lia|lia|lia|].
    intros i' j' [->|[-> Hj']]; [by left; left|].
    destruct (decide (j' = k)); [by right|left; right]. lia.
Qed.

Lemma levStep_FilledAt dp i j :
  FilledAt a b (known (S i) (S j)) dp -> i < length a -> j < length b ->
  FilledAt a b (known (S i) (S (S j))) (levStep a b (S i) dp (S j)).
Proof.
  intros Ht Hi Hj. unfold levStep.
  replace (S i - 1) with i by lia. replace (S j - 1) with j by lia.
  rewrite (FilledAt_cell _ dp i (S j) Ht) by (unfold known; lia).
  rewrite (FilledAt_cell _ dp i j Ht) by (unfold known; lia).
  rewrite (FilledAt_cell _ dp (S i) j Ht) by (unfold known; lia).
  rewrite min3_Some, <- distance_S_S.
  eapply FilledAt_set; [exact Ht|lia|lia|].
  unfold known. intros i' j' H. destruct (decide (i' = S i /\ j' = S j)); [by right|left]. lia.
Qed.

Lemma inner_FilledAt dp i j k :
  FilledAt a b (known (S i) (S j)) dp -> i < length a -> j + k <= length b ->
  FilledAt a b (known (S i) (S (j + k)))
           (fold_left (levStep a b (S i)) (seq (S j) k) dp).
Proof.
  revert dp j. induction k as [|k IH]; intros dp j Ht Hi Hk; simpl.
  - by rewrite Nat.add_0_r.
  - replace (j + S k) with (S j + k) by lia.
    apply IH; [|done|lia]. apply levStep_FilledAt; [done|done|lia].
Qed.

Lemma FilledAt_weaken (P Q : nat -> nat -> Prop) dp :
  FilledAt a b P dp ->
  (forall i' j', i' <= length a -> j' <= length b -> Q i' j' -> P i' j') ->
  FilledAt a b Q dp.
Proof.
  intros [Hlen H] HQ. split; [done|]. intros i' Hi'.
  destruct (H i' Hi') as (row & ? & ? & Hc). exists row. split_and!; try done.
  intros j' Hj' Hq. apply Hc; [done|]. by apply HQ.
Qed.

Lemma outer_FilledAt dp i k :
  FilledAt a b (known i (S (length b))) dp -> i + k <= length a ->
  FilledAt a b (known (i + k) (S (length b)))
    (fold_left (fun dp i => fold_left (levStep a b i) (seq 1 (length b)) dp)
               (seq (S i) k) dp).
Proof.
  revert dp i. induction k as [|k IH]; intros dp i Ht Hk; simpl.
  - by rewrite Nat.add_0_r.
  - replace (i + S k) with (S i + k) by lia.
    apply IH; [|lia].
    apply (inner_FilledAt dp i 0 (length b)); [|lia|lia].
    eapply FilledAt_weaken; [exact Ht|]. unfold known. intros i' j' ? ?. lia.
Qed.

Lemma initial_FilledAt :
  FilledAt a b (fun _ _ => False)
    (replicate (length a + 1) (replicate (length b + 1) (Some 0))).
Proof.
  split; [rewrite length_replicate; lia|]. intros i' Hi'.
  exists (replicate (length b + 1) (Some 0)).
  rewrite lookup_replicate_2 by lia. split_and!; [done| |done].
  rewrite length_replicate. lia.
Qed.

Lemma levenshteinFilled_distance :
  levenshteinFilled a b = Some (distance a b (length a) (length b)).
Proof.
  unfold levenshteinFilled.
  pose proof initial_FilledAt as H0.
  apply (first_column _ (length a + 1)) in H0; [|lia].
  eapply FilledAt_weaken in H0.
  2:{ intros i' j' Hi' Hj' Hq. split; [lia|exact Hq]. }
  apply (first_row _ (length b + 1)) in H0; [|lia].
  eapply (FilledAt_weaken _ (known 0 (S (length b)))) in H0.
  2:{ unfold known. intros i' j' Hi' Hj' Hq. lia. }
  apply (outer_FilledAt _ 0 (length a)) in H0; [|lia].
  simpl in H0. eapply FilledAt_cell; [exact H0|lia|lia|].
  unfold known. lia.
Qed.
End Filled.

(** X21. The edit distance of the image masker's token matcher, which
    fills a table of zeros, returns for any two strings what the
    [levenshtein] of eval.js returns. *)
Theorem levenshteinFilled_agrees (a b : list N) :
  levenshteinFilled a b = levenshtein a b.
Proof. by rewrite levenshteinFilled_distance, levenshtein_distance. Qed.

Local Close Scope nat_scope.

(** ** text-masker.js: from the detections to the masked text *)

Local Open Scope nat_scope.

Lemma indexOf_clamp text value i :
  indexOf text value i = indexOf text value (Nat.min i (length text)).
Proof. unfold indexOf. cbv zeta. by rewrite <- Nat.min_assoc, Nat.min_id. Qed.

Lemma scanLoop_Scanned fuel text value i :
  value <> [] -> length text - i < fuel ->
  exists hits, scanLoop fuel text value i = Some hits
               /\ Scanned text value i hits.
Proof.
  intros Hne. pose proof (length_pos value Hne) as Hpos.
  revert i. induction fuel as [|fuel IH]; intros i Hfuel; [lia|]. simpl.
  rewrite indexOf_clamp.
  destruct (indexOf text value (Nat.min i (length text))) as [j|] eqn:E.
  - apply (proj1 (indexOf_Some text value (Nat.min i (length text)) j
                    ltac:(lia))) in E
      as (Hij & Ho & Hn).
    pose proof (occursAt_lt _ _ _ Hne Ho) as Hlt.
    destruct (IH (j + length value)) as (hits & -> & Hs); [lia|].
    eexists. split; [done|]. constructor; try done; [lia|].
    intros j' Hj'. apply Hn. lia.
  - exists []. split; [done|]. constructor. intros j Hj.
    apply (proj1 (indexOf_None text value (Nat.min i (length text))
                    ltac:(lia)) E). lia.
Qed.

Lemma scanLoop_findAll fuel text value :
  value <> [] -> length text < fuel ->
  scanLoop fuel text value 0 = Some (findAll text value).
Proof.
  intros Hne Hfuel.
  destruct (scanLoop_Scanned fuel text value 0 Hne ltac:(lia)) as (hits & -> & Hs).
  f_equal. eapply Scanned_unique; [exact Hs|by apply findAll_Scanned].
Qed.

(** An empty needle is found at every index: the loop never ends. *)
Lemma scanLoop_empty fuel text i : scanLoop fuel text [] i = None.
Proof.
  revert i. induction fuel as [|fuel IH]; intros i; simpl; [done|].
  unfold indexOf. destruct (drop _ text); simpl; by rewrite IH.
Qed.

Lemma dropSpaces_snoc l c :
  isSpace c = false -> exists l', dropSpaces (l ++ [c]) = l' ++ [c].
Proof.
  intros Hc. induction l as [|x l IH]; simpl.
  - rewrite Hc. by exists [].
  - destruct (isSpace x); [done|]. by exists (x :: l).
Qed.

Lemma dropSpaces_head s :
  dropSpaces s = [] \/ exists c t, dropSpaces s = c :: t /\ isSpace c = false.
Proof.
  induction s as [|x s IH]; simpl; [by left|].
  destruct (isSpace x) eqn:E; [done|]. right. by exists x, s.
Qed.

Lemma trim_head s :
  trim s = [] \/ exists c t, trim s = c :: t /\ isSpace c = false.
Proof.
  unfold trim. destruct (dropSpaces_head s) as [->|(c & t & -> & Hc)];
    [by left|right].
  simpl. destruct (dropSpaces_snoc (rev t) c Hc) as [l' ->].
  rewrite rev_app_distr. simpl. by exists c, (rev l').
Qed.

Lemma variations_nonEmpty c t :
  isSpace c = false -> Forall (fun v => v <> []) (variations (c :: t)).
Proof.
  intros Hc. unfold variations, replaceSpaces. simpl. rewrite Hc.
  repeat constructor; done.
Qed.

Lemma Forall_uniqueResults (P : nat * nat -> Prop) results :
  Forall P results -> Forall P (uniqueResults results).
Proof.
  intros H. unfold uniqueResults. apply Forall_forall. intros x Hx.
  apply list_elem_of_In, in_map_iff in Hx as ([k y] & <- & Hin).
  apply filter_In in Hin as [Hin _]. apply list_elem_of_In in Hin.
  apply elem_of_lookup_imap in Hin as (i & z & [= -> ->] & Hz).
  rewrite Forall_forall in H. apply H. by eapply list_elem_of_lookup_2.
Qed.

Lemma elem_of_uniqueResults x results :
  x ∈ results -> x ∈ uniqueResults results.
Proof.
  intros Hx. unfold uniqueResults.
  destruct (list_find_elem_of (fun t => t = x) results x Hx eq_refl)
    as [[k y] Hfind].
  pose proof Hfind as (Hk & -> & _)%list_find_Some.
  apply list_elem_of_In. apply in_map_iff. exists (k, x). split; [done|].
  apply filter_In. split.
  - apply list_elem_of_In, elem_of_lookup_imap. by exists k, x.
  - apply bool_decide_eq_true. unfold findIndex. simpl. by rewrite Hfind.
Qed.

Lemma covered_true ranges i :
  covered ranges i = true <-> exists r, r ∈ ranges /\ fst r <= i < snd r.
Proof.
  unfold covered. rewrite existsb_exists. split.
  - intros (r & Hr & [H1%Nat.leb_le H2%Nat.ltb_lt]%andb_true_iff).
    exists r. split; [by apply list_elem_of_In|lia].
  - intros (r & Hr & H1 & H2). exists r. split; [by apply list_elem_of_In|].
    apply andb_true_iff. split; [by apply Nat.leb_le|by apply Nat.ltb_lt].
Qed.

Lemma findAll_InText text value : Forall (InText text) (findAll text value).
Proof.
  destruct value as [|v value]; [constructor|].
  destruct (Scanned_bounds text (v :: value) 0 _ ltac:(done)
              (findAll_Scanned text (v :: value) ltac:(done))) as [H _].
  eapply Forall_impl; [exact H|]. unfold InText. simpl. intros r. lia.
Qed.

Lemma scanVariations_total fuel text vars :
  length text < fuel -> Forall (fun v => v <> []) vars ->
  scanVariations fuel text vars
  = Some (concat (List.map (findAll text) vars)).
Proof.
  intros Hfuel. induction 1 as [|v vars Hv _ IH]; simpl; [done|].
  by rewrite scanLoop_findAll, IH.
Qed.

Lemma covered_InText text ranges i :
  Forall (InText text) ranges -> covered ranges i = true -> i < length text.
Proof.
  intros Hall (r & Hr & Hi)%covered_true.
  rewrite Forall_forall in Hall. specialize (Hall r Hr). unfold InText in Hall.
  lia.
Qed.

Lemma covered_subset rs1 rs2 i :
  (forall r, r ∈ rs1 -> r ∈ rs2) -> covered rs1 i = true -> covered rs2 i = true.
Proof.
  intros Hsub (r & Hr & Hi)%covered_true. apply covered_true.
  exists r. split; [by apply Hsub|done].
Qed.

Lemma findVariations_total fuel text val :
  length text < fuel ->
  (val = [] \/ exists c t, val = c :: t /\ isSpace c = false) ->
  exists ranges, findVariations fuel text val = Some ranges
    /\ Forall (InText text) ranges
    /\ forall i, covered (findAll text val) i = true -> covered ranges i = true.
Proof.
  intros Hfuel Hval. unfold findVariations.
  destruct (nonEmpty val) eqn:Hne; cbn [negb orb].
  2:{ exists []. split_and!; [done|constructor|].
      apply negb_false_iff, bool_decide_eq_true in Hne. by rewrite Hne. }
  destruct (nonEmpty text) eqn:Hnt; cbn [negb orb].
  2:{ exists []. split_and!; [done|constructor|].
      apply negb_false_iff, bool_decide_eq_true in Hnt. rewrite Hnt.
      intros i Hc. apply (covered_InText [] _ i (findAll_InText [] val)) in Hc.
      simpl in Hc. lia. }
  destruct Hval as [->|(c & t & -> & Hc)]; [done|].
  rewrite (scanVariations_total fuel text _ Hfuel (variations_nonEmpty c t Hc)).
  cbn [mbind option_bind]. eexists. split; [done|]. split.
  - apply Forall_sortBy, Forall_uniqueResults.
    apply Forall_concat, Forall_forall. intros hits Hhits.
    apply list_elem_of_In, in_map_iff in Hhits as (v & <- & _).
    apply findAll_InText.
  - intros i Hi. rewrite covered_sortBy.
    eapply covered_subset; [|exact Hi]. intros r Hr.
    apply elem_of_uniqueResults. unfold variations.
    cbn [List.map concat]. apply elem_of_app. by left.
Qed.

Lemma collectRanges_total fuel text raws :
  length text < fuel ->
  exists allRanges, collectRanges fuel text raws = Some allRanges
    /\ Forall (InText text) allRanges
    /\ forall raw i, raw ∈ raws ->
         covered (findAll text (trim raw)) i = true ->
         covered allRanges i = true.
Proof.
  intros Hfuel. induction raws as [|raw raws (more & IH1 & IH2 & IH3)]; simpl.
  - exists []. split_and!; [done|constructor|]. by intros raw i ?%elem_of_nil.
  - destruct (nonEmpty (trim raw)) eqn:Hne; simpl.
    + destruct (findVariations_total fuel text (trim raw) Hfuel (trim_head raw))
        as (ranges & -> & H2 & H3).
      rewrite IH1. simpl. exists (ranges ++ more). split_and!; [done| |].
      * apply Forall_app. by split.
      * intros raw' i [->|Hin]%elem_of_cons Hc; rewrite covered_app.
        -- by rewrite (H3 i Hc).
        -- by rewrite (IH3 raw' i Hin Hc), orb_true_r.
    + exists more. split_and!; [done|done|].
      intros raw' i [->|Hin]%elem_of_cons Hc; [|by eapply IH3].
      apply negb_false_iff, bool_decide_eq_true in Hne. by rewrite Hne in Hc.
Qed.

(** X22. The masked text of [maskPdf] and [maskDoc].  The search for the
    detections always comes to an end: a trimmed value is empty, and then
    passed over, or starts with a character that is not white space, so
    none of its variations is empty.  The masked text is as long as the
    text; a character of it is the character of the text, or an X in its
    place; white space stays.  Every character that is not white space
    and lies in a range that the left-to-right scan for a trimmed value
    reports is an X. *)
Theorem maskedTextOf_masks_every_hit
  (fuel : nat) (text : list N) (raws : list (list N)) :
  length text < fuel ->
  exists masked,
    maskedTextOf fuel text raws = Some masked
    /\ length masked = length text
    /\ (forall i c, text !! i = Some c ->
          masked !! i = Some c \/ masked !! i = Some (maskChar c))
    /\ (forall raw i c, raw ∈ raws ->
          covered (findAll text (trim raw)) i = true ->
          text !! i = Some c -> masked !! i = Some (maskChar c)).
Proof.
  intros Hfuel. unfold maskedTextOf.
  destruct (collectRanges_total fuel text raws Hfuel)
    as (allRanges & -> & Hin & Hcov).
  simpl. eexists. split; [done|].
  rewrite (maskTextRanges_merged text allRanges Hin). unfold maskWhere.
  split_and!.
  - by rewrite length_imap.
  - intros i c Hc. rewrite list_lookup_imap, Hc. simpl.
    destruct (covered allRanges i); auto.
  - intros raw i c Hraw Hi Hc. rewrite list_lookup_imap, Hc. simpl.
    by rewrite (Hcov raw i Hraw Hi).
Qed.

Lemma maskedTextOf_masks_every_hit_witness :
  exists masked,
    maskedTextOf 20 (u "Dr Ann Lee, Ann") [u " Ann Lee "; u "Ann"] = Some masked
    /\ length masked = length (u "Dr Ann Lee, Ann")
    /\ (forall i c, u "Dr Ann Lee, Ann" !! i = Some c ->
          masked !! i = Some c \/ masked !! i = Some (maskChar c))
    /\ (forall raw i c, raw ∈ [u " Ann Lee "; u "Ann"] ->
          covered (findAll (u "Dr Ann Lee, Ann") (trim raw)) i = true ->
          u "Dr Ann Lee, Ann" !! i = Some c -> masked !! i = Some (maskChar c)).
Proof.
  apply (maskedTextOf_masks_every_hit 20 (u "Dr Ann Lee, Ann")
           [u " Ann Lee "; u "Ann"]).
  simpl. lia.
Defined.

Lemma collapseSpaces_blank inRun value :
  forallb isSpace value = true -> collapseSpaces [] inRun value = [].
Proof.
  revert inRun. induction value as [|c value IH]; intros inRun; simpl; [done|].
  intros [-> Hrest]%andb_true_iff. rewrite IH by done. by destruct inRun.
Qed.

(** X23. The masker's [findAllOccurrences] does not return for a value
    that is not empty and holds white space only, in a text that is not
    empty: the variation without white space is the empty string, which
    [indexOf] finds at every index, so the loop over it never ends,
    however many rounds it is given.  ([maskPdf], [maskDoc] and
    [maskDocx] trim the value first and so never pass such a value.) *)
Theorem findVariations_blank_value_never_returns
  (fuel : nat) (text value : list N) :
  value <> [] -> text <> [] -> forallb isSpace value = true ->
  findVariations fuel text value = None.
Proof.
  intros Hv Ht Hblank. unfold findVariations, nonEmpty.
  rewrite !bool_decide_eq_false_2 by done. cbn [negb orb].
  unfold variations, replaceSpaces. cbn [scanVariations].
  destruct (scanLoop fuel text value 0) as [hits|]; [|done].
  cbn [mbind option_bind].
  by rewrite (collapseSpaces_blank false value Hblank), scanLoop_empty.
Qed.

Lemma findVariations_blank_value_never_returns_witness :
  findVariations 1000 (u "a b") (u " ") = None.
Proof.
  apply (findVariations_blank_value_never_returns 1000 (u "a b") (u " "));
    done.
Defined.

Local Close Scope nat_scope.
